(** * NumberLine: tick-range generation, label placement and coordinate maps

    Shallow embedding of [manim/mobject/number_line.py].

    Numbers.  The Python code computes on IEEE doubles.  Every finite double
    is a rational number, so configuration values, tick numbers and label
    numbers are values of [Q], compared with [==], [<], [<=].  The tick range
    is modelled twice.  Module [F64] follows the program operation by
    operation, each result rounded to the nearest double, with numpy's own
    rules for the length and the elements of [np.arange]: the statements about
    the values of the ticks are made of it.  The definitions outside [F64]
    compute without rounding; they carry the statements that hold whatever
    the rounding (which ticks get a label, how a label is placed, what the
    constructor stores).  Scene geometry needs
    square roots and trigonometry and is modelled over [R] (section "Geometry"
    below), with the configuration injected by [Q2R].

    Errors.  Python exceptions are modelled by the [result] type. *)

From Stdlib Require Import QArith Qround Qabs Qpower ZArith List Bool Lia Lra Lqa.
From Stdlib Require Import Sorting.Sorted Morphisms Setoid.
From Stdlib Require Import Reals Qreals.
From Stdlib Require Import Ascii String.
Import ListNotations.

Local Open Scope Q_scope.

(* ===================================================================== *)
(** ** Python runtime: exceptions                                          *)
(* ===================================================================== *)

Module Py.

Inductive exn : Type :=
| ValueError
| ZeroDivisionError.

Inductive result (A : Type) : Type :=
| Ok (a : A)
| Raise (e : exn).

Arguments Ok {A} a.
Arguments Raise {A} e.

Definition bind {A B : Type} (m : result A) (k : A -> result B) : result B :=
  match m with
  | Ok a => k a
  | Raise e => Raise e
  end.

(** [for x in xs: acc = body(acc, x)], stopping at the first exception. *)
Fixpoint for_each {A S : Type} (body : S -> A -> result S) (xs : list A) (acc : S)
  : result S :=
  match xs with
  | [] => Ok acc
  | x :: xs' => bind (body acc x) (for_each body xs')
  end.

(** Python's [round(x)] with one argument: nearest integer, ties to even. *)
Definition round (x : Q) : Z :=
  let f := Qfloor x in
  match Qcompare (x - inject_Z f) (1 # 2) with
  | Lt => f
  | Gt => (f + 1)%Z
  | Eq => if Z.even f then f else (f + 1)%Z
  end.

(** [a < b] on numbers. *)
Definition ltb (a b : Q) : bool :=
  match Qcompare a b with
  | Lt => true
  | _ => false
  end.

(** [x in xs] on a list of numbers: some element compares equal to [x]. *)
Definition contains (x : Q) (xs : list Q) : bool :=
  existsb (fun y => Qeq_bool y x) xs.

End Py.

Import Py.

Notation "x <- m ;; k" := (Py.bind m (fun x => k))
  (at level 61, m at next level, right associativity).

(* ===================================================================== *)
(** ** The numpy functions used by [get_tick_range]                        *)
(* ===================================================================== *)

(** [arange] and [arange_len] here compute without rounding; module [F64]
    below has [np.arange] as numpy computes it on doubles.  [scale],
    [concatenate], [unique] and [abs] are exact in both. *)

Module np.

(** Number of elements of [np.arange(start, stop, step)]:
    [ceil((stop - start) / step)], and none when that is not positive. *)
Definition arange_len (start stop step : Q) : nat :=
  Z.to_nat (Qceiling ((stop - start) / step)).

(** [np.arange(start, stop, step)].  Element [i] is [start + i * step]
    (numpy fills the array from the first element and the increment, it does
    not add [step] repeatedly).  A zero step raises [ValueError]. *)
Definition arange (start stop step : Q) : result (list Q) :=
  if Qeq_bool step 0 then Raise ValueError
  else Ok (map (fun i : nat => start + inject_Z (Z.of_nat i) * step)
               (seq 0 (arange_len start stop step))).

(** [arr * c]. *)
Definition scale (c : Q) (arr : list Q) : list Q :=
  map (fun v => v * c) arr.

Definition concatenate (a b : list Q) : list Q := a ++ b.

(** Insertion into an ascending duplicate-free list; a value already present
    (exact equality) is dropped. *)
Fixpoint insert (x : Q) (l : list Q) : list Q :=
  match l with
  | [] => [x]
  | y :: l' =>
      match Qcompare x y with
      | Lt => x :: l
      | Eq => l
      | Gt => y :: insert x l'
      end
  end.

(** [np.unique(arr)]: the sorted distinct values of [arr]; values are
    identified by exact equality. *)
Definition unique (arr : list Q) : list Q :=
  fold_right insert [] arr.

Definition abs (x : Q) : Q := Qabs x.

End np.

(* ===================================================================== *)
(** ** Constants of [manim.constants]                                      *)
(* ===================================================================== *)

(** Modelled from the spec: the direction constants and the buffer of
    [manim.constants], a module that is not among the sources.  Directions
    are arrays of three numbers; [DOWN] is purely vertical, [LEFT] and
    [RIGHT] are purely horizontal. *)
Definition Vec3 : Type := (Q * Q * Q)%type.

Definition DOWN : Vec3 := (0, -(1), 0).
Definition RIGHT : Vec3 := (1, 0, 0).
Definition LEFT : Vec3 := (-(1), 0, 0).
Definition MED_SMALL_BUFF : Q := 1 # 4.

(** [v[0]] *)
Definition vx (v : Vec3) : Q := fst (fst v).

(** [c * v] and [v / c] on arrays. *)
Definition vscale (c : Q) (v : Vec3) : Vec3 :=
  let '(a, b, d) := v in (c * a, c * b, c * d).
Definition vdiv (v : Vec3) (c : Q) : Vec3 :=
  let '(a, b, d) := v in (a / c, b / c, d / c).

(** The literal [1e-6] of [get_tick_range], as the number one millionth (the
    double the literal denotes is [F64.epsilon]). *)
Definition epsilon : Q := 1 # 1000000.

(* ===================================================================== *)
(** ** Mobjects built by the number line                                   *)
(* ===================================================================== *)

(** A point on the axis is recorded by the interpolation parameter [alpha]
    that [number_to_point] hands to [interpolate(start, end, alpha)]; the
    scene-space point itself is computed in the geometry section. *)

(** Modelled from the spec: the label renderer [DecimalNumber] of
    [manim.mobject.numbers], which is not among the sources.  A label is its
    number and the calls made on it after it is created ([scale], [next_to],
    [shift]), in order. *)
Inductive MobOp : Type :=
| OpScale (factor : Q)
| OpNextTo (alpha : Q) (direction : Vec3) (buff : Q)
| OpShift (v : Vec3).

Record DecimalNumber : Type := mkDecimalNumber {
  number : Q;
  ops : list MobOp
}.

(** The tick built by [get_tick]: a segment from [size * DOWN] to [size * UP]
    moved to the point of parameter [tick_alpha]. *)
Record Tick : Type := mkTick {
  tick_alpha : Q;
  tick_size_of : Q
}.

Inductive Submobject : Type :=
| SubTip
| SubTicks (ts : list Tick)
| SubNumbers (ns : list DecimalNumber).

(** The attributes of a [NumberLine] instance. *)
Record NumberLine : Type := mkNumberLine {
  x_min : Q;
  x_max : Q;
  x_step : Q;
  length : option Q;
  unit_size : Q;
  include_ticks : bool;
  tick_size : Q;
  numbers_with_elongated_ticks : list Q;
  longer_tick_multiple : Q;
  exclude_origin_tick : bool;
  rotation : Q;
  include_tip : bool;
  include_numbers : bool;
  label_direction : Vec3;
  line_to_number_buff : Q;
  numbers_to_exclude : list Q;
  numbers_to_include : option (list Q);
  number_scale_value : Q;
  submobjects : list Submobject;
  ticks : option (list Tick);
  numbers : option (list DecimalNumber)
}.

(** [self.add(m)] *)
Definition add (m : Submobject) (self : NumberLine) : NumberLine :=
  mkNumberLine (x_min self) (x_max self) (x_step self) (length self)
    (unit_size self) (include_ticks self) (tick_size self)
    (numbers_with_elongated_ticks self) (longer_tick_multiple self)
    (exclude_origin_tick self) (rotation self) (include_tip self)
    (include_numbers self) (label_direction self) (line_to_number_buff self)
    (numbers_to_exclude self) (numbers_to_include self)
    (number_scale_value self) (submobjects self ++ [m]) (ticks self)
    (numbers self).

Definition set_ticks (ts : list Tick) (self : NumberLine) : NumberLine :=
  mkNumberLine (x_min self) (x_max self) (x_step self) (length self)
    (unit_size self) (include_ticks self) (tick_size self)
    (numbers_with_elongated_ticks self) (longer_tick_multiple self)
    (exclude_origin_tick self) (rotation self) (include_tip self)
    (include_numbers self) (label_direction self) (line_to_number_buff self)
    (numbers_to_exclude self) (numbers_to_include self)
    (number_scale_value self) (submobjects self) (Some ts) (numbers self).

Definition set_numbers (ns : list DecimalNumber) (self : NumberLine) : NumberLine :=
  mkNumberLine (x_min self) (x_max self) (x_step self) (length self)
    (unit_size self) (include_ticks self) (tick_size self)
    (numbers_with_elongated_ticks self) (longer_tick_multiple self)
    (exclude_origin_tick self) (rotation self) (include_tip self)
    (include_numbers self) (label_direction self) (line_to_number_buff self)
    (numbers_to_exclude self) (numbers_to_include self)
    (number_scale_value self) (submobjects self) (ticks self) (Some ns).

(* ===================================================================== *)
(** ** [get_tick_range]                                                    *)
(* ===================================================================== *)

(** The function, statement by statement, computed without rounding;
    [F64.get_tick_range] below is the same function on doubles. *)

(** The local [x_max] of [get_tick_range]: the upper bound of the
    positive-going progression. *)
Definition effective_x_max (self : NumberLine) : Q :=
  if include_tip self then x_max self else x_max self + epsilon.

(** The guard [self.x_min < x_max < 0 or self.x_max > self.x_min > 0]. *)
Definition same_sign (self : NumberLine) : bool :=
  (Py.ltb (x_min self) (effective_x_max self)
   && Py.ltb (effective_x_max self) 0)
  || (Py.ltb (x_min self) (x_max self) && Py.ltb 0 (x_min self)).

Definition start_point (self : NumberLine) : Q :=
  if exclude_origin_tick self then 0 + x_step self else 0.

Definition get_tick_range (self : NumberLine) : result (list Q) :=
  let x_max := effective_x_max self in
  if same_sign self then np.arange (x_min self) x_max (x_step self)
  else
    let start_point := start_point self in
    a <- np.arange start_point (np.abs (x_min self) + epsilon) (x_step self) ;;
    let x_min_segment := np.scale (-(1)) a in
    x_max_segment <- np.arange start_point x_max (x_step self) ;;
    Ok (np.unique (np.concatenate x_min_segment x_max_segment)).

(* ===================================================================== *)
(** ** Binary64 arithmetic and the tick range as the program computes it   *)
(* ===================================================================== *)

(** The tick numbers of the program are IEEE binary64 values and every
    operation on them rounds.  This module models a finite double by the
    rational number it denotes and makes the rounding explicit: [fl q] is the
    double nearest to [q] (ties to even), as Python's [+], [-], [*], [/] on
    floats and numpy's loops on [float64] return it.  The sign of a zero is
    not represented; no result below depends on it ([np.unique] and the
    comparisons identify [-0.0] and [0.0]).  The numbers of [x_range] are
    taken to be Python floats; a Python int of magnitude below [2 ^ 53] gives
    the same values, through the same operations or through numpy's exact
    ones on integers. *)

Module F64.

Definition two_pow (z : Z) : Q := 2 ^ z.

(** [floor(log2 a)] for [a > 0]. *)
Definition ilog2 (a : Q) : Z :=
  let k := (Z.log2 (Qnum a) - Z.log2 (Z.pos (Qden a)))%Z in
  if Qle_bool (two_pow k) a then k else (k - 1)%Z.

(** The exponent of the unit in the last place at [a > 0]: 52 binary places
    below the leading bit, and never below the subnormal spacing. *)
Definition grid (a : Q) : Z := Z.max (ilog2 a - 52) (-1074).

(** Nearest multiple of [2 ^ grid a], ties to the even multiple. *)
Definition round_pos (a : Q) : Q :=
  inject_Z (Py.round (a / two_pow (grid a))) * two_pow (grid a).

(** The double nearest to [q]; [None] stands for an infinity (the rounded
    magnitude reaches [2 ^ 1024]). *)
Definition fl (q : Q) : option Q :=
  match Qcompare q 0 with
  | Eq => Some 0
  | Gt => let r := round_pos q in
          if Qle_bool (two_pow 1024) r then None else Some r
  | Lt => let r := round_pos (- q) in
          if Qle_bool (two_pow 1024) r then None else Some (- r)
  end.

(** [q] is (the value of) a finite double. *)
Definition double (q : Q) : Prop := exists r, fl q = Some r /\ r == q.

(** The value of a decimal literal of the source. *)
Definition literal (q : Q) : Q :=
  match fl q with
  | Some r => r
  | None => 0
  end.

(** [1e-6] *)
Definition epsilon : Q := literal (1 # 1000000).

Inductive exn : Type :=
| ValueError
| ZeroDivisionError
| OverflowError.

(** What a call does: it returns, it raises, or an infinity enters an array,
    which this model does not follow further. *)
Inductive outcome (A : Type) : Type :=
| Returns (a : A)
| Raises (e : exn)
| NotFinite.

Arguments Returns {A} a.
Arguments Raises {A} e.
Arguments NotFinite {A}.

Definition bind {A B : Type} (m : outcome A) (k : A -> outcome B) : outcome B :=
  match m with
  | Returns a => k a
  | Raises e => Raises e
  | NotFinite => NotFinite
  end.

Definition finite {A : Type} (o : option A) : outcome A :=
  match o with
  | Some a => Returns a
  | None => NotFinite
  end.

Definition obind {A B : Type} (o : option A) (k : A -> option B) : option B :=
  match o with
  | Some a => k a
  | None => None
  end.

Fixpoint sequence {A : Type} (l : list (option A)) : option (list A) :=
  match l with
  | [] => Some []
  | o :: l' => obind o (fun a => obind (sequence l') (fun r => Some (a :: r)))
  end.

(** [i * x] in the fill loop: the index converted to a double, then the
    rounded product. *)
Definition multiple (i : nat) (x : Q) : option Q :=
  obind (fl (inject_Z (Z.of_nat i))) (fun fi => fl (fi * x)).

(** The length numpy computes for [np.arange(start, stop, step)]
    ([_calc_length]): the ceiling of the quotient [(stop - start) / step] as
    Python's float arithmetic returns it.  Python's division raises on a zero
    divisor; an infinite quotient or one outside the range of [intp] raises
    [OverflowError]; a quotient that underflowed to zero counts one element
    when it is positive. *)
Definition arange_len (start stop step : Q) : outcome Z :=
  if Qeq_bool step 0 then Raises ZeroDivisionError
  else
    match fl (stop - start) with
    | None => Raises OverflowError
    | Some d =>
        match fl (d / step) with
        | None => Raises OverflowError
        | Some v =>
            let len := Qceiling v in
            if (len <? - 2 ^ 63)%Z || (2 ^ 63 - 1 <? len)%Z
            then Raises OverflowError
            else if Qeq_bool v 0 && negb (Qeq_bool d 0)
            then Returns (if Py.ltb (d / step) 0 then 0%Z else 1%Z)
            else Returns len
        end
    end.

(** Element [i] of the array, as [PyArray_ArangeObj] and [DOUBLE_fill] write
    it: [start], then [next = start + step], then
    [start + i * delta] with [delta = next - start], every operation
    rounded. *)
Definition arange_term (start step : Q) (i : nat) : option Q :=
  match i with
  | O => Some start
  | S O => fl (start + step)
  | _ =>
      obind (fl (start + step)) (fun next =>
      obind (fl (next - start)) (fun delta =>
      obind (multiple i delta) (fun p =>
      fl (start + p))))
  end.

(** [np.arange(start, stop, step)] on floats.  An array of [2 ^ 60] doubles
    or more is refused; the allocation of a smaller one is taken to
    succeed. *)
Definition arange (start stop step : Q) : outcome (list Q) :=
  bind (arange_len start stop step) (fun len =>
  if (len <=? 0)%Z then Returns []
  else if (2 ^ 60 <=? len)%Z then Raises ValueError
  else finite (sequence (map (arange_term start step) (seq 0 (Z.to_nat len))))).

(** The guard [self.x_min < x_max < 0 or self.x_max > self.x_min > 0], for
    the local [x_max]. *)
Definition same_sign (self : NumberLine) (x_max' : Q) : bool :=
  (Py.ltb (x_min self) x_max' && Py.ltb x_max' 0)
  || (Py.ltb (x_min self) (x_max self) && Py.ltb 0 (x_min self)).

(** The local [x_max]. *)
Definition effective_x_max (self : NumberLine) : option Q :=
  if include_tip self then Some (x_max self) else fl (x_max self + epsilon).

Definition start_point (self : NumberLine) : option Q :=
  if exclude_origin_tick self then fl (0 + x_step self) else Some 0.

Definition get_tick_range (self : NumberLine) : outcome (list Q) :=
  bind (finite (effective_x_max self)) (fun x_max' =>
  if same_sign self x_max' then arange (x_min self) x_max' (x_step self)
  else
    bind (finite (start_point self)) (fun start_point =>
    bind (finite (fl (np.abs (x_min self) + epsilon))) (fun stop =>
    bind (arange start_point stop (x_step self)) (fun a =>
    let x_min_segment := np.scale (-(1)) a in
    bind (arange start_point x_max' (x_step self)) (fun x_max_segment =>
    Returns (np.unique (np.concatenate x_min_segment x_max_segment))))))).

End F64.

(* ===================================================================== *)
(** ** Ticks, number labels and [__init__]                                 *)
(* ===================================================================== *)

(** The first statement of [number_to_point]:
    [alpha = float(number - self.x_min) / (self.x_max - self.x_min)].
    [x_range] holds Python numbers, so a zero divisor raises
    [ZeroDivisionError] (with numpy scalars the quotient is not finite and
    nothing is raised; the statements below are about intervals of non-zero
    width). *)
Definition number_to_point_alpha (self : NumberLine) (number : Q) : result Q :=
  if Qeq_bool (x_max self - x_min self) 0 then Raise ZeroDivisionError
  else Ok ((number - x_min self) / (x_max self - x_min self)).

Definition get_tick (self : NumberLine) (x : Q) (size : option Q) : result Tick :=
  let size := match size with None => tick_size self | Some s => s end in
  alpha <- number_to_point_alpha self x ;;
  Ok (mkTick alpha size).

Definition add_ticks (self : NumberLine) : result NumberLine :=
  let elongated_tick_size := tick_size self * longer_tick_multiple self in
  xs <- get_tick_range self ;;
  ticks <- Py.for_each
             (fun ticks x =>
                let size :=
                  if Py.contains x (numbers_with_elongated_ticks self)
                  then elongated_tick_size else tick_size self in
                t <- get_tick self x (Some size) ;;
                Ok (ticks ++ [t]))
             xs [] ;;
  Ok (set_ticks ticks (add (SubTicks ticks) self)).

Section Construction.

(** External collaborators: the frame half-width [config["frame_x_radius"]]
    and the label renderer, of which the code reads one quantity,
    [num_mob[0].get_width()], the width of the leading glyph of a label. *)
Variable frame_x_radius : Q.
Variable leading_glyph_width : DecimalNumber -> Q.

Definition get_number_mobject (self : NumberLine) (x : Q)
    (direction : option Vec3) (buff : option Q) : result DecimalNumber :=
  let direction :=
    match direction with None => label_direction self | Some d => d end in
  let buff :=
    match buff with None => line_to_number_buff self | Some b => b end in
  let num_mob := mkDecimalNumber x [] in
  let num_mob :=
    mkDecimalNumber x (ops num_mob ++ [OpScale (number_scale_value self)]) in
  alpha <- number_to_point_alpha self x ;;
  let num_mob :=
    mkDecimalNumber x (ops num_mob ++ [OpNextTo alpha direction buff]) in
  if Py.ltb x 0 && Qeq_bool (vx (label_direction self)) 0 then
    (* Align without the minus sign *)
    Ok (mkDecimalNumber x
          (ops num_mob
           ++ [OpShift (vdiv (vscale (leading_glyph_width num_mob) LEFT) 2)]))
  else Ok num_mob.

Definition add_numbers (self : NumberLine) (x_values : option (list Q))
    (excluding : option (list Q)) : result NumberLine :=
  x_values <- match x_values with
              | None => get_tick_range self
              | Some xs => Ok xs
              end ;;
  let excluding :=
    match excluding with None => numbers_to_exclude self | Some e => e end in
  numbers <- Py.for_each
               (fun numbers x =>
                  if Py.contains x excluding then Ok numbers
                  else
                    m <- get_number_mobject self x None None ;;
                    Ok (numbers ++ [m]))
               x_values [] ;;
  Ok (set_numbers numbers (add (SubNumbers numbers) self)).

(** The keyword arguments of [__init__]. *)
Record Args : Type := mkArgs {
  arg_x_range : option (list Q);
  arg_length : option Q;
  arg_unit_size : Q;
  arg_include_ticks : bool;
  arg_tick_size : Q;
  arg_numbers_with_elongated_ticks : option (list Q);
  arg_longer_tick_multiple : Q;
  arg_rotation : Q;
  arg_include_tip : bool;
  arg_include_numbers : bool;
  arg_label_direction : Vec3;
  arg_line_to_number_buff : Q;
  arg_numbers_to_exclude : option (list Q);
  arg_numbers_to_include : option (list Q);
  arg_number_scale_value : Q;
  arg_exclude_origin_tick : bool
}.

(** The defaults of the signature, with [x_range] given. *)
Definition default_args (x_range : list Q) : Args :=
  mkArgs (Some x_range) None 1 true (1 # 10) None 2 0 false false DOWN
         MED_SMALL_BUFF None None (3 # 4) false.

(** [if self.length:] is false for [None] and for [0]. *)
Definition truthy (length : option Q) : bool :=
  match length with
  | None => false
  | Some l => negb (Qeq_bool l 0)
  end.

(** [__init__].  The calls on the underlying segment ([Line.__init__],
    [set_length] / [scale], [center], [rotate]) raise nothing; what they do to
    the end points is the subject of the geometry section.  After
    [set_length(length)] the segment has length [|length|], which gives the
    value of [get_unit_size()] stored in [unit_size] (for [x_max == x_min]
    Python stores a non-finite value there; no statement below reads it). *)
Definition init (a : Args) : result NumberLine :=
  let to_exclude :=
    match arg_numbers_to_exclude a with None => [] | Some l => l end in
  let elongated :=
    match arg_numbers_with_elongated_ticks a with None => [] | Some l => l end in
  let x_range :=
    match arg_x_range a with
    | None => [inject_Z (Py.round (- frame_x_radius));
               inject_Z (Py.round frame_x_radius); 1]
    | Some [lo; hi] => [lo; hi; 1]
    | Some l => l
    end in
  match x_range with
  | [x_min; x_max; x_step] =>
      let unit_size :=
        if truthy (arg_length a)
        then match arg_length a with
             | Some l => Qabs l / (x_max - x_min)
             | None => arg_unit_size a
             end
        else arg_unit_size a in
      let self :=
        mkNumberLine x_min x_max x_step (arg_length a) unit_size
          (arg_include_ticks a) (arg_tick_size a) elongated
          (arg_longer_tick_multiple a) (arg_exclude_origin_tick a)
          (arg_rotation a) (arg_include_tip a) (arg_include_numbers a)
          (arg_label_direction a) (arg_line_to_number_buff a)
          to_exclude (arg_numbers_to_include a)
          (arg_number_scale_value a) [] None None in
      let self := if include_tip self then add SubTip self else self in
      self <- (if include_ticks self then add_ticks self else Ok self) ;;
      if include_numbers self
         || match numbers_to_include self with Some _ => true | None => false end
      then add_numbers self (numbers_to_include self)
                       (Some (numbers_to_exclude self))
      else Ok self
  | _ => Raise ValueError
  end.

(** The value of [x_range] after the first statements of [__init__]. *)
Definition normalized_x_range (a : Args) : list Q :=
  match arg_x_range a with
  | None => [inject_Z (Py.round (- frame_x_radius));
             inject_Z (Py.round frame_x_radius); 1]
  | Some [lo; hi] => [lo; hi; 1]
  | Some l => l
  end.

(** The instance after the attribute assignments and the optional tip. *)
Definition configured (a : Args) (lo hi st : Q) : NumberLine :=
  let self :=
    mkNumberLine lo hi st (arg_length a)
      (if truthy (arg_length a)
       then match arg_length a with
            | Some l => Qabs l / (hi - lo)
            | None => arg_unit_size a
            end
       else arg_unit_size a)
      (arg_include_ticks a) (arg_tick_size a)
      (match arg_numbers_with_elongated_ticks a with
       | None => [] | Some l => l end)
      (arg_longer_tick_multiple a) (arg_exclude_origin_tick a)
      (arg_rotation a) (arg_include_tip a) (arg_include_numbers a)
      (arg_label_direction a) (arg_line_to_number_buff a)
      (match arg_numbers_to_exclude a with None => [] | Some l => l end)
      (arg_numbers_to_include a) (arg_number_scale_value a) [] None None in
  if arg_include_tip a then add SubTip self else self.

(** The group of labels built by [add_numbers]: its statements up to the end
    of the loop. *)
Definition number_labels (self : NumberLine) (x_values : option (list Q))
    (excluding : option (list Q)) : result (list DecimalNumber) :=
  x_values <- match x_values with
              | None => get_tick_range self
              | Some xs => Ok xs
              end ;;
  let excluding :=
    match excluding with None => numbers_to_exclude self | Some e => e end in
  Py.for_each
    (fun numbers x =>
       if Py.contains x excluding then Ok numbers
       else
         m <- get_number_mobject self x None None ;;
         Ok (numbers ++ [m]))
    x_values [].

End Construction.

(* ===================================================================== *)
(** ** [add_labels], [create_label_tex], [decimal_places_from_step]        *)
(* ===================================================================== *)

(** Modelled from the spec: the typeset labels [MathTex] and [Tex] of
    [manim.mobject.svg.tex_mobject], not among the sources.  A label is what
    it was built from and the calls made on it since. *)
Inductive LabelKind : Type :=
| MathTex (content : Q)
| Tex (content : string)
| Prebuilt (name : string).

Record LabelMobject : Type := mkLabelMobject {
  label_kind : LabelKind;
  label_ops : list MobOp
}.

(** The values of [dict_values]: a [float], an [int], a [str], or a mobject
    built by the caller. *)
Inductive LabelContent : Type :=
| LabelFloat (v : Q)
| LabelInt (n : Z)
| LabelStr (s : string)
| LabelGiven (m : LabelMobject).

Definition create_label_tex (label_tex : LabelContent) : LabelMobject :=
  match label_tex with
  | LabelFloat v => mkLabelMobject (MathTex v) []
  | LabelInt n => mkLabelMobject (MathTex (inject_Z n)) []
  | LabelStr s => mkLabelMobject (Tex s) []
  | LabelGiven m => m
  end.

(** [add_labels]: the group [labels] that the method builds, stores in
    [self.labels] and attaches with [self.add(labels)].  [dict_values] is the
    dictionary in the order of its [items()]. *)
Definition add_labels (self : NumberLine) (dict_values : list (Q * LabelContent))
    (direction : option Vec3) (buff : option Q) : result (list LabelMobject) :=
  let direction :=
    match direction with None => label_direction self | Some d => d end in
  let buff :=
    match buff with None => line_to_number_buff self | Some b => b end in
  Py.for_each
    (fun labels (item : Q * LabelContent) =>
       let '(x, label) := item in
       let label := create_label_tex label in
       let label :=
         mkLabelMobject (label_kind label)
           (label_ops label ++ [OpScale (number_scale_value self)]) in
       alpha <- number_to_point_alpha self x ;;
       let label :=
         mkLabelMobject (label_kind label)
           (label_ops label ++ [OpNextTo alpha direction buff]) in
       Ok (labels ++ [label]))
    dict_values [].

(** [s.split(sep)] for a separator of one character. *)
Fixpoint split (sep : ascii) (s : string) : list string :=
  match s with
  | EmptyString => [EmptyString]
  | String c s' =>
      if Ascii.eqb c sep then EmptyString :: split sep s'
      else match split sep s' with
           | [] => [String c EmptyString]
           | h :: t => String c h :: t
           end
  end.

(** [sep in s] for a separator of one character. *)
Fixpoint has_char (sep : ascii) (s : string) : bool :=
  match s with
  | EmptyString => false
  | String c s' => Ascii.eqb c sep || has_char sep s'
  end.

(** [decimal_places_from_step], on [step_as_str = str(self.x_step)]. *)
Definition decimal_places_from_step (step_as_str : string) : nat :=
  if negb (has_char "."%char step_as_str) then 0%nat
  else String.length (List.last (split "."%char step_as_str) EmptyString).

(* ===================================================================== *)
(** ** Geometry: the segment and the two coordinate maps                   *)
(* ===================================================================== *)

Module Geometry.

Local Open Scope R_scope.

Definition Point : Type := (R * R * R)%type.

Definition vadd (p q : Point) : Point :=
  let '(a, b, c) := p in let '(d, e, f) := q in (a + d, b + e, c + f).
Definition vsub (p q : Point) : Point :=
  let '(a, b, c) := p in let '(d, e, f) := q in (a - d, b - e, c - f).
Definition smul (k : R) (p : Point) : Point :=
  let '(a, b, c) := p in (k * a, k * b, k * c).
Definition dot (p q : Point) : R :=
  let '(a, b, c) := p in let '(d, e, f) := q in a * d + b * e + c * f.
Definition zeros : Point := (0, 0, 0).
Definition RIGHT : Point := (1, 0, 0).

(** [np.linalg.norm] *)
Definition norm (p : Point) : R := sqrt (dot p p).

(** Modelled from the spec: [normalize] of [manim.utils.space_ops], "the unit
    direction vector of the segment"; the zero vector has no direction and is
    returned as zeros. *)
Definition normalize (v : Point) : Point :=
  if Rlt_dec 0 (norm v) then smul (/ norm v) v else zeros.

(** Modelled from the spec: [fdiv] of [manim.utils.simple_functions], numpy's
    true division.  A zero divisor gives a non-finite value (nan or an
    infinity) without raising; that outcome is [None]. *)
Definition fdiv (a b : R) : option R :=
  if Req_dec_T b 0 then None else Some (a / b).

(** Modelled from the spec: [interpolate] of [manim.utils.bezier], linear
    interpolation [(1 - alpha) * start + alpha * end], on points and on
    numbers. *)
Definition interpolate (start end_ : Point) (alpha : R) : Point :=
  vadd (smul (1 - alpha) start) (smul alpha end_).
Definition interpolate1 (start end_ alpha : R) : R :=
  (1 - alpha) * start + alpha * end_.

(** Modelled from the spec: the drawable segment primitive ([Line] of
    [manim.mobject.geometry], not among the sources), constructible from two
    end points, with [scale], [set_length], [get_length], [center] and
    [rotate]. *)
Record Segment : Type := mkSegment {
  get_start : Point;
  get_end : Point
}.

Definition get_center (s : Segment) : Point :=
  smul (/ 2) (vadd (get_start s) (get_end s)).

Definition get_length (s : Segment) : R :=
  norm (vsub (get_end s) (get_start s)).

(** [scale(factor)]: about the centre of the segment. *)
Definition scale (factor : R) (s : Segment) : Segment :=
  let c := get_center s in
  mkSegment (vadd c (smul factor (vsub (get_start s) c)))
            (vadd c (smul factor (vsub (get_end s) c))).

(** [set_length(length)] is [scale(length / get_length())]; on a segment of
    length zero the factor is not finite. *)
Definition set_length (len : R) (s : Segment) : option Segment :=
  match fdiv len (get_length s) with
  | Some f => Some (scale f s)
  | None => None
  end.

(** [center()]: move the centre to the origin. *)
Definition center (s : Segment) : Segment :=
  let c := get_center s in
  mkSegment (vsub (get_start s) c) (vsub (get_end s) c).

(** Rotation by [angle] about the axis [OUT] through [about]. *)
Definition rot_z (angle : R) (p : Point) : Point :=
  let '(a, b, c) := p in
  (a * cos angle - b * sin angle, a * sin angle + b * cos angle, c).
Definition rotate_about (angle : R) (about : Point) (s : Segment) : Segment :=
  mkSegment (vadd about (rot_z angle (vsub (get_start s) about)))
            (vadd about (rot_z angle (vsub (get_end s) about))).
Definition rotate (angle : R) (s : Segment) : Segment :=
  rotate_about angle (get_center s) s.

(** The segment as [__init__] leaves it: [Line(x_min * RIGHT, x_max * RIGHT)],
    then [set_length(length)] if a length is configured and [scale(unit_size)]
    otherwise, then [center()], then [rotate(rotation)]. *)
Definition segment (self : NumberLine) : option Segment :=
  let line := mkSegment (smul (Q2R (x_min self)) RIGHT)
                        (smul (Q2R (x_max self)) RIGHT) in
  let scaled :=
    match length self with
    | Some l => if truthy (length self) then set_length (Q2R l) line
                else Some (scale (Q2R (unit_size self)) line)
    | None => Some (scale (Q2R (unit_size self)) line)
    end in
  match scaled with
  | Some s => Some (rotate (Q2R (rotation self)) (center s))
  | None => None
  end.

(** [number_to_point], on the segment [s] of the line. *)
Definition number_to_point (self : NumberLine) (s : Segment) (number : Q)
  : result Point :=
  match number_to_point_alpha self number with
  | Ok alpha => Ok (interpolate (get_start s) (get_end s) (Q2R alpha))
  | Raise e => Raise e
  end.

(** [point_to_number], on the segment [s] of the line. *)
Definition point_to_number (self : NumberLine) (s : Segment) (point : Point)
  : option R :=
  let start := get_start s in
  let end_ := get_end s in
  let unit_vect := normalize (vsub end_ start) in
  match fdiv (dot (vsub point start) unit_vect)
             (dot (vsub end_ start) unit_vect) with
  | Some proportion =>
      Some (interpolate1 (Q2R (x_min self)) (Q2R (x_max self)) proportion)
  | None => None
  end.

(** [get_unit_size] *)
Definition get_unit_size (self : NumberLine) (s : Segment) : R :=
  get_length s / (Q2R (x_max self) - Q2R (x_min self)).

(** [get_unit_vector]: [super().get_unit_vector() * self.unit_size].
    Modelled from the spec: the unit vector of the drawable segment ([Line],
    not among the sources) is the normalized vector from its start to its
    end. *)
Definition get_unit_vector (self : NumberLine) (s : Segment) : Point :=
  smul (Q2R (unit_size self)) (normalize (vsub (get_end s) (get_start s))).

(** A 3 x 3 matrix by its rows, and its product with a vector. *)
Definition Matrix : Type := (Point * Point * Point)%type.
Definition mat_vec (m : Matrix) (v : Point) : Point :=
  let '(r1, r2, r3) := m in (dot r1 v, dot r2 v, dot r3 v).

(** [rotate(angle, axis, about_point=about)] on the segment, for the matrix
    [m] of the rotation by [angle] about [axis]. *)
Definition rotate_with (m : Matrix) (about : Point) (s : Segment) : Segment :=
  mkSegment (vadd about (mat_vec m (vsub (get_start s) about)))
            (vadd about (mat_vec m (vsub (get_end s) about))).

Section Rotations.

(** Modelled from the spec: [rotation_matrix(angle, axis)] of
    [manim.utils.space_ops], not among the sources. *)
Variable rotation_matrix : R -> Point -> Matrix.

Definition rotate_about_number (self : NumberLine) (s : Segment) (number : Q)
    (angle : R) (axis : Point) : result Segment :=
  match number_to_point self s number with
  | Ok about => Ok (rotate_with (rotation_matrix angle axis) about s)
  | Raise e => Raise e
  end.

Definition rotate_about_zero (self : NumberLine) (s : Segment)
    (angle : R) (axis : Point) : result Segment :=
  rotate_about_number self s 0 angle axis.

End Rotations.

End Geometry.

(* ===================================================================== *)
(** ** Vocabulary of the statements                                        *)
(* ===================================================================== *)

(** Membership of a number in an array, by numerical equality. *)
Definition InQ (t : Q) (l : list Q) : Prop :=
  exists y, In y l /\ y == t.

(** Two arrays hold the same numbers in the same order. *)
Definition same_numbers (l1 l2 : list Q) : Prop := Forall2 Qeq l1 l2.

Fixpoint same_numbersb (l1 l2 : list Q) : bool :=
  match l1, l2 with
  | [], [] => true
  | a :: l1', b :: l2' => Qeq_bool a b && same_numbersb l1' l2'
  | _, _ => false
  end.

(** [k * step] and the [k]-th term [start + k * step] of a progression. *)
Definition multiple (k : nat) (step : Q) : Q := inject_Z (Z.of_nat k) * step.
Definition term (start step : Q) (k : nat) : Q := start + multiple k step.

(** The first [n] terms of the progression from [start]. *)
Definition progression (start step : Q) (n : nat) : list Q :=
  map (term start step) (seq 0 n).

(** The line of [x_range = [a, b, s]] with the other arguments at their
    defaults, except the two flags read by [get_tick_range]. *)
Definition line_of_range (a b s : Q) (tip exclude_origin : bool) : NumberLine :=
  mkNumberLine a b s None 1 true (1 # 10) [] 2 exclude_origin 0 tip false DOWN
               MED_SMALL_BUFF [] None (3 # 4) [] None None.

(** The same arguments with another [x_range]. *)
Definition with_x_range (r : option (list Q)) (a : Args) : Args :=
  mkArgs r (arg_length a) (arg_unit_size a) (arg_include_ticks a)
         (arg_tick_size a) (arg_numbers_with_elongated_ticks a)
         (arg_longer_tick_multiple a) (arg_rotation a) (arg_include_tip a)
         (arg_include_numbers a) (arg_label_direction a)
         (arg_line_to_number_buff a) (arg_numbers_to_exclude a)
         (arg_numbers_to_include a) (arg_number_scale_value a)
         (arg_exclude_origin_tick a).

(** The matrix of the rotation by [angle] about the axis [OUT]. *)
Definition rotation_matrix_z (angle : R) : Geometry.Matrix :=
  ((cos angle, (- sin angle)%R, 0%R),
   (sin angle, cos angle, 0%R),
   (0%R, 0%R, 1%R)).

(** The same line with another value of [exclude_origin_tick]. *)
Definition with_exclude_origin_tick (b : bool) (self : NumberLine) : NumberLine :=
  mkNumberLine (x_min self) (x_max self) (x_step self) (length self)
    (unit_size self) (include_ticks self) (tick_size self)
    (numbers_with_elongated_ticks self) (longer_tick_multiple self)
    b (rotation self) (include_tip self)
    (include_numbers self) (label_direction self) (line_to_number_buff self)
    (numbers_to_exclude self) (numbers_to_include self)
    (number_scale_value self) (submobjects self) (ticks self) (numbers self).

(** The default frame half-width, [config["frame_x_radius"]], and a renderer
    whose glyphs are all 0.2 wide, for the examples. *)
Definition default_frame_x_radius : Q := 64 # 9.
Definition example_glyph_width (m : DecimalNumber) : Q := 1 # 5.

(** The line of [x_range = [-5, 5, 1]] with the given [label_direction], the
    other arguments at their defaults. *)
Definition line_with_label_direction (d : Vec3) : NumberLine :=
  mkNumberLine (-5) 5 1 None 1 true (1 # 10) [] 2 false 0 false false d
               MED_SMALL_BUFF [] None (3 # 4) [] None None.

(** The line of [x_range = [-5, 5, 1]] with [length = 6] and
    [rotation = 1/6], and the line of [x_range = [0, 2, 1]] with
    [unit_size = 0]. *)
Definition rotated_line : NumberLine :=
  mkNumberLine (-5) 5 1 (Some 6) (6 # 10) true (1 # 10) [] 2 false (1 # 6)
               false false DOWN MED_SMALL_BUFF [] None (3 # 4) [] None None.
Definition collapsed_line : NumberLine :=
  mkNumberLine 0 2 1 None 0 true (1 # 10) [] 2 false 0 false false DOWN
               MED_SMALL_BUFF [] None (3 # 4) [] None None.

(** A label was shifted: a call of [shift] is in its history. *)
Definition is_shifted (m : DecimalNumber) : bool :=
  existsb (fun o => match o with OpShift _ => true | _ => false end) (ops m).

(** [get_tick_range], computed in doubles, returned the array [l]. *)
Definition float_returns (r : F64.outcome (list Q)) (l : list Q) : Prop :=
  match r with
  | F64.Returns l' => same_numbers l' l
  | _ => False
  end.

(** [x_range = [1, 1.3, 0.1]] with a tip, [x_range = [0, 1e-6, 5e-7]] and
    [x_range = [1e16, 1e16 + 8, 1]], the numbers being the doubles that the
    literals denote. *)
Definition tenths_line : NumberLine :=
  line_of_range (F64.literal 1) (F64.literal (13 # 10)) (F64.literal (1 # 10))
                true false.
Definition tiny_line : NumberLine :=
  line_of_range 0 (F64.literal (1 # 1000000)) (F64.literal (1 # 2000000))
                false false.
Definition huge_line : NumberLine :=
  line_of_range 10000000000000000 10000000000000008 1 false false.

(** A line of moderate numbers: a positive step, numbers of magnitude at most
    [2 ^ 100], and an interval at most [2 ^ 20] steps wide. *)
Definition moderate (self : NumberLine) : Prop :=
  0 < x_step self
  /\ x_step self <= inject_Z (2 ^ 100)
  /\ Qabs (x_min self) <= inject_Z (2 ^ 100)
  /\ Qabs (x_max self) <= inject_Z (2 ^ 100)
  /\ Qabs (x_min self) + Qabs (x_max self) + 1 <= inject_Z (2 ^ 20) * x_step self.

(* ===================================================================== *)
(** * Properties                                                           *)
(* ===================================================================== *)

(** ** Comparisons *)

Lemma ltb_lt (a b : Q) : Py.ltb a b = true <-> a < b.
Proof.
  unfold Py.ltb. rewrite Qlt_alt.
  destruct (Qcompare a b); split; congruence.
Qed.

Lemma contains_spec (x : Q) (xs : list Q) :
  Py.contains x xs = true <-> InQ x xs.
Proof.
  unfold Py.contains, InQ. rewrite existsb_exists.
  split; intros [y [Hy He]]; exists y; split; auto;
    now apply Qeq_bool_iff.
Qed.

Lemma same_numbersb_spec (l1 l2 : list Q) :
  same_numbersb l1 l2 = true <-> same_numbers l1 l2.
Proof.
  revert l2. induction l1 as [| a l1 IH]; intros [| b l2]; simpl.
  - split; [constructor | reflexivity].
  - split; [discriminate | intro H; inversion H].
  - split; [discriminate | intro H; inversion H].
  - rewrite andb_true_iff, Qeq_bool_iff, IH. split.
    + intros [H1 H2]. now constructor.
    + intro H. inversion H; subst. now split.
Qed.

Lemma InQ_cons (t x : Q) (l : list Q) : InQ t (x :: l) <-> x == t \/ InQ t l.
Proof.
  unfold InQ. split.
  - intros [y [[-> | Hy] He]]; [now left | right; now exists y].
  - intros [He | [y [Hy He]]].
    + exists x. split; [now left | exact He].
    + exists y. split; [now right | exact He].
Qed.

Lemma InQ_app (t : Q) (l1 l2 : list Q) :
  InQ t (l1 ++ l2) <-> InQ t l1 \/ InQ t l2.
Proof.
  unfold InQ. split.
  - intros [y [Hy He]]. apply in_app_or in Hy as [Hy | Hy];
      [left | right]; now exists y.
  - intros [[y [Hy He]] | [y [Hy He]]]; exists y; split; auto;
      apply in_or_app; auto.
Qed.

(** ** [np.arange] *)

Lemma arange_ok (start stop step : Q) :
  ~ step == 0 ->
  np.arange start stop step
  = Ok (progression start step (np.arange_len start stop step)).
Proof.
  intro Hs. unfold np.arange.
  destruct (Qeq_bool step 0) eqn:E.
  - apply Qeq_bool_iff in E. contradiction.
  - reflexivity.
Qed.

Lemma arange_zero_step (start stop step : Q) :
  step == 0 -> np.arange start stop step = Raise ValueError.
Proof.
  intro Hs. unfold np.arange.
  apply Qeq_bool_iff in Hs. now rewrite Hs.
Qed.

(** An integer is below [ceil q] exactly when it is below [q]. *)
Lemma lt_ceiling (k : Z) (q : Q) :
  (k < Qceiling q)%Z <-> inject_Z k < q.
Proof.
  split; intro H.
  - apply Qle_lt_trans with (inject_Z (Qceiling q - 1)).
    + rewrite <- Zle_Qle. lia.
    + apply Qceiling_lt.
  - rewrite Zlt_Qlt. apply Qlt_le_trans with q; [exact H | apply Qle_ceiling].
Qed.

Lemma lt_div_iff (a b c : Q) : 0 < c -> a < b / c <-> a * c < b.
Proof.
  intro Hc. split; intro H.
  - apply (Qmult_lt_r _ _ c Hc) in H.
    assert (E : b / c * c == b) by (field; lra).
    rewrite E in H. exact H.
  - now apply Qlt_shift_div_l.
Qed.


(** With a negative step and [start <= stop] the array is empty. *)
Lemma arange_len_neg_step (start stop step : Q) :
  step < 0 -> start <= stop -> np.arange_len start stop step = 0%nat.
Proof.
  intros Hs Hle. unfold np.arange_len.
  assert (Hq : (stop - start) / step <= 0).
  { assert (E : (stop - start) / step == - ((stop - start) / - step))
      by (field; lra).
    rewrite E.
    assert (0 <= (stop - start) / - step).
    { apply Qle_shift_div_l; lra. }
    lra. }
  apply Qceiling_resp_le in Hq. change (Qceiling 0) with 0%Z in Hq. lia.
Qed.


(** ** [np.unique] *)

Lemma InQ_insert (t x : Q) (l : list Q) :
  InQ t (np.insert x l) <-> x == t \/ InQ t l.
Proof.
  induction l as [| y l IH]; simpl.
  - apply InQ_cons.
  - destruct (Qcompare_spec x y) as [E | L | G].
    + rewrite InQ_cons. split; [tauto |].
      intros [H | H]; [left; lra | exact H].
    + rewrite !InQ_cons. tauto.
    + rewrite !InQ_cons, IH. tauto.
Qed.

Lemma InQ_unique (t : Q) (arr : list Q) :
  InQ t (np.unique arr) <-> InQ t arr.
Proof.
  unfold np.unique. induction arr as [| x arr IH]; simpl.
  - reflexivity.
  - now rewrite InQ_insert, InQ_cons, IH.
Qed.

Lemma Forall_lt_InQ (x : Q) (l : list Q) :
  Forall (Qlt x) l <-> forall t, InQ t l -> x < t.
Proof.
  rewrite Forall_forall. split.
  - intros H t [y [Hy He]]. rewrite <- He. now apply H.
  - intros H y Hy. apply H. exists y. split; [exact Hy | reflexivity].
Qed.

Lemma insert_sorted (x : Q) (l : list Q) :
  StronglySorted Qlt l -> StronglySorted Qlt (np.insert x l).
Proof.
  induction 1 as [| y l Hs IH Hy]; simpl.
  - repeat constructor.
  - destruct (Qcompare_spec x y) as [E | L | G].
    + now constructor.
    + constructor; [now constructor |].
      constructor; [exact L |].
      revert Hy. apply Forall_impl. intros a Ha. lra.
    + constructor; [exact IH |].
      apply Forall_lt_InQ. intros t Ht.
      apply InQ_insert in Ht as [Ht | Ht]; [lra |].
      rewrite Forall_lt_InQ in Hy. now apply Hy.
Qed.

(** [np.unique] returns a strictly ascending array. *)
Lemma unique_sorted (arr : list Q) : StronglySorted Qlt (np.unique arr).
Proof.
  unfold np.unique. induction arr as [| x arr IH]; simpl.
  - constructor.
  - now apply insert_sorted.
Qed.

Lemma InQ_scale (t c : Q) (arr : list Q) :
  InQ t (np.scale c arr) <-> exists v, InQ v arr /\ t == v * c.
Proof.
  unfold InQ, np.scale. split.
  - intros [y [Hy He]]. apply in_map_iff in Hy as [v [<- Hv]].
    exists v. split; [| now symmetry].
    exists v. split; [exact Hv | reflexivity].
  - intros [v [[y [Hy He]] Ht]]. exists (y * c). split.
    + apply in_map_iff. now exists y.
    + rewrite Ht, He. reflexivity.
Qed.

(** ** The two branches of [get_tick_range] *)

Lemma effective_x_max_ge (self : NumberLine) :
  x_max self <= effective_x_max self.
Proof.
  unfold effective_x_max, epsilon. destruct (include_tip self); lra.
Qed.

Lemma same_sign_true (self : NumberLine) :
  same_sign self = true
  <-> (x_min self < effective_x_max self /\ effective_x_max self < 0)
      \/ (x_min self < x_max self /\ 0 < x_min self).
Proof.
  unfold same_sign.
  rewrite orb_true_iff, !andb_true_iff, !ltb_lt. reflexivity.
Qed.


Lemma start_point_eq (self : NumberLine) :
  start_point self == if exclude_origin_tick self then x_step self else 0.
Proof.
  unfold start_point. destruct (exclude_origin_tick self); lra.
Qed.

Lemma get_tick_range_same_sign (self : NumberLine) :
  same_sign self = true ->
  get_tick_range self
  = np.arange (x_min self) (effective_x_max self) (x_step self).
Proof.
  intro H. unfold get_tick_range. now rewrite H.
Qed.

Lemma get_tick_range_straddling (self : NumberLine) :
  same_sign self = false -> ~ x_step self == 0 ->
  get_tick_range self
  = Ok (np.unique
          (np.concatenate
             (np.scale (-(1))
                (progression (start_point self) (x_step self)
                   (np.arange_len (start_point self)
                      (np.abs (x_min self) + epsilon) (x_step self))))
             (progression (start_point self) (x_step self)
                (np.arange_len (start_point self) (effective_x_max self)
                   (x_step self))))).
Proof.
  intros H Hs. unfold get_tick_range. rewrite H.
  rewrite !arange_ok by exact Hs. reflexivity.
Qed.


Lemma get_tick_range_zero_step (self : NumberLine) :
  x_step self == 0 -> get_tick_range self = Raise ValueError.
Proof.
  intro Hs. unfold get_tick_range.
  destruct (same_sign self); rewrite arange_zero_step by exact Hs; reflexivity.
Qed.


(** ** Tick ranges *)

(** C9.  When the guard of the same-sign branch holds ([x_max > x_min > 0], or
    [x_min < x_max' < 0] for the effective upper bound [x_max']), the tick
    range does not depend on [exclude_origin_tick]. *)
Theorem exclude_origin_irrelevant (self : NumberLine) (b1 b2 : bool) :
  (x_min self < x_max self /\ 0 < x_min self)
  \/ (x_min self < effective_x_max self /\ effective_x_max self < 0) ->
  get_tick_range (with_exclude_origin_tick b1 self)
  = get_tick_range (with_exclude_origin_tick b2 self).
Proof.
  intro Hg.
  assert (G : forall b, same_sign (with_exclude_origin_tick b self) = true).
  { intro b. apply same_sign_true. unfold effective_x_max in *. simpl. tauto. }
  rewrite !get_tick_range_same_sign by apply G. reflexivity.
Qed.

Lemma exclude_origin_irrelevant_witness :
  get_tick_range (with_exclude_origin_tick true
                    (line_of_range 2 10 2 false false))
  = get_tick_range (with_exclude_origin_tick false
                      (line_of_range 2 10 2 false false)).
Proof.
  apply (exclude_origin_irrelevant (line_of_range 2 10 2 false false)).
  left. vm_compute. split; reflexivity.
Defined.

(** ** The tick range in doubles *)

Section FloatProperties.

Import F64.

(** *** Powers of two *)

Lemma two_pow_pos (z : Z) : 0 < two_pow z.
Proof. apply Qpower_0_lt. reflexivity. Qed.

Lemma two_pow_add (a b : Z) : two_pow (a + b) == two_pow a * two_pow b.
Proof. apply Qpower_plus. discriminate. Qed.

Lemma two_pow_sub (a b : Z) : two_pow (a - b) == two_pow a / two_pow b.
Proof. apply Qpower_minus. discriminate. Qed.

Lemma two_pow_le (a b : Z) : (a <= b)%Z -> two_pow a <= two_pow b.
Proof. intros H. apply Qpower_le_compat_l; [exact H | discriminate]. Qed.

Lemma two_pow_lt (a b : Z) : (a < b)%Z -> two_pow a < two_pow b.
Proof. intros H. apply Qpower_lt_compat_l; [exact H | reflexivity]. Qed.

Lemma two_pow_lt_inv (a b : Z) : two_pow a < two_pow b -> (a < b)%Z.
Proof. intros H. apply (Qpower_lt_compat_l_inv 2); [exact H | reflexivity]. Qed.

Lemma two_pow_Z (n : Z) : (0 <= n)%Z -> two_pow n == inject_Z (2 ^ n).
Proof. intros H. unfold two_pow. rewrite Zpower_Qpower by exact H. reflexivity. Qed.

Lemma two_pow_succ (a : Z) : two_pow (a + 1) == 2 * two_pow a.
Proof. rewrite two_pow_add. unfold two_pow at 2. simpl. ring. Qed.

(** *** [ilog2] *)

Lemma Qmake_div (n : Z) (d : positive) : n # d == inject_Z n / inject_Z (Z.pos d).
Proof. apply Qmake_Qdiv. Qed.

Lemma ilog2_bounds (a : Q) :
  0 < a ->
  two_pow (Z.log2 (Qnum a) - Z.log2 (Z.pos (Qden a)) - 1) < a
  /\ a < two_pow (Z.log2 (Qnum a) - Z.log2 (Z.pos (Qden a)) + 1).
Proof.
  destruct a as [n d]. intros Ha. cbn [Qnum Qden].
  assert (Hn : (0 < n)%Z).
  { unfold Qlt in Ha. cbn in Ha. lia. }
  destruct (Z.log2_spec n Hn) as [Hn1 Hn2].
  destruct (Z.log2_spec (Z.pos d) (Pos2Z.is_pos d)) as [Hd1 Hd2].
  pose proof (Z.log2_nonneg n) as Ln.
  pose proof (Z.log2_nonneg (Z.pos d)) as Ld.
  set (ln := Z.log2 n) in *. set (ld := Z.log2 (Z.pos d)) in *.
  assert (Qn1 : two_pow ln <= inject_Z n).
  { rewrite two_pow_Z by exact Ln. rewrite <- Zle_Qle. exact Hn1. }
  assert (Qn2 : inject_Z n < two_pow (ln + 1)).
  { rewrite two_pow_Z by lia. rewrite <- Zlt_Qlt. replace (ln + 1)%Z with (Z.succ ln) by lia. exact Hn2. }
  assert (Qd1 : two_pow ld <= inject_Z (Z.pos d)).
  { rewrite two_pow_Z by exact Ld. rewrite <- Zle_Qle. exact Hd1. }
  assert (Qd2 : inject_Z (Z.pos d) < two_pow (ld + 1)).
  { rewrite two_pow_Z by lia. rewrite <- Zlt_Qlt. replace (ld + 1)%Z with (Z.succ ld) by lia. exact Hd2. }
  assert (Dpos : 0 < inject_Z (Z.pos d)) by (rewrite <- (Zlt_Qlt 0); lia).
  rewrite Qmake_div.
  pose proof (two_pow_pos ln) as P1. pose proof (two_pow_pos ld) as P2.
  pose proof (two_pow_pos (ln + 1)) as P3. pose proof (two_pow_pos (ld + 1)) as P4.
  split.
  - apply Qlt_shift_div_l; [exact Dpos|].
    replace (ln - ld - 1)%Z with (ln - (ld + 1))%Z by lia.
    rewrite two_pow_sub.
    apply Qlt_le_trans with (two_pow ln / two_pow (ld + 1) * two_pow (ld + 1)).
    + apply Qmult_lt_l; [|exact Qd2].
      apply Qlt_shift_div_l; [exact P4|]. rewrite Qmult_0_l. exact P1.
    + setoid_replace (two_pow ln / two_pow (ld + 1) * two_pow (ld + 1)) with (two_pow ln)
        by (field; intro E; rewrite E in P4; discriminate).
      exact Qn1.
  - apply Qlt_shift_div_r; [exact Dpos|].
    replace (ln - ld + 1)%Z with ((ln + 1) - ld)%Z by lia.
    rewrite two_pow_sub.
    apply Qlt_le_trans with (two_pow (ln + 1) / two_pow ld * two_pow ld).
    + setoid_replace (two_pow (ln + 1) / two_pow ld * two_pow ld) with (two_pow (ln + 1))
        by (field; intro E; rewrite E in P2; discriminate).
      exact Qn2.
    + apply Qmult_le_l; [|exact Qd1].
      apply Qlt_shift_div_l; [exact P2|]. rewrite Qmult_0_l. exact P3.
Qed.

Lemma ilog2_spec (a : Q) :
  0 < a -> two_pow (ilog2 a) <= a /\ a < two_pow (ilog2 a + 1).
Proof.
  intros Ha. destruct (ilog2_bounds a Ha) as [L U].
  unfold ilog2.
  set (k := (Z.log2 (Qnum a) - Z.log2 (Z.pos (Qden a)))%Z) in *.
  destruct (Qle_bool (two_pow k) a) eqn:E.
  - split; [apply Qle_bool_iff; exact E | exact U].
  - split.
    + apply Qlt_le_weak. exact L.
    + replace (k - 1 + 1)%Z with k by lia.
      apply Qnot_le_lt. intro H. apply Qle_bool_iff in H. congruence.
Qed.

Lemma ilog2_unique (a : Q) (k : Z) :
  two_pow k <= a -> a < two_pow (k + 1) -> ilog2 a = k.
Proof.
  intros L U.
  assert (Ha : 0 < a) by (eapply Qlt_le_trans; [apply two_pow_pos | exact L]).
  destruct (ilog2_spec a Ha) as [L' U'].
  assert (H1 : (k < ilog2 a + 1)%Z).
  { apply two_pow_lt_inv. eapply Qle_lt_trans; eassumption. }
  assert (H2 : (ilog2 a < k + 1)%Z).
  { apply two_pow_lt_inv. eapply Qle_lt_trans; eassumption. }
  lia.
Qed.

Lemma ilog2_le (a b : Q) : 0 < a -> a <= b -> (ilog2 a <= ilog2 b)%Z.
Proof.
  intros Ha Hab.
  assert (Hb : 0 < b) by (eapply Qlt_le_trans; eassumption).
  destruct (ilog2_spec a Ha) as [L _]. destruct (ilog2_spec b Hb) as [_ U].
  assert (H : (ilog2 a < ilog2 b + 1)%Z).
  { apply two_pow_lt_inv. eapply Qle_lt_trans; [exact L|]. eapply Qle_lt_trans; eassumption. }
  lia.
Qed.

Lemma ilog2_comp (a b : Q) : 0 < a -> a == b -> ilog2 a = ilog2 b.
Proof.
  intros Ha E. destruct (ilog2_spec a Ha) as [L U].
  symmetry. apply ilog2_unique; rewrite <- E; assumption.
Qed.

Lemma grid_comp (a b : Q) : 0 < a -> a == b -> grid a = grid b.
Proof. intros Ha E. unfold grid. rewrite (ilog2_comp a b Ha E). reflexivity. Qed.

Lemma grid_le (a b : Q) : 0 < a -> a <= b -> (grid a <= grid b)%Z.
Proof. intros Ha H. unfold grid. pose proof (ilog2_le a b Ha H). lia. Qed.

(** *** Rounding to an integer *)

Lemma round_comp (x y : Q) : x == y -> Py.round x = Py.round y.
Proof.
  intros E. unfold Py.round. cbv zeta.
  rewrite (Qfloor_comp x y E).
  assert (C : Qcompare (x - inject_Z (Qfloor y)) (1 # 2)
              = Qcompare (y - inject_Z (Qfloor y)) (1 # 2)).
  { apply Qcompare_comp; [rewrite E; reflexivity | reflexivity]. }
  rewrite C. reflexivity.
Qed.

Lemma round_Z (z : Z) : Py.round (inject_Z z) = z.
Proof.
  unfold Py.round. cbv zeta. rewrite Qfloor_Z.
  assert (C : Qcompare (inject_Z z - inject_Z z) (1 # 2) = Lt).
  { apply (proj1 (Qlt_alt _ _)).
    setoid_replace (inject_Z z - inject_Z z) with 0 by ring. reflexivity. }
  rewrite C. reflexivity.
Qed.

Lemma round_floor (x : Q) : (Qfloor x <= Py.round x <= Qfloor x + 1)%Z.
Proof.
  unfold Py.round. cbv zeta.
  destruct (Qcompare (x - inject_Z (Qfloor x)) (1 # 2)); [destruct (Z.even (Qfloor x))| |]; lia.
Qed.

Lemma round_ge_Z (x : Q) (n : Z) : inject_Z n <= x -> (n <= Py.round x)%Z.
Proof.
  intros H. pose proof (round_floor x) as [L _].
  pose proof (Qfloor_resp_le _ _ H) as F. rewrite Qfloor_Z in F. lia.
Qed.

Lemma round_le_Z (x : Q) (n : Z) : x <= inject_Z n -> (Py.round x <= n)%Z.
Proof.
  intros H. pose proof (round_floor x) as [_ U].
  pose proof (Qfloor_resp_le _ _ H) as F. rewrite Qfloor_Z in F.
  destruct (Z.eq_dec (Qfloor x) n) as [E | NE]; [|lia].
  assert (X : x == inject_Z n).
  { apply Qle_antisym; [exact H|]. rewrite <- E. apply Qfloor_le. }
  rewrite (round_comp _ _ X), round_Z. lia.
Qed.

(** *** Rounding to a double *)

Lemma round_pos_comp (a b : Q) : 0 < a -> a == b -> round_pos a = round_pos b.
Proof.
  intros Ha E. unfold round_pos. rewrite (grid_comp a b Ha E).
  rewrite (round_comp (a / two_pow (grid b)) (b / two_pow (grid b))); [reflexivity|].
  rewrite E. reflexivity.
Qed.

Lemma fl_comp (q q' : Q) : q == q' -> fl q = fl q'.
Proof.
  intros E. unfold fl.
  assert (C : Qcompare q 0 = Qcompare q' 0) by (apply Qcompare_comp; [exact E | reflexivity]).
  rewrite <- C.
  destruct (Qcompare_spec q 0) as [Z | L | G].
  - reflexivity.
  - rewrite (round_pos_comp (- q) (- q')); [reflexivity | lra | rewrite E; reflexivity].
  - rewrite (round_pos_comp q q'); [reflexivity | exact G | exact E].
Qed.

Lemma two_pow_nonzero (z : Z) : ~ two_pow z == 0.
Proof. intro E. pose proof (two_pow_pos z) as P. rewrite E in P. discriminate. Qed.

Lemma round_pos_nonneg (a : Q) : 0 < a -> 0 <= round_pos a.
Proof.
  intros Ha. unfold round_pos.
  apply Qmult_le_0_compat; [|apply Qlt_le_weak, two_pow_pos].
  rewrite <- (Zle_Qle 0). apply round_ge_Z.
  apply Qle_shift_div_l; [apply two_pow_pos|].
  change (inject_Z 0) with 0. rewrite Qmult_0_l. apply Qlt_le_weak. exact Ha.
Qed.

(** A multiple of a power of two at or above the grid rounds to itself. *)
Lemma scaled_exact (a : Q) (M h : Z) :
  0 < a -> a == inject_Z M * two_pow h -> (grid a <= h)%Z -> round_pos a == a.
Proof.
  intros Ha E G. unfold round_pos. remember (grid a) as g eqn:Hg. clear Hg.
  assert (X : a / two_pow g == inject_Z (M * 2 ^ (h - g))).
  { rewrite inject_Z_mult, <- two_pow_Z by lia. rewrite two_pow_sub, E.
    field. apply two_pow_nonzero. }
  rewrite (round_comp _ _ X), round_Z.
  rewrite inject_Z_mult, <- two_pow_Z by lia. rewrite two_pow_sub, E.
  field. apply two_pow_nonzero.
Qed.

Lemma ilog2_scaled (M h : Z) :
  (0 < M)%Z -> ilog2 (inject_Z M * two_pow h) = (Z.log2 M + h)%Z.
Proof.
  intros HM. destruct (Z.log2_spec M HM) as [L U].
  pose proof (Z.log2_nonneg M) as N.
  pose proof (two_pow_pos h) as P.
  apply ilog2_unique.
  - rewrite two_pow_add. apply Qmult_le_compat_r; [|lra].
    rewrite two_pow_Z by exact N. rewrite <- Zle_Qle. exact L.
  - replace (Z.log2 M + h + 1)%Z with ((Z.log2 M + 1) + h)%Z by lia.
    rewrite two_pow_add. apply Qmult_lt_compat_r; [exact P|].
    rewrite two_pow_Z by lia. rewrite <- Zlt_Qlt.
    replace (Z.log2 M + 1)%Z with (Z.succ (Z.log2 M)) by lia. exact U.
Qed.

Lemma grid_scaled (M h : Z) :
  (0 < M < 2 ^ 53)%Z -> (-1074 <= h)%Z -> (grid (inject_Z M * two_pow h) <= h)%Z.
Proof.
  intros [HM HB] Hh. unfold grid. rewrite ilog2_scaled by exact HM.
  assert (Z.log2 M < 53)%Z by (apply Z.log2_lt_pow2; [exact HM | exact HB]).
  lia.
Qed.

Lemma double_comp (q q' : Q) : q == q' -> double q -> double q'.
Proof.
  intros E [r [F R]]. exists r. split; [rewrite <- (fl_comp q q' E); exact F | rewrite R; exact E].
Qed.

Lemma double_0 : double 0.
Proof. exists 0. split; reflexivity. Qed.

Lemma double_opp (q : Q) : double q -> double (- q).
Proof.
  intros [r [F R]]. unfold double, fl in *.
  destruct (Qcompare_spec q 0) as [Z | L | G].
  - assert (C : Qcompare (- q) 0 = Eq) by (apply (proj1 (Qeq_alt _ _)); lra).
    rewrite C. exists 0. split; [reflexivity | lra].
  - assert (C : Qcompare (- q) 0 = Gt) by (apply (proj1 (Qgt_alt _ _)); lra).
    rewrite C. cbv zeta in *.
    destruct (Qle_bool (two_pow 1024) (round_pos (- q))); [discriminate|].
    injection F as F. exists (round_pos (- q)). split; [reflexivity|]. subst r. lra.
  - assert (C : Qcompare (- q) 0 = Lt) by (apply (proj1 (Qlt_alt _ _)); lra).
    rewrite C. cbv zeta in *.
    rewrite (round_pos_comp (- - q) q) by lra.
    destruct (Qle_bool (two_pow 1024) (round_pos q)); [discriminate|].
    injection F as F. exists (- round_pos q). split; [reflexivity|]. subst r. lra.
Qed.

Lemma fl_pos (q : Q) :
  0 < q -> fl q = if Qle_bool (two_pow 1024) (round_pos q) then None else Some (round_pos q).
Proof.
  intros H. unfold fl.
  assert (C : Qcompare q 0 = Gt) by (apply (proj1 (Qgt_alt _ _)); exact H).
  rewrite C. reflexivity.
Qed.

Lemma fl_neg (q : Q) :
  q < 0 -> fl q = if Qle_bool (two_pow 1024) (round_pos (- q)) then None
                  else Some (- round_pos (- q)).
Proof.
  intros H. unfold fl.
  assert (C : Qcompare q 0 = Lt) by (apply (proj1 (Qlt_alt _ _)); exact H).
  rewrite C. reflexivity.
Qed.

Lemma fl_zero (q : Q) : q == 0 -> fl q = Some 0.
Proof. intros H. rewrite (fl_comp q 0 H). reflexivity. Qed.

Lemma representable_double (q : Q) (M h : Z) :
  q == inject_Z M * two_pow h -> (0 < M < 2 ^ 53)%Z -> (-1074 <= h)%Z ->
  q < two_pow 1024 -> double q.
Proof.
  intros E HM Hh B.
  assert (Hq : 0 < q).
  { rewrite E. apply Qmult_lt_0_compat; [rewrite <- (Zlt_Qlt 0); lia | apply two_pow_pos]. }
  assert (X : round_pos q == q).
  { apply (scaled_exact q M h Hq E). rewrite (grid_comp _ _ Hq E). apply grid_scaled; assumption. }
  exists (round_pos q). split; [|exact X].
  rewrite (fl_pos q Hq).
  destruct (Qle_bool (two_pow 1024) (round_pos q)) eqn:O; [|reflexivity].
  apply Qle_bool_iff in O. rewrite X in O. lra.
Qed.

(** The mantissa of a rounded value has at most 53 bits. *)
Lemma mantissa_bound (a : Q) :
  0 < a -> (0 <= Py.round (a / two_pow (grid a)) <= 2 ^ 53)%Z.
Proof.
  intros Ha. pose proof (two_pow_pos (grid a)) as P.
  destruct (ilog2_spec a Ha) as [_ U].
  split.
  - apply round_ge_Z. apply Qle_shift_div_l; [exact P|].
    change (inject_Z 0) with 0. rewrite Qmult_0_l. apply Qlt_le_weak. exact Ha.
  - apply round_le_Z. apply Qle_shift_div_r; [exact P|].
    rewrite <- two_pow_Z by lia. rewrite <- two_pow_add.
    apply Qlt_le_weak. eapply Qlt_le_trans; [exact U|].
    apply two_pow_le. unfold grid. lia.
Qed.

Lemma grid_min (a : Q) : (-1074 <= grid a)%Z.
Proof. unfold grid. lia. Qed.

(** Rounding is idempotent: what [fl] returns is a double. *)
Lemma round_pos_double (a : Q) :
  0 < a -> round_pos a < two_pow 1024 -> double (round_pos a).
Proof.
  intros Ha B. pose proof (mantissa_bound a Ha) as [M0 M1].
  pose proof (grid_min a) as G.
  unfold round_pos in *. set (M := Py.round (a / two_pow (grid a))) in *.
  set (g := grid a) in *.
  destruct (Z.eq_dec M 0) as [Z | NZ].
  - apply (double_comp 0); [rewrite Z; ring | apply double_0].
  - destruct (Z.eq_dec M (2 ^ 53)) as [T | NT].
    + apply (representable_double _ (2 ^ 52) (g + 1)); [|lia|lia|exact B].
      rewrite T, two_pow_succ. change (inject_Z (2 ^ 53)) with (2 * inject_Z (2 ^ 52)). ring.
    + apply (representable_double _ M g); [reflexivity|lia|lia|exact B].
Qed.

Lemma fl_double (q r : Q) : fl q = Some r -> double r.
Proof.
  intros F. destruct (Qcompare_spec q 0) as [Z | L | G].
  - rewrite (fl_zero q Z) in F. injection F as <-. apply double_0.
  - rewrite (fl_neg q L) in F.
    destruct (Qle_bool (two_pow 1024) (round_pos (- q))) eqn:O; [discriminate|].
    injection F as <-. apply double_opp, round_pos_double; [lra|].
    apply Qnot_le_lt. intro H. apply Qle_bool_iff in H. congruence.
  - rewrite (fl_pos q G) in F.
    destruct (Qle_bool (two_pow 1024) (round_pos q)) eqn:O; [discriminate|].
    injection F as <-. apply round_pos_double; [exact G|].
    apply Qnot_le_lt. intro H. apply Qle_bool_iff in H. congruence.
Qed.

(** Integers up to [2 ^ 53] in magnitude are doubles. *)
Lemma double_Z (z : Z) : (Z.abs z <= 2 ^ 53)%Z -> double (inject_Z z).
Proof.
  assert (P : forall n, (0 < n <= 2 ^ 53)%Z -> double (inject_Z n)).
  { intros n [L U]. destruct (Z.eq_dec n (2 ^ 53)) as [T | NT].
    - apply (representable_double _ (2 ^ 52) 1); [rewrite T; reflexivity|lia|lia|].
      rewrite T. reflexivity.
    - apply (representable_double _ n 0); [unfold two_pow; simpl; ring|lia|lia|].
      apply Qlt_trans with (inject_Z (2 ^ 53 + 1)); [rewrite <- Zlt_Qlt; lia | reflexivity]. }
  intros H. destruct (Z.lt_trichotomy z 0) as [N | [Z | Pz]].
  - apply (double_comp (- inject_Z (- z))); [rewrite inject_Z_opp; ring|].
    apply double_opp, P. lia.
  - subst z. apply double_0.
  - apply P. lia.
Qed.

Lemma double_pos_grid (z : Q) :
  0 < z -> double z -> z == inject_Z (Py.round (z / two_pow (grid z))) * two_pow (grid z).
Proof.
  intros Hz [r [F R]]. rewrite (fl_pos z Hz) in F.
  destruct (Qle_bool (two_pow 1024) (round_pos z)); [discriminate|].
  injection F as F. subst r. unfold round_pos in R. symmetry. exact R.
Qed.

(** Rounding never crosses a double. *)
Lemma round_pos_le (a z : Q) : 0 < a -> a <= z -> double z -> round_pos a <= z.
Proof.
  intros Ha Haz Dz.
  assert (Hz : 0 < z) by lra.
  pose proof (double_pos_grid z Hz Dz) as E.
  pose proof (grid_le a z Ha Haz) as G.
  unfold round_pos.
  remember (Py.round (z / two_pow (grid z))) as Mz eqn:HM. clear HM.
  remember (grid z) as gz eqn:Hgz. clear Hgz.
  remember (grid a) as ga eqn:Hga. clear Hga.
  pose proof (two_pow_pos ga) as P.
  assert (X : z == inject_Z (Mz * 2 ^ (gz - ga)) * two_pow ga).
  { rewrite inject_Z_mult, <- two_pow_Z by lia. rewrite two_pow_sub. rewrite E.
    field. apply two_pow_nonzero. }
  rewrite X.
  apply Qmult_le_compat_r; [|lra].
  rewrite <- Zle_Qle. apply round_le_Z.
  apply Qle_shift_div_r; [exact P|]. rewrite <- X. exact Haz.
Qed.

Lemma round_pos_ge (a z : Q) : 0 < z -> z <= a -> double z -> z <= round_pos a.
Proof.
  intros Hz Hza Dz.
  assert (Ha : 0 < a) by lra.
  pose proof (double_pos_grid z Hz Dz) as E.
  pose proof (grid_le z a Hz Hza) as G.
  pose proof (two_pow_pos (grid a)) as P.
  destruct (Z.eq_dec (grid z) (grid a)) as [EQ | NE].
  - unfold round_pos. rewrite E at 1. rewrite EQ.
    apply Qmult_le_compat_r; [|lra].
    rewrite <- Zle_Qle. apply round_ge_Z.
    apply Qle_shift_div_l; [exact P|]. rewrite <- EQ, <- E. exact Hza.
  - assert (GA : grid a = (ilog2 a - 52)%Z).
    { pose proof (grid_min z). unfold grid in *. lia. }
    assert (LT : (ilog2 z < ilog2 a)%Z) by (unfold grid in *; lia).
    destruct (ilog2_spec z Hz) as [_ Uz].
    apply Qle_trans with (two_pow (ilog2 a)).
    + apply Qlt_le_weak. eapply Qlt_le_trans; [exact Uz|]. apply two_pow_le. lia.
    + destruct (ilog2_spec a Ha) as [La _].
      unfold round_pos.
      setoid_replace (two_pow (ilog2 a)) with (inject_Z (2 ^ 52) * two_pow (grid a)).
      * apply Qmult_le_compat_r; [|lra].
        rewrite <- Zle_Qle. apply round_ge_Z.
        apply Qle_shift_div_l; [exact P|].
        rewrite <- two_pow_Z by lia. rewrite <- two_pow_add.
        replace (52 + grid a)%Z with (ilog2 a) by lia. exact La.
      * rewrite <- two_pow_Z by lia. rewrite <- two_pow_add.
        replace (52 + grid a)%Z with (ilog2 a) by lia. reflexivity.
Qed.

Lemma fl_ge_double (q d r : Q) : double d -> d <= q -> fl q = Some r -> d <= r.
Proof.
  intros Dd H F. destruct (Qcompare_spec q 0) as [Z | L | G].
  - rewrite (fl_zero q Z) in F. injection F as <-. lra.
  - rewrite (fl_neg q L) in F.
    destruct (Qle_bool (two_pow 1024) (round_pos (- q))); [discriminate|].
    injection F as <-.
    pose proof (round_pos_le (- q) (- d)) as X.
    assert (round_pos (- q) <= - d) by (apply X; [lra | lra | apply double_opp; exact Dd]).
    lra.
  - rewrite (fl_pos q G) in F.
    destruct (Qle_bool (two_pow 1024) (round_pos q)); [discriminate|].
    injection F as <-.
    destruct (Qlt_le_dec 0 d) as [Pd | Nd].
    + apply round_pos_ge; assumption.
    + pose proof (round_pos_nonneg q G). lra.
Qed.

Lemma fl_le_double (q d r : Q) : double d -> q <= d -> fl q = Some r -> r <= d.
Proof.
  intros Dd H F. destruct (Qcompare_spec q 0) as [Z | L | G].
  - rewrite (fl_zero q Z) in F. injection F as <-. lra.
  - rewrite (fl_neg q L) in F.
    destruct (Qle_bool (two_pow 1024) (round_pos (- q))); [discriminate|].
    injection F as <-.
    destruct (Qlt_le_dec d 0) as [Nd | Pd].
    + pose proof (round_pos_ge (- q) (- d)) as X.
      assert (- d <= round_pos (- q)) by (apply X; [lra | lra | apply double_opp; exact Dd]).
      lra.
    + assert (0 <= round_pos (- q)) by (apply round_pos_nonneg; lra). lra.
  - rewrite (fl_pos q G) in F.
    destruct (Qle_bool (two_pow 1024) (round_pos q)); [discriminate|].
    injection F as <-.
    apply round_pos_le; [exact G | exact H | exact Dd].
Qed.

Lemma fl_nonneg (q r : Q) : 0 <= q -> fl q = Some r -> 0 <= r.
Proof. intros H F. exact (fl_ge_double q 0 r double_0 H F). Qed.

Lemma fl_nonpos (q r : Q) : q <= 0 -> fl q = Some r -> r <= 0.
Proof. intros H F. exact (fl_le_double q 0 r double_0 H F). Qed.

(** *** [np.arange] in doubles *)

Lemma sequence_Some {A : Type} (l : list (option A)) (r : list A) :
  sequence l = Some r -> l = map Some r.
Proof.
  revert r. induction l as [| o l IH]; intros r H; simpl in H.
  - injection H as <-. reflexivity.
  - destruct o as [a |]; [| discriminate]. simpl in H.
    destruct (sequence l) as [r' |]; [| discriminate]. simpl in H.
    injection H as <-. simpl. f_equal. apply IH. reflexivity.
Qed.

Lemma map_seq_nth {A : Type} (f : nat -> option A) (r : list A) (n s : nat) :
  map f (seq s n) = map Some r ->
  forall k m, nth_error r k = Some m <-> (k < n)%nat /\ f (s + k)%nat = Some m.
Proof.
  revert r s. induction n as [| n IH]; intros r s H k m; simpl in H.
  - destruct r; [| discriminate].
    destruct k; simpl; (split; [discriminate | intros [? _]; lia]).
  - destruct r as [| a r]; [discriminate |]. simpl in H. injection H as H0 H1.
    destruct k as [| k]; simpl.
    + rewrite Nat.add_0_r, H0. split.
      * intros [= <-]. split; [lia | reflexivity].
      * intros [_ [= <-]]. reflexivity.
    + rewrite (IH r (S s) H1 k m).
      replace (S s + k)%nat with (s + S k)%nat by lia.
      split; intros [? ?]; (split; [lia | assumption]).
Qed.

Lemma arange_len_inv (start stop step : Q) (len : Z) :
  arange_len start stop step = Returns len ->
  ~ step == 0
  /\ exists d v,
       fl (stop - start) = Some d /\ fl (d / step) = Some v
       /\ (len = Qceiling v \/ (v == 0 /\ (len = 0 \/ len = 1)%Z)).
Proof.
  unfold arange_len. destruct (Qeq_bool step 0) eqn:E; [discriminate |].
  destruct (fl (stop - start)) as [d |] eqn:Fd; [| discriminate].
  destruct (fl (d / step)) as [v |] eqn:Fv; [| discriminate]. cbv zeta.
  destruct ((Qceiling v <? - 2 ^ 63)%Z || (2 ^ 63 - 1 <? Qceiling v)%Z);
    [discriminate |].
  intros H. split.
  { intro Z. apply Qeq_bool_iff in Z. congruence. }
  exists d, v. split; [reflexivity |]. split; [exact Fv |].
  destruct (Qeq_bool v 0 && negb (Qeq_bool d 0)) eqn:U.
  - apply andb_true_iff in U as [U _]. apply Qeq_bool_iff in U.
    right. split; [exact U |].
    destruct (Py.ltb (d / step) 0); injection H as <-; [left | right]; reflexivity.
  - left. injection H as <-. reflexivity.
Qed.

(** The array returned by [np.arange]: its length, and its elements. *)
Lemma arange_inv (start stop step : Q) (l : list Q) :
  arange start stop step = Returns l ->
  exists len,
    arange_len start stop step = Returns len
    /\ forall k m, nth_error l k = Some m
         <-> (Z.of_nat k < len)%Z /\ arange_term start step k = Some m.
Proof.
  unfold arange. destruct (arange_len start stop step) as [len | e |];
    cbn [bind]; [| discriminate | discriminate].
  intros H. exists len. split; [reflexivity |].
  destruct (Z.leb_spec len 0) as [N | P].
  - injection H as <-. intros k m. split.
    + destruct k; discriminate.
    + intros [? _]. lia.
  - destruct (2 ^ 60 <=? len)%Z; [discriminate |].
    destruct (sequence (map (arange_term start step) (seq 0 (Z.to_nat len))))
      as [r |] eqn:S; [| discriminate].
    injection H as <-. apply sequence_Some in S.
    intros k m. rewrite (map_seq_nth _ _ _ _ S k m). simpl.
    split; intros [? ?]; (split; [lia | assumption]).
Qed.

Lemma InQ_nth (t : Q) (l : list Q) :
  InQ t l <-> exists k m, nth_error l k = Some m /\ m == t.
Proof.
  unfold InQ. split.
  - intros [y [Hy E]]. apply In_nth_error in Hy as [k Hk]. exists k, y. now split.
  - intros [k [m [Hk E]]]. exists m. split; [eapply nth_error_In; eassumption | exact E].
Qed.

Lemma fl_Z (q : Q) (z : Z) :
  q == inject_Z z -> (Z.abs z <= 2 ^ 53)%Z -> exists r, fl q = Some r /\ r == inject_Z z.
Proof.
  intros E B. destruct (double_Z z B) as [r [F R]].
  exists r. split; [rewrite (fl_comp q _ E); exact F | exact R].
Qed.

Lemma multiple_0 (x : Q) : multiple 0 x = Some 0.
Proof.
  unfold multiple. simpl. apply fl_zero. ring.
Qed.

Lemma multiple_small (k : nat) (x : Q) :
  (Z.of_nat k <= 2 ^ 53)%Z -> multiple k x = fl (inject_Z (Z.of_nat k) * x).
Proof.
  intros B. unfold multiple.
  destruct (double_Z (Z.of_nat k)) as [r [F R]]; [lia |].
  rewrite F. simpl. apply fl_comp. rewrite R. reflexivity.
Qed.

Lemma multiple_comp (k : nat) (x y : Q) : x == y -> multiple k x = multiple k y.
Proof.
  intros E. unfold multiple. destruct (fl (inject_Z (Z.of_nat k))) as [fi |]; [| reflexivity].
  simpl. apply fl_comp. rewrite E. reflexivity.
Qed.

Lemma float_multiple_nonneg (k : nat) (x m : Q) : 0 <= x -> multiple k x = Some m -> 0 <= m.
Proof.
  intros Hx. unfold multiple.
  destruct (fl (inject_Z (Z.of_nat k))) as [fi |] eqn:F; [| discriminate]. simpl.
  intros P. apply (fl_nonneg _ _) in P; [exact P |].
  apply Qmult_le_0_compat; [| exact Hx].
  apply (fl_nonneg _ _) in F; [exact F |]. rewrite <- (Zle_Qle 0). lia.
Qed.

(** The progression anchored at zero: element [k] is the rounded product
    [k * step]. *)
Lemma zero_anchored_term (step : Q) (k : nat) (t : Q) :
  double step ->
  (exists m, arange_term 0 step k = Some m /\ m == t)
  <-> (exists m, multiple k step = Some m /\ m == t).
Proof.
  intros [s [Fs Rs]].
  destruct k as [| [| k]].
  - simpl arange_term. rewrite multiple_0. reflexivity.
  - simpl arange_term. rewrite multiple_small by (simpl; lia).
    rewrite (fl_comp (0 + step) (inject_Z (Z.of_nat 1) * step)) by (simpl; ring).
    reflexivity.
  - cbn [arange_term].
    rewrite (fl_comp (0 + step) step) by ring. rewrite Fs. cbn [obind].
    rewrite (fl_comp (s - 0) step) by (rewrite Rs; ring). rewrite Fs. cbn [obind].
    rewrite (multiple_comp _ s step Rs).
    destruct (multiple (S (S k)) step) as [p |] eqn:P; cbn [obind].
    + assert (D : double p).
      { unfold multiple in P. destruct (fl (inject_Z (Z.of_nat (S (S k))))); [| discriminate].
        simpl in P. eapply fl_double; eassumption. }
      destruct D as [p' [Fp Rp]].
      rewrite (fl_comp (0 + p) p) by ring. rewrite Fp.
      split; intros [m [[= <-] E]]; eexists; (split; [reflexivity |]).
      * rewrite <- Rp. exact E.
      * rewrite Rp. exact E.
    + split; intros [m [? _]]; discriminate.
Qed.

(** With a non-negative step no element is below the first. *)
Lemma arange_term_ge (start step : Q) (k : nat) (m : Q) :
  double start -> 0 <= step -> arange_term start step k = Some m -> start <= m.
Proof.
  intros Ds Hs. destruct k as [| [| k]].
  - simpl. intros [= <-]. lra.
  - simpl. intros F. apply (fl_ge_double _ start _ Ds) in F; [exact F | lra].
  - cbn [arange_term].
    destruct (fl (start + step)) as [next |] eqn:N; [| discriminate]. cbn [obind].
    destruct (fl (next - start)) as [delta |] eqn:D; [| discriminate]. cbn [obind].
    destruct (multiple (S (S k)) delta) as [p |] eqn:P; [| discriminate]. cbn [obind].
    intros F.
    assert (Hn : start <= next) by (apply (fl_ge_double _ start _ Ds) in N; [exact N | lra]).
    assert (Hd : 0 <= delta) by (apply (fl_nonneg _ _) in D; [exact D | lra]).
    assert (Hp : 0 <= p) by (eapply float_multiple_nonneg; eassumption).
    apply (fl_ge_double _ start _ Ds) in F; [exact F | lra].
Qed.

(** Integer start and step: while the magnitudes stay within [2 ^ 53] no
    operation rounds, and element [k] is exactly [start + k * step]. *)
Lemma integer_term (start step : Q) (a s : Z) (k : nat) (m : Q) :
  start == inject_Z a -> step == inject_Z s -> s <> 0%Z ->
  (Z.abs a + Z.of_nat k * Z.abs s <= 2 ^ 53)%Z ->
  arange_term start step k = Some m ->
  m == start + inject_Z (Z.of_nat k) * step.
Proof.
  intros Ea Es Hs B. destruct k as [| [| k]].
  - simpl. intros [= <-]. ring.
  - simpl arange_term. intros F.
    destruct (fl_Z (start + step) (a + s)) as [r [F' R]];
      [rewrite Ea, Es, inject_Z_plus; reflexivity | lia |].
    rewrite F' in F. injection F as <-. rewrite R, Ea, Es, inject_Z_plus. simpl. ring.
  - cbn [arange_term].
    set (n := S (S k)) in *.
    assert (Hn : (2 <= Z.of_nat n)%Z) by (unfold n; lia).
    destruct (fl_Z (start + step) (a + s)) as [next [F1 R1]];
      [rewrite Ea, Es, inject_Z_plus; reflexivity | nia |].
    rewrite F1. cbn [obind].
    destruct (fl_Z (next - start) s) as [delta [F2 R2]];
      [rewrite R1, Ea, inject_Z_plus; ring | nia |].
    rewrite F2. cbn [obind].
    rewrite multiple_small by nia.
    destruct (fl_Z (inject_Z (Z.of_nat n) * delta) (Z.of_nat n * s)) as [p [F3 R3]];
      [rewrite R2, inject_Z_mult; reflexivity | nia |].
    rewrite F3. cbn [obind].
    destruct (fl_Z (start + p) (a + Z.of_nat n * s)) as [r [F4 R4]];
      [rewrite R3, Ea, inject_Z_plus; reflexivity | nia |].
    rewrite F4. intros [= <-].
    rewrite R4, Ea, Es, inject_Z_plus, inject_Z_mult. reflexivity.
Qed.

(** An index below the computed length: its product with the step is below
    the rounded width, as long as the width is at most [2 ^ 53] steps. *)
Lemma arange_index_bound (start stop step d : Q) (len : Z) (k : nat) :
  0 < step -> fl (stop - start) = Some d -> d <= inject_Z (2 ^ 53) * step ->
  arange_len start stop step = Returns len ->
  (0 < k)%nat -> (Z.of_nat k < len)%Z ->
  (Z.of_nat k <= 2 ^ 53)%Z /\ inject_Z (Z.of_nat k) * step < d.
Proof.
  intros Hs Fd Hspan L Hk0 Hk.
  destruct (arange_len_inv _ _ _ _ L) as [_ [d' [v [Fd' [Fv C]]]]].
  rewrite Fd in Fd'. injection Fd' as <-.
  destruct C as [C | [_ C]]; [| lia].
  subst len. apply lt_ceiling in Hk.
  assert (Hq : d / step <= inject_Z (2 ^ 53)).
  { apply Qle_shift_div_r; [exact Hs | exact Hspan]. }
  assert (Hv : v <= inject_Z (2 ^ 53)).
  { assert (D : double (inject_Z (2 ^ 53))) by (apply double_Z; lia).
    exact (fl_le_double _ _ _ D Hq Fv). }
  assert (Bn : (Z.of_nat k <= 2 ^ 53)%Z).
  { rewrite Zle_Qle. apply Qlt_le_weak. eapply Qlt_le_trans; eassumption. }
  split; [exact Bn |].
  assert (Hlt : inject_Z (Z.of_nat k) < d / step).
  { apply Qnot_le_lt. intro C.
    assert (D : double (inject_Z (Z.of_nat k))) by (apply double_Z; lia).
    pose proof (fl_le_double _ _ _ D C Fv). lra. }
  apply lt_div_iff in Hlt; [exact Hlt | exact Hs].
Qed.

(** The progression anchored at zero stays at or below its stop value, as
    long as the interval spans at most [2 ^ 53] steps. *)
Lemma zero_anchored_bound (stop step : Q) (len : Z) (k : nat) (m : Q) :
  double stop -> double step -> 0 < step -> 0 <= stop ->
  stop <= inject_Z (2 ^ 53) * step ->
  arange_len 0 stop step = Returns len -> (Z.of_nat k < len)%Z ->
  arange_term 0 step k = Some m -> m <= stop.
Proof.
  intros Dstop Dstep Hs H0 Hspan L Hk T.
  destruct k as [| k]; [simpl in T; injection T as <-; exact H0 |].
  set (n := S k) in *.
  destruct Dstop as [s' [Fs Rs]].
  assert (Fd : fl (stop - 0) = Some s') by (rewrite (fl_comp (stop - 0) stop) by ring; exact Fs).
  destruct (arange_index_bound 0 stop step s' len n Hs Fd) as [Bn Hprod];
    [rewrite Rs; exact Hspan | exact L | unfold n; lia | exact Hk |].
  destruct (proj1 (zero_anchored_term step n m Dstep)) as [p [P E]].
  { exists m. split; [exact T | reflexivity]. }
  rewrite multiple_small in P by exact Bn.
  rewrite <- E.
  assert (Dstop : double stop) by (exists s'; split; assumption).
  apply (fl_le_double (inject_Z (Z.of_nat n) * step) stop p Dstop); [| exact P].
  rewrite <- Rs. apply Qlt_le_weak. exact Hprod.
Qed.

(** With an integer step the elements of the progression anchored at zero
    are exact multiples of the step, as long as the stop value is at most
    [2 ^ 53]. *)
Lemma zero_anchored_exact (stop step : Q) (s len : Z) (k : nat) (m : Q) :
  step == inject_Z s -> (0 < s)%Z -> stop <= inject_Z (2 ^ 53) ->
  arange_len 0 stop step = Returns len -> (Z.of_nat k < len)%Z ->
  arange_term 0 step k = Some m -> m == inject_Z (Z.of_nat k * s).
Proof.
  intros Es Hs Hstop L Hk T.
  destruct k as [| k]; [simpl in T; injection T as <-; reflexivity |].
  set (n := S k) in *.
  assert (Hstep : 1 <= step) by (rewrite Es; rewrite <- (Zle_Qle 1); lia).
  destruct (arange_len_inv _ _ _ _ L) as [_ [d [_ [Fd _]]]].
  assert (Hd : d <= inject_Z (2 ^ 53)).
  { assert (D : double (inject_Z (2 ^ 53))) by (apply double_Z; lia).
    apply (fl_le_double _ _ _ D) in Fd; [exact Fd | lra]. }
  assert (P53 : 0 < inject_Z (2 ^ 53)) by reflexivity.
  destruct (arange_index_bound 0 stop step d len n) as [Bn Hprod];
    [lra | exact Fd | nra | exact L | unfold n; lia | exact Hk |].
  assert (Bp : (Z.of_nat n * s <= 2 ^ 53)%Z).
  { rewrite Zle_Qle, inject_Z_mult, <- Es. lra. }
  assert (Bs : (s <= 2 ^ 53)%Z) by nia.
  assert (Dstep : double step).
  { apply (double_comp (inject_Z s)); [symmetry; exact Es | apply double_Z; lia]. }
  destruct (proj1 (zero_anchored_term step n m Dstep)) as [p [P E]].
  { exists m. split; [exact T | reflexivity]. }
  rewrite multiple_small in P by exact Bn.
  destruct (fl_Z (inject_Z (Z.of_nat n) * step) (Z.of_nat n * s)) as [r [F R]];
    [rewrite Es, inject_Z_mult; reflexivity | lia |].
  rewrite F in P. injection P as <-. rewrite <- E. exact R.
Qed.

(** With a negative step and [start <= stop] the array is empty. *)
Lemma arange_negative_step (start stop step : Q) (l : list Q) :
  step < 0 -> start <= stop -> arange start stop step = Returns l -> l = [].
Proof.
  intros Hs Hle. unfold arange, arange_len.
  destruct (Qeq_bool step 0); [discriminate |].
  destruct (fl (stop - start)) as [d |] eqn:Fd; [| discriminate].
  destruct (fl (d / step)) as [v |] eqn:Fv; [| discriminate]. cbv zeta.
  destruct ((Qceiling v <? - 2 ^ 63)%Z || (2 ^ 63 - 1 <? Qceiling v)%Z);
    [discriminate |].
  assert (Hd : 0 <= d) by (apply (fl_nonneg _ _) in Fd; [exact Fd | lra]).
  assert (Hq : d / step <= 0).
  { setoid_replace (d / step) with (- (d / - step)) by (field; lra).
    assert (0 <= d / - step) by (apply Qle_shift_div_l; lra). lra. }
  assert (Hv : v <= 0) by (apply (fl_nonpos _ _) in Fv; [exact Fv | exact Hq]).
  assert (Hc : (Qceiling v <= 0)%Z).
  { apply Qceiling_resp_le in Hv. change (Qceiling 0) with 0%Z in Hv. exact Hv. }
  destruct (Qeq_bool v 0 && negb (Qeq_bool d 0)) eqn:U; cbn [bind].
  - apply andb_true_iff in U as [_ U]. apply negb_true_iff in U.
    assert (Nd : ~ d == 0) by (intro Z; apply Qeq_bool_iff in Z; congruence).
    assert (Lt : d / step < 0).
    { setoid_replace (d / step) with (- (d / - step)) by (field; lra).
      assert (0 < d / - step) by (apply Qlt_shift_div_l; lra). lra. }
    apply ltb_lt in Lt. rewrite Lt. simpl. intros [= <-]. reflexivity.
  - destruct (Z.leb_spec (Qceiling v) 0) as [_ | P]; [| lia].
    intros [= <-]. reflexivity.
Qed.

Lemma arange_zero_step_raises (start stop step : Q) :
  step == 0 -> arange start stop step = Raises ZeroDivisionError.
Proof.
  intros Z. unfold arange, arange_len. apply Qeq_bool_iff in Z. rewrite Z. reflexivity.
Qed.

(** *** The two paths of [get_tick_range] in doubles *)

Lemma epsilon_pos : 0 < F64.epsilon.
Proof. vm_compute. reflexivity. Qed.

Lemma effective_x_max_defined (self : NumberLine) (ts : list Q) :
  F64.get_tick_range self = Returns ts ->
  exists hi, F64.effective_x_max self = Some hi.
Proof.
  unfold F64.get_tick_range. destruct (F64.effective_x_max self) as [hi |].
  - intros _. exists hi. reflexivity.
  - discriminate.
Qed.

Lemma get_tick_range_same_sign_path (self : NumberLine) (ts : list Q) (hi : Q) :
  F64.effective_x_max self = Some hi -> F64.same_sign self hi = true ->
  F64.get_tick_range self = F64.arange (x_min self) hi (x_step self).
Proof.
  intros E G. unfold F64.get_tick_range. rewrite E. simpl. rewrite G. reflexivity.
Qed.

Lemma get_tick_range_zero_anchored_path (self : NumberLine) (ts : list Q) (hi : Q) :
  F64.effective_x_max self = Some hi -> F64.same_sign self hi = false ->
  F64.get_tick_range self = Returns ts ->
  exists sp lo neg pos,
    F64.start_point self = Some sp
    /\ fl (np.abs (x_min self) + F64.epsilon) = Some lo
    /\ F64.arange sp lo (x_step self) = Returns neg
    /\ F64.arange sp hi (x_step self) = Returns pos
    /\ ts = np.unique (np.concatenate (np.scale (-(1)) neg) pos).
Proof.
  intros E G. unfold F64.get_tick_range. rewrite E. simpl. rewrite G.
  destruct (F64.start_point self) as [sp |]; [| discriminate]. simpl.
  destruct (fl (np.abs (x_min self) + F64.epsilon)) as [lo |]; [| discriminate]. simpl.
  destruct (F64.arange sp lo (x_step self)) as [neg | |] eqn:A1;
    [| discriminate | discriminate]. simpl.
  destruct (F64.arange sp hi (x_step self)) as [pos | |] eqn:A2;
    [| discriminate | discriminate]. simpl.
  intros [= <-]. exists sp, lo, neg, pos. repeat split; assumption.
Qed.

Lemma effective_x_max_nonneg (self : NumberLine) (hi : Q) :
  0 <= x_max self -> F64.effective_x_max self = Some hi -> 0 <= hi.
Proof.
  intros H. unfold F64.effective_x_max. destruct (include_tip self).
  - intros [= <-]. exact H.
  - intros F. apply (fl_nonneg _ _) in F; [exact F |].
    pose proof epsilon_pos. lra.
Qed.

Lemma spanning_zero_anchored (self : NumberLine) (hi : Q) :
  x_min self <= 0 -> 0 <= x_max self -> F64.effective_x_max self = Some hi ->
  F64.same_sign self hi = false.
Proof.
  intros Hmin Hmax E. pose proof (effective_x_max_nonneg self hi Hmax E) as Hhi.
  unfold F64.same_sign.
  destruct (Py.ltb hi 0) eqn:A; [apply ltb_lt in A; lra |].
  destruct (Py.ltb 0 (x_min self)) eqn:B; [apply ltb_lt in B; lra |].
  rewrite !andb_false_r. reflexivity.
Qed.

(** The members of the array returned on the zero-anchored path. *)
Lemma zero_anchored_members (neg pos : list Q) (t : Q) :
  InQ t (np.unique (np.concatenate (np.scale (-(1)) neg) pos))
  <-> (exists v, InQ v neg /\ t == - v) \/ InQ t pos.
Proof.
  rewrite InQ_unique. unfold np.concatenate. rewrite InQ_app, InQ_scale.
  split; (intros [[v [Hv E]] | H]; [left; exists v; split; [exact Hv | lra] | right; exact H]).
Qed.

Lemma float_returns_check (o : outcome (list Q)) (l : list Q) :
  match o with
  | Returns l' => same_numbersb l' l
  | _ => false
  end = true ->
  float_returns o l.
Proof.
  destruct o as [l' | e |]; simpl; [| discriminate | discriminate].
  apply same_numbersb_spec.
Qed.

(** *** When a tick range is returned *)

Lemma round_le_twice (x : Q) : 0 <= x -> inject_Z (Py.round x) <= 2 * x.
Proof.
  intros Hx. unfold Py.round. cbv zeta.
  pose proof (Qfloor_le x) as L.
  assert (F0 : 0 <= inject_Z (Qfloor x)).
  { rewrite <- (Zle_Qle 0). rewrite <- (Qfloor_Z 0). apply Qfloor_resp_le. exact Hx. }
  destruct (Qcompare_spec (x - inject_Z (Qfloor x)) (1 # 2)) as [E | Lt | Gt].
  - destruct (Z.even (Qfloor x));
      [lra | rewrite inject_Z_plus; change (inject_Z 1) with 1; lra].
  - lra.
  - rewrite inject_Z_plus. change (inject_Z 1) with 1. lra.
Qed.

Lemma round_pos_le_twice (a : Q) : 0 < a -> round_pos a <= 2 * a.
Proof.
  intros Ha. unfold round_pos. pose proof (two_pow_pos (grid a)) as P.
  remember (grid a) as g eqn:Hg. clear Hg.
  assert (X : 0 <= a / two_pow g) by (apply Qle_shift_div_l; lra).
  pose proof (round_le_twice _ X) as R.
  apply (Qmult_le_compat_r _ _ (two_pow g)) in R; [| lra].
  setoid_replace (2 * (a / two_pow g) * two_pow g) with (2 * a) in R
    by (field; apply two_pow_nonzero).
  exact R.
Qed.

(** Rounding a number of magnitude at most [2 ^ 1000] gives a finite double,
    of at most twice the magnitude. *)
Lemma fl_defined (q : Q) :
  Qabs q <= inject_Z (2 ^ 1000) ->
  exists r, fl q = Some r /\ Qabs r <= 2 * Qabs q.
Proof.
  intros B.
  assert (T : forall a, 0 < a -> a <= inject_Z (2 ^ 1000) ->
              Qle_bool (two_pow 1024) (round_pos a) = false).
  { intros a Ha Ba. destruct (Qle_bool (two_pow 1024) (round_pos a)) eqn:O; [| reflexivity].
    apply Qle_bool_iff in O. pose proof (round_pos_le_twice a Ha) as R.
    rewrite two_pow_Z in O by lia.
    assert (C : 2 * inject_Z (2 ^ 1000) < inject_Z (2 ^ 1024)) by reflexivity.
    lra. }
  destruct (Qcompare_spec q 0) as [Z | L | G].
  - exists 0. split; [apply fl_zero; exact Z |]. rewrite Z. simpl. lra.
  - rewrite Qabs_neg in B by lra.
    exists (- round_pos (- q)). split.
    + rewrite (fl_neg q L), T by lra. reflexivity.
    + rewrite Qabs_opp. rewrite Qabs_pos by (apply round_pos_nonneg; lra).
      rewrite (Qabs_neg q) by lra. apply round_pos_le_twice. lra.
  - rewrite Qabs_pos in B by lra.
    exists (round_pos q). split.
    + rewrite (fl_pos q G), T by lra. reflexivity.
    + rewrite Qabs_pos by (apply round_pos_nonneg; lra).
      rewrite (Qabs_pos q) by lra. apply round_pos_le_twice. exact G.
Qed.

Lemma Qabs_plus_le (a b A B : Q) :
  Qabs a <= A -> Qabs b <= B -> Qabs (a + b) <= A + B.
Proof. intros Ha Hb. pose proof (Qabs_triangle a b). lra. Qed.

Lemma Qabs_minus_le (a b A B : Q) :
  Qabs a <= A -> Qabs b <= B -> Qabs (a - b) <= A + B.
Proof.
  intros Ha Hb. unfold Qminus. apply Qabs_plus_le; [exact Ha |].
  rewrite Qabs_opp. exact Hb.
Qed.

Lemma Qabs_mult_le (a b A B : Q) :
  Qabs a <= A -> Qabs b <= B -> Qabs (a * b) <= A * B.
Proof.
  intros Ha Hb. rewrite Qabs_Qmult.
  pose proof (Qabs_nonneg a). pose proof (Qabs_nonneg b).
  apply Qle_trans with (A * Qabs b).
  - apply Qmult_le_compat_r; assumption.
  - rewrite (Qmult_comm A (Qabs b)), (Qmult_comm A B).
    apply Qmult_le_compat_r; [exact Hb | lra].
Qed.

Lemma sequence_defined {A : Type} (f : nat -> option A) (n s : nat) :
  (forall k, (k < n)%nat -> exists m, f (s + k)%nat = Some m) ->
  exists r, sequence (map f (seq s n)) = Some r.
Proof.
  revert s. induction n as [| n IH]; intros s H; simpl.
  - exists []. reflexivity.
  - destruct (H 0%nat) as [m Hm]; [lia |]. rewrite Nat.add_0_r in Hm. rewrite Hm. simpl.
    destruct (IH (S s)) as [r Hr].
    { intros k Hk. destruct (H (S k)) as [m' Hm']; [lia |].
      exists m'. replace (S s + k)%nat with (s + S k)%nat by lia. exact Hm'. }
    rewrite Hr. simpl. eexists. reflexivity.
Qed.

(** Every element of a moderate array is finite. *)
Lemma arange_term_defined (start step : Q) (k : nat) :
  Qabs start <= inject_Z (2 ^ 104) -> Qabs step <= inject_Z (2 ^ 104) ->
  (Z.of_nat k <= 2 ^ 60)%Z ->
  exists m, arange_term start step k = Some m.
Proof.
  intros Bs Bt Bk.
  destruct (fl_defined (start + step)) as [next [Fn Bn]].
  { eapply Qle_trans; [apply (Qabs_plus_le _ _ _ _ Bs Bt) |]. vm_compute. discriminate. }
  pose proof (Qabs_plus_le _ _ _ _ Bs Bt) as Bsum.
  destruct k as [| [| k]]; [eexists; reflexivity | exists next; exact Fn |].
  cbn [arange_term]. remember (S (S k)) as n eqn:Hn. clear Hn.
  rewrite Fn. cbn [obind].
  assert (Bn' : Qabs next <= inject_Z (2 ^ 106)).
  { eapply Qle_trans; [exact Bn |].
    eapply Qle_trans; [apply Qmult_le_l; [reflexivity | exact Bsum] |].
    vm_compute. discriminate. }
  pose proof (Qabs_minus_le _ _ _ _ Bn' Bs) as Bdiff.
  destruct (fl_defined (next - start)) as [delta [Fd Bd]].
  { eapply Qle_trans; [exact Bdiff |]. vm_compute. discriminate. }
  rewrite Fd. cbn [obind].
  assert (Bd' : Qabs delta <= inject_Z (2 ^ 108)).
  { eapply Qle_trans; [exact Bd |].
    eapply Qle_trans; [apply Qmult_le_l; [reflexivity | exact Bdiff] |].
    vm_compute. discriminate. }
  unfold multiple.
  assert (Bi : Qabs (inject_Z (Z.of_nat n)) <= inject_Z (2 ^ 60)).
  { rewrite Qabs_pos by (rewrite <- (Zle_Qle 0); lia). rewrite <- Zle_Qle. exact Bk. }
  destruct (fl_defined (inject_Z (Z.of_nat n))) as [fi [Ff Bf]].
  { eapply Qle_trans; [exact Bi |]. vm_compute. discriminate. }
  rewrite Ff. cbn [obind].
  assert (Bf' : Qabs fi <= inject_Z (2 ^ 61)).
  { eapply Qle_trans; [exact Bf |].
    eapply Qle_trans; [apply Qmult_le_l; [reflexivity | exact Bi] |].
    vm_compute. discriminate. }
  pose proof (Qabs_mult_le _ _ _ _ Bf' Bd') as Bprod.
  destruct (fl_defined (fi * delta)) as [p [Fp Bp]].
  { eapply Qle_trans; [exact Bprod |]. vm_compute. discriminate. }
  rewrite Fp. cbn [obind].
  assert (Bp' : Qabs p <= inject_Z (2 ^ 170)).
  { eapply Qle_trans; [exact Bp |].
    eapply Qle_trans; [apply Qmult_le_l; [reflexivity | exact Bprod] |].
    vm_compute. discriminate. }
  destruct (fl_defined (start + p)) as [m [Fm _]].
  { eapply Qle_trans; [apply (Qabs_plus_le _ _ _ _ Bs Bp') |]. vm_compute. discriminate. }
  exists m. exact Fm.
Qed.

(** [np.arange] returns when the numbers are moderate and the width is at
    most [2 ^ 22] steps. *)
Lemma arange_returns (start stop step : Q) :
  Qabs start <= inject_Z (2 ^ 104) -> Qabs stop <= inject_Z (2 ^ 104) ->
  0 < step -> step <= inject_Z (2 ^ 104) ->
  Qabs start + Qabs stop <= inject_Z (2 ^ 22) * step ->
  exists l, arange start stop step = Returns l.
Proof.
  intros Bs Bp Hs Bt W.
  unfold arange, arange_len.
  destruct (Qeq_bool step 0) eqn:Z; [apply Qeq_bool_iff in Z; lra |].
  pose proof (Qabs_minus_le _ _ _ _ Bp Bs) as Bdiff.
  destruct (fl_defined (stop - start)) as [d [Fd Bd]].
  { eapply Qle_trans; [exact Bdiff |]. vm_compute. discriminate. }
  rewrite Fd.
  assert (Bd' : Qabs d <= inject_Z (2 ^ 23) * step).
  { eapply Qle_trans; [exact Bd |].
    assert (Qabs (stop - start) <= inject_Z (2 ^ 22) * step).
    { eapply Qle_trans; [apply (Qabs_minus_le _ _ _ _ (Qle_refl _) (Qle_refl _)) |]. lra. }
    change (inject_Z (2 ^ 23)) with (2 * inject_Z (2 ^ 22)). lra. }
  assert (Bq : Qabs (d / step) <= inject_Z (2 ^ 23)).
  { unfold Qdiv. rewrite Qabs_Qmult.
    rewrite (Qabs_pos (/ step)) by (apply Qlt_le_weak, Qinv_lt_0_compat; exact Hs).
    apply Qle_shift_div_r; [exact Hs | exact Bd']. }
  destruct (fl_defined (d / step)) as [v [Fv Bv]].
  { eapply Qle_trans; [exact Bq |]. vm_compute. discriminate. }
  rewrite Fv. cbv zeta.
  assert (Bv' : Qabs v <= inject_Z (2 ^ 24)).
  { eapply Qle_trans; [exact Bv |].
    change (inject_Z (2 ^ 24)) with (2 * inject_Z (2 ^ 23)). lra. }
  apply Qabs_Qle_condition in Bv' as [Bv1 Bv2].
  assert (C1 : (- 2 ^ 24 <= Qceiling v)%Z).
  { rewrite <- (Qceiling_Z (- 2 ^ 24)). apply Qceiling_resp_le.
    rewrite inject_Z_opp. exact Bv1. }
  assert (C2 : (Qceiling v <= 2 ^ 24)%Z).
  { rewrite <- (Qceiling_Z (2 ^ 24)). apply Qceiling_resp_le. exact Bv2. }
  destruct (Z.ltb_spec (Qceiling v) (- 2 ^ 63)) as [A | _]; [lia |].
  destruct (Z.ltb_spec (2 ^ 63 - 1) (Qceiling v)) as [A | _]; [lia |].
  cbn [orb].
  set (len := if Qeq_bool v 0 && negb (Qeq_bool d 0)
              then (if Py.ltb (d / step) 0 then 0%Z else 1%Z)
              else Qceiling v).
  assert (Blen : (len <= 2 ^ 24)%Z).
  { unfold len. destruct (Qeq_bool v 0 && negb (Qeq_bool d 0));
      [destruct (Py.ltb (d / step) 0); lia | exact C2]. }
  assert (E : (if Qeq_bool v 0 && negb (Qeq_bool d 0)
               then Returns (if Py.ltb (d / step) 0 then 0%Z else 1%Z)
               else Returns (Qceiling v)) = Returns len).
  { unfold len. destruct (Qeq_bool v 0 && negb (Qeq_bool d 0)); reflexivity. }
  rewrite E. cbn [bind].
  destruct (Z.leb_spec len 0) as [N | P]; [eexists; reflexivity |].
  destruct (Z.leb_spec (2 ^ 60) len) as [A | _]; [lia |].
  destruct (sequence_defined (arange_term start step) (Z.to_nat len) 0) as [r Hr].
  { intros k Hk. simpl. apply arange_term_defined; [exact Bs | | lia].
    rewrite Qabs_pos by lra. exact Bt. }
  rewrite Hr. eexists. reflexivity.
Qed.

(** [get_tick_range] returns an array on every moderate line. *)
Lemma get_tick_range_returns (self : NumberLine) :
  moderate self -> exists ts, F64.get_tick_range self = Returns ts.
Proof.
  intros [Hs [Bt [Bmin [Bmax W]]]].
  pose proof (Qabs_nonneg (x_min self)) as Nmin.
  pose proof (Qabs_nonneg (x_max self)) as Nmax.
  assert (E0 : 0 < F64.epsilon) by exact epsilon_pos.
  assert (E1 : F64.epsilon <= 1) by (vm_compute; discriminate).
  assert (Beps : Qabs F64.epsilon <= 1) by (rewrite Qabs_pos; lra).
  assert (K : inject_Z (2 ^ 100) + 1 <= inject_Z (2 ^ 1000)) by (vm_compute; discriminate).
  assert (K2 : 2 * (inject_Z (2 ^ 100) + 1) <= inject_Z (2 ^ 104)) by (vm_compute; discriminate).
  assert (K3 : inject_Z (2 ^ 100) <= inject_Z (2 ^ 104)) by (vm_compute; discriminate).
  assert (K4 : inject_Z (2 ^ 22) * x_step self
               == 4 * (inject_Z (2 ^ 20) * x_step self)).
  { change (inject_Z (2 ^ 22)) with (4 * inject_Z (2 ^ 20)). ring. }
  assert (K5 : x_step self <= inject_Z (2 ^ 20) * x_step self).
  { rewrite <- (Qmult_1_l (x_step self)) at 1.
    apply Qmult_le_compat_r; [vm_compute; discriminate | lra]. }
  remember (inject_Z (2 ^ 20) * x_step self) as P eqn:HP. clear HP.
  (* the effective upper bound *)
  assert (Ehi : exists hi, F64.effective_x_max self = Some hi
                           /\ Qabs hi <= 2 * (Qabs (x_max self) + 1)).
  { unfold F64.effective_x_max. destruct (include_tip self).
    - exists (x_max self). split; [reflexivity | lra].
    - destruct (fl_defined (x_max self + F64.epsilon)) as [hi [F B]].
      + pose proof (Qabs_plus_le _ _ _ _ (Qle_refl (Qabs (x_max self))) Beps). lra.
      + exists hi. split; [exact F |].
        pose proof (Qabs_plus_le _ _ _ _ (Qle_refl (Qabs (x_max self))) Beps). lra. }
  destruct Ehi as [hi [Ehi Bhi]].
  unfold F64.get_tick_range. rewrite Ehi. cbn [finite bind].
  destruct (F64.same_sign self hi).
  - apply arange_returns; lra.
  - assert (Esp : exists sp, F64.start_point self = Some sp
                             /\ Qabs sp <= 2 * x_step self).
    { unfold F64.start_point. destruct (exclude_origin_tick self).
      - destruct (fl_defined (0 + x_step self)) as [sp [F B]].
        + setoid_replace (0 + x_step self) with (x_step self) by ring.
          rewrite Qabs_pos by lra. lra.
        + exists sp. split; [exact F |].
          setoid_replace (0 + x_step self) with (x_step self) in B by ring.
          rewrite (Qabs_pos (x_step self)) in B by lra. exact B.
      - exists 0. split; [reflexivity |]. simpl. lra. }
    destruct Esp as [sp [Esp Bsp]]. rewrite Esp. cbn [finite bind].
    assert (Babs : Qabs (np.abs (x_min self) + F64.epsilon) <= Qabs (x_min self) + 1).
    { unfold np.abs. rewrite Qabs_pos; lra. }
    destruct (fl_defined (np.abs (x_min self) + F64.epsilon)) as [lo [Elo Blo]]; [lra |].
    rewrite Elo. cbn [finite bind].
    destruct (arange_returns sp lo (x_step self)) as [neg An];
      try lra.
    rewrite An. cbn [bind].
    destruct (arange_returns sp hi (x_step self)) as [pos Ap];
      try lra.
    rewrite Ap. cbn [bind]. eexists. reflexivity.
Qed.

End FloatProperties.

(** *** Values of the ticks *)

(** C3.  On an interval that spans or touches zero ([x_min <= 0 <= x_max]),
    with the origin tick kept, [get_tick_range] builds
    [neg = np.arange(0, |x_min| + 1e-6, step)] and
    [pos = np.arange(0, x_max', step)] for the effective upper bound [x_max'];
    element [k] of either is the product [k * step] (rounded to a double);
    the returned array is strictly ascending and its members are exactly the
    negated elements of [neg] and the elements of [pos].  An array is
    returned on every line of moderate numbers.
    [x_range = [-10, 10, 2]] without tip gives the eleven ticks
    -10, -8, ..., 10. *)
Theorem straddling_tick_range :
  (forall (self : NumberLine) (ts : list Q),
      x_min self <= 0 -> 0 <= x_max self ->
      exclude_origin_tick self = false ->
      F64.double (x_step self) ->
      F64.get_tick_range self = F64.Returns ts ->
      exists lo hi neg pos,
        F64.fl (np.abs (x_min self) + F64.epsilon) = Some lo
        /\ F64.effective_x_max self = Some hi
        /\ F64.arange 0 lo (x_step self) = F64.Returns neg
        /\ F64.arange 0 hi (x_step self) = F64.Returns pos
        /\ (forall k m, nth_error neg k = Some m ->
              exists p, F64.multiple k (x_step self) = Some p /\ p == m)
        /\ (forall k m, nth_error pos k = Some m ->
              exists p, F64.multiple k (x_step self) = Some p /\ p == m)
        /\ StronglySorted Qlt ts
        /\ forall t, InQ t ts
             <-> (exists v, InQ v neg /\ t == - v) \/ InQ t pos)
  /\ (forall self : NumberLine,
        moderate self -> exists ts, F64.get_tick_range self = F64.Returns ts)
  /\ float_returns (F64.get_tick_range (line_of_range (-10) 10 2 false false))
                   [-10; -8; -6; -4; -2; 0; 2; 4; 6; 8; 10].
Proof.
  split; [| split; [exact get_tick_range_returns |]].
  - intros self ts Hmin Hmax Hex Hd Hr.
    destruct (effective_x_max_defined self ts Hr) as [hi Ehi].
    pose proof (spanning_zero_anchored self hi Hmin Hmax Ehi) as G.
    destruct (get_tick_range_zero_anchored_path self ts hi Ehi G Hr)
      as [sp [lo [neg [pos [Esp [Elo [An [Ap ->]]]]]]]].
    unfold F64.start_point in Esp. rewrite Hex in Esp. injection Esp as <-.
    assert (T : forall l stop, F64.arange 0 stop (x_step self) = F64.Returns l ->
                forall k m, nth_error l k = Some m ->
                exists p, F64.multiple k (x_step self) = Some p /\ p == m).
    { intros l stop A k m Hk.
      destruct (arange_inv _ _ _ _ A) as [len [_ Hl]].
      apply (proj1 (Hl _ _)) in Hk. destruct Hk as [_ Hk].
      apply (zero_anchored_term (x_step self) k m Hd).
      exists m. split; [exact Hk | reflexivity]. }
    exists lo, hi, neg, pos.
    split; [exact Elo |]. split; [exact Ehi |].
    split; [exact An |]. split; [exact Ap |].
    split; [exact (T neg lo An) |]. split; [exact (T pos hi Ap) |].
    split; [apply unique_sorted |].
    intro t. apply zero_anchored_members.
  - apply float_returns_check. vm_compute. reflexivity.
Qed.

Lemma straddling_tick_range_witness :
  exists ts,
    F64.get_tick_range (line_of_range (-4) 4 2 false false) = F64.Returns ts
    /\ StronglySorted Qlt ts.
Proof.
  destruct (F64.get_tick_range (line_of_range (-4) 4 2 false false))
    as [ts | e |] eqn:R;
    [| vm_compute in R; discriminate | vm_compute in R; discriminate].
  exists ts. split; [reflexivity |].
  destruct (proj1 straddling_tick_range (line_of_range (-4) 4 2 false false) ts)
    as [lo [hi [neg [pos [_ [_ [_ [_ [_ [_ [Hs _]]]]]]]]]]];
    [vm_compute; discriminate | vm_compute; discriminate | reflexivity
    | eexists; split; [vm_compute; reflexivity | vm_compute; reflexivity]
    | exact R
    | exact Hs ].
Defined.

(** C5.  With [exclude_origin_tick] set on an interval that spans or touches
    zero (positive step), both progressions are built from [step] instead of
    0: [neg = np.arange(step, |x_min| + 1e-6, step)] and
    [pos = np.arange(step, x_max', step)]; their first element is [step] and
    no element is below [step], so zero is not among the ticks.  An array is
    returned on every line of moderate numbers.
    [x_range = [-4, 4, 2]] gives -4, -2, 2, 4. *)
Theorem origin_excluded_tick_range :
  (forall (self : NumberLine) (ts : list Q),
      x_min self <= 0 -> 0 <= x_max self ->
      exclude_origin_tick self = true ->
      F64.double (x_step self) -> 0 < x_step self ->
      F64.get_tick_range self = F64.Returns ts ->
      exists sp lo hi neg pos,
        F64.start_point self = Some sp /\ sp == x_step self
        /\ F64.fl (np.abs (x_min self) + F64.epsilon) = Some lo
        /\ F64.effective_x_max self = Some hi
        /\ F64.arange sp lo (x_step self) = F64.Returns neg
        /\ F64.arange sp hi (x_step self) = F64.Returns pos
        /\ (forall m, nth_error neg 0 = Some m \/ nth_error pos 0 = Some m ->
              m == x_step self)
        /\ (forall m, InQ m neg \/ InQ m pos -> x_step self <= m)
        /\ StronglySorted Qlt ts
        /\ (forall t, InQ t ts
              <-> (exists v, InQ v neg /\ t == - v) \/ InQ t pos)
        /\ forall t, InQ t ts -> ~ t == 0)
  /\ (forall self : NumberLine,
        moderate self -> exists ts, F64.get_tick_range self = F64.Returns ts)
  /\ float_returns (F64.get_tick_range (line_of_range (-4) 4 2 false true))
                   [-4; -2; 2; 4].
Proof.
  split; [| split; [exact get_tick_range_returns |]].
  - intros self ts Hmin Hmax Hex Hd Hs Hr.
    destruct (effective_x_max_defined self ts Hr) as [hi Ehi].
    pose proof (spanning_zero_anchored self hi Hmin Hmax Ehi) as G.
    destruct (get_tick_range_zero_anchored_path self ts hi Ehi G Hr)
      as [sp [lo [neg [pos [Esp [Elo [An [Ap ->]]]]]]]].
    assert (Rsp : sp == x_step self).
    { unfold F64.start_point in Esp. rewrite Hex in Esp.
      destruct Hd as [s [Fs Rs]].
      rewrite (fl_comp (0 + x_step self) (x_step self)) in Esp by ring.
      rewrite Fs in Esp. injection Esp as <-. exact Rs. }
    assert (Dsp : F64.double sp).
    { unfold F64.start_point in Esp. rewrite Hex in Esp.
      eapply fl_double; eassumption. }
    assert (First : forall l stop,
               F64.arange sp stop (x_step self) = F64.Returns l ->
               forall m, nth_error l 0 = Some m -> m == x_step self).
    { intros l stop A m Hk.
      destruct (arange_inv _ _ _ _ A) as [len [_ Hl]].
      apply (proj1 (Hl _ _)) in Hk. destruct Hk as [_ Hk]. simpl in Hk. injection Hk as <-. exact Rsp. }
    assert (Low : forall l stop,
               F64.arange sp stop (x_step self) = F64.Returns l ->
               forall m, InQ m l -> x_step self <= m).
    { intros l stop A m Hm.
      apply InQ_nth in Hm as [k [m' [Hk E]]].
      destruct (arange_inv _ _ _ _ A) as [len [_ Hl]].
      apply (proj1 (Hl _ _)) in Hk. destruct Hk as [_ Hk].
      apply arange_term_ge in Hk; [| exact Dsp | lra]. lra. }
    exists sp, lo, hi, neg, pos.
    split; [exact Esp |]. split; [exact Rsp |].
    split; [exact Elo |]. split; [exact Ehi |].
    split; [exact An |]. split; [exact Ap |].
    split; [intros m [H | H]; [exact (First neg lo An m H) | exact (First pos hi Ap m H)] |].
    split; [intros m [H | H]; [exact (Low neg lo An m H) | exact (Low pos hi Ap m H)] |].
    split; [apply unique_sorted |].
    split; [intro t; apply zero_anchored_members |].
    intros t Ht Z. apply zero_anchored_members in Ht as [[v [Hv E]] | Hp].
    + pose proof (Low neg lo An v Hv). lra.
    + pose proof (Low pos hi Ap t Hp). lra.
  - apply float_returns_check. vm_compute. reflexivity.
Qed.

Lemma origin_excluded_tick_range_witness :
  exists ts,
    F64.get_tick_range (line_of_range (-6) 6 3 false true) = F64.Returns ts
    /\ forall t, InQ t ts -> ~ t == 0.
Proof.
  destruct (F64.get_tick_range (line_of_range (-6) 6 3 false true))
    as [ts | e |] eqn:R;
    [| vm_compute in R; discriminate | vm_compute in R; discriminate].
  exists ts. split; [reflexivity |].
  destruct (proj1 origin_excluded_tick_range
              (line_of_range (-6) 6 3 false true) ts)
    as [sp [lo [hi [neg [pos [_ [_ [_ [_ [_ [_ [_ [_ [_ [_ Hz]]]]]]]]]]]]]]];
    [vm_compute; discriminate | vm_compute; discriminate | reflexivity
    | eexists; split; [vm_compute; reflexivity | vm_compute; reflexivity]
    | vm_compute; reflexivity
    | exact R
    | exact Hz ].
Defined.

(** C6, as it holds of the code.  On the same-sign path ([x_max > x_min > 0],
    or [x_min < x_max' < 0] for the effective upper bound [x_max'])
    [get_tick_range] is [np.arange(x_min, x_max', step)]: as many elements as
    the ceiling of the rounded quotient [(x_max' - x_min) / step], element
    [k] being what numpy's fill computes, [x_min], then [x_min + step], then
    [x_min + k * delta] for the rounded increment
    [delta = (x_min + step) - x_min].  When [x_min] and [step] are integers
    and [|x_min| + n * |step| <= 2 ^ 53] for the [n] ticks returned, nothing
    rounds and element [k] is exactly [x_min + k * step].  An array is
    returned on every line of moderate numbers.
    [x_range = [2, 10, 2]] gives 2, 4, 6, 8, 10. *)
Theorem same_sign_tick_range :
  (forall (self : NumberLine) (hi : Q) (ts : list Q),
      F64.effective_x_max self = Some hi ->
      F64.same_sign self hi = true ->
      F64.get_tick_range self = F64.Returns ts ->
      exists len,
        F64.arange_len (x_min self) hi (x_step self) = F64.Returns len
        /\ (forall k m, nth_error ts k = Some m
              <-> (Z.of_nat k < len)%Z
                  /\ F64.arange_term (x_min self) (x_step self) k = Some m)
        /\ (forall a s,
              x_min self == inject_Z a -> x_step self == inject_Z s ->
              (Z.abs a + Z.of_nat (List.length ts) * Z.abs s <= 2 ^ 53)%Z ->
              forall k m, nth_error ts k = Some m ->
                m == x_min self + inject_Z (Z.of_nat k) * x_step self))
  /\ (forall self : NumberLine,
        moderate self -> exists ts, F64.get_tick_range self = F64.Returns ts)
  /\ float_returns (F64.get_tick_range (line_of_range 2 10 2 false false))
                   [2; 4; 6; 8; 10].
Proof.
  split; [| split; [exact get_tick_range_returns |]].
  - intros self hi ts Ehi G Hr.
    rewrite (get_tick_range_same_sign_path self ts hi Ehi G) in Hr.
    destruct (arange_inv _ _ _ _ Hr) as [len [L Hl]].
    exists len. split; [exact L |]. split; [exact Hl |].
    intros a s Ea Es B k m Hk.
    destruct (arange_len_inv _ _ _ _ L) as [Hs _].
    assert (Hlt : (k < List.length ts)%nat).
    { apply nth_error_Some. congruence. }
    apply (proj1 (Hl _ _)) in Hk. destruct Hk as [_ Hk].
    apply (integer_term _ _ a s k m Ea Es); [| nia | exact Hk].
    intro Z. apply Hs. rewrite Es, Z. reflexivity.
  - apply float_returns_check. vm_compute. reflexivity.
Qed.

Lemma same_sign_tick_range_witness :
  exists ts,
    F64.get_tick_range (line_of_range (-9) (-3) 2 false false) = F64.Returns ts
    /\ forall k m, nth_error ts k = Some m ->
         m == -9 + inject_Z (Z.of_nat k) * 2.
Proof.
  destruct (F64.get_tick_range (line_of_range (-9) (-3) 2 false false))
    as [ts | e |] eqn:R;
    [| vm_compute in R; discriminate | vm_compute in R; discriminate].
  exists ts. split; [reflexivity |].
  destruct (F64.effective_x_max (line_of_range (-9) (-3) 2 false false))
    as [hi |] eqn:E; [| vm_compute in E; discriminate].
  destruct (proj1 same_sign_tick_range
              (line_of_range (-9) (-3) 2 false false) hi ts E)
    as [len [_ [_ H]]]; [| exact R |].
  - vm_compute in E. injection E as <-. vm_compute. reflexivity.
  - apply (H (-9)%Z 2%Z); [reflexivity | reflexivity |].
    vm_compute in R. injection R as <-. vm_compute. discriminate.
Defined.

(** With a tip on [x_range = [1, 1.3, 0.1]] the ticks are 1, 1.1,
    1.2000000000000002, 1.3000000000000003: the third is not
    [x_min + 2 * step] (which is 1.2 in doubles), and the last is not below
    [x_max]. *)
Lemma same_sign_rounded_increment :
  F64.same_sign tenths_line (x_max tenths_line) = true
  /\ exists ts,
       F64.get_tick_range tenths_line = F64.Returns ts
       /\ (exists m p e,
              nth_error ts 2 = Some m
              /\ F64.multiple 2 (x_step tenths_line) = Some p
              /\ F64.fl (x_min tenths_line + p) = Some e
              /\ ~ m == e)
       /\ exists t, InQ t ts /\ x_max tenths_line < t.
Proof.
  split; [vm_compute; reflexivity |].
  eexists. split; [vm_compute; reflexivity |]. split.
  - eexists. eexists. eexists.
    split; [reflexivity |]. split; [vm_compute; reflexivity |].
    split; [vm_compute; reflexivity |].
    vm_compute. discriminate.
  - eexists. split.
    + eexists. split; [right; right; right; left; reflexivity | reflexivity].
    + vm_compute. reflexivity.
Qed.

(** C4, as it holds of the code.  With [include_tip] the upper bound handed
    to [np.arange] is exactly [x_max].  On an interval that spans or touches
    zero, with the origin tick kept and at most [2 ^ 53] steps up to [x_max],
    every tick is then at most [x_max]; and [x_range = [0, 10, 3]] gives
    0, 3, 6, 9. *)
Theorem tip_bounds_tick_range :
  (forall self : NumberLine,
      include_tip self = true ->
      F64.effective_x_max self = Some (x_max self))
  /\ (forall (self : NumberLine) (ts : list Q),
        include_tip self = true -> exclude_origin_tick self = false ->
        x_min self <= 0 -> 0 <= x_max self ->
        F64.double (x_max self) -> F64.double (x_step self) ->
        0 < x_step self ->
        x_max self <= inject_Z (2 ^ 53) * x_step self ->
        F64.get_tick_range self = F64.Returns ts ->
        forall t, InQ t ts -> t <= x_max self)
  /\ float_returns (F64.get_tick_range (line_of_range 0 10 3 true false))
                   [0; 3; 6; 9].
Proof.
  split; [| split].
  - intros self Ht. unfold F64.effective_x_max. rewrite Ht. reflexivity.
  - intros self ts Ht Hex Hmin Hmax Dmax Dstep Hs Hspan Hr t Hin.
    assert (Ehi : F64.effective_x_max self = Some (x_max self))
      by (unfold F64.effective_x_max; rewrite Ht; reflexivity).
    pose proof (spanning_zero_anchored self _ Hmin Hmax Ehi) as G.
    destruct (get_tick_range_zero_anchored_path self ts _ Ehi G Hr)
      as [sp [lo [neg [pos [Esp [Elo [An [Ap ->]]]]]]]].
    unfold F64.start_point in Esp. rewrite Hex in Esp. injection Esp as <-.
    apply zero_anchored_members in Hin as [[v [Hv E]] | Hp].
    + apply InQ_nth in Hv as [k [m [Hk Em]]].
      destruct (arange_inv _ _ _ _ An) as [len [_ Hl]].
      apply (proj1 (Hl _ _)) in Hk. destruct Hk as [_ Hk].
      apply arange_term_ge in Hk; [| apply double_0 | lra]. lra.
    + apply InQ_nth in Hp as [k [m [Hk Em]]].
      destruct (arange_inv _ _ _ _ Ap) as [len [L Hl]].
      apply (proj1 (Hl _ _)) in Hk. destruct Hk as [Hlt Hk].
      rewrite <- Em.
      exact (zero_anchored_bound _ _ len k m Dmax Dstep Hs Hmax Hspan L Hlt Hk).
  - apply float_returns_check. vm_compute. reflexivity.
Qed.

Lemma tip_bounds_tick_range_witness :
  exists ts,
    F64.get_tick_range (line_of_range (-4) 7 2 true false) = F64.Returns ts
    /\ forall t, InQ t ts -> t <= 7.
Proof.
  destruct (F64.get_tick_range (line_of_range (-4) 7 2 true false))
    as [ts | e |] eqn:R;
    [| vm_compute in R; discriminate | vm_compute in R; discriminate].
  exists ts. split; [reflexivity |].
  destruct tip_bounds_tick_range as [_ [H _]].
  apply (H (line_of_range (-4) 7 2 true false)).
  - reflexivity.
  - reflexivity.
  - vm_compute. discriminate.
  - vm_compute. discriminate.
  - eexists. split; [vm_compute; reflexivity | vm_compute; reflexivity].
  - eexists. split; [vm_compute; reflexivity | vm_compute; reflexivity].
  - vm_compute. reflexivity.
  - vm_compute. discriminate.
  - exact R.
Defined.

(** With a tip on [x_range = [1, 1.3, 0.1]] the last tick,
    1.3000000000000003, is above [x_max]. *)
Lemma tip_tick_beyond_x_max :
  include_tip tenths_line = true
  /\ exists ts,
       F64.get_tick_range tenths_line = F64.Returns ts
       /\ ~ (forall t, InQ t ts -> t < x_max tenths_line).
Proof.
  split; [reflexivity |].
  eexists. split; [vm_compute; reflexivity |].
  intro H.
  assert (Hlt : (2927339757790823 # 2251799813685248) < x_max tenths_line).
  { apply H. eexists. split; [right; right; right; left; reflexivity | reflexivity]. }
  vm_compute in Hlt. discriminate.
Qed.

(** C8, as it holds of the code.  Values are deduplicated by exact equality,
    with no tolerance, and only on the zero-anchored path, whose array is
    strictly ascending.  The same-sign path returns [np.arange]'s array as it
    is, and that array can repeat a value: [x_range = [1e16, 1e16 + 8, 1]]
    gives eight times 1e16. *)
Theorem tick_range_exact_dedup :
  (forall (self : NumberLine) (hi : Q) (ts : list Q),
      F64.effective_x_max self = Some hi ->
      F64.get_tick_range self = F64.Returns ts ->
      (F64.same_sign self hi = false -> StronglySorted Qlt ts)
      /\ (F64.same_sign self hi = true ->
          F64.arange (x_min self) hi (x_step self) = F64.Returns ts))
  /\ float_returns (F64.get_tick_range huge_line)
       [10000000000000000; 10000000000000000; 10000000000000000;
        10000000000000000; 10000000000000000; 10000000000000000;
        10000000000000000; 10000000000000000].
Proof.
  split.
  - intros self hi ts Ehi Hr. split; intro G.
    + destruct (get_tick_range_zero_anchored_path self ts hi Ehi G Hr)
        as [sp [lo [neg [pos [_ [_ [_ [_ ->]]]]]]]].
      apply unique_sorted.
    + rewrite <- Hr. symmetry.
      exact (get_tick_range_same_sign_path self ts hi Ehi G).
  - apply float_returns_check. vm_compute. reflexivity.
Qed.

Lemma tick_range_exact_dedup_witness :
  exists ts,
    F64.get_tick_range (line_of_range (-10) 10 2 false false) = F64.Returns ts
    /\ StronglySorted Qlt ts.
Proof.
  destruct (F64.get_tick_range (line_of_range (-10) 10 2 false false))
    as [ts | e |] eqn:R;
    [| vm_compute in R; discriminate | vm_compute in R; discriminate].
  exists ts. split; [reflexivity |].
  destruct (F64.effective_x_max (line_of_range (-10) 10 2 false false))
    as [hi |] eqn:E; [| vm_compute in E; discriminate].
  destruct tick_range_exact_dedup as [H _].
  destruct (H (line_of_range (-10) 10 2 false false) hi ts E R) as [Hs _].
  apply Hs. vm_compute in E. injection E as <-. vm_compute. reflexivity.
Defined.

(** With [x_range = [0, 1e-6, 5e-7]] the ticks 0 and 5e-7 are both returned:
    they are distinct and closer than 1e-6. *)
Lemma ticks_closer_than_epsilon :
  exists ts,
    F64.get_tick_range tiny_line = F64.Returns ts
    /\ InQ 0 ts /\ InQ (x_step tiny_line) ts
    /\ ~ 0 == x_step tiny_line
    /\ x_step tiny_line - 0 < F64.epsilon.
Proof.
  eexists. split; [vm_compute; reflexivity |].
  split; [| split; [| split]].
  - eexists. split; [right; left; reflexivity | reflexivity].
  - eexists. split; [right; right; left; reflexivity | vm_compute; reflexivity].
  - vm_compute. discriminate.
  - vm_compute. reflexivity.
Qed.

(** *** Bounds, alignment, the sign of the step *)

(** X1.  On an interval that spans or touches zero, with the origin tick
    kept and at most [2 ^ 53] steps to either bound, every tick lies between
    [-(|x_min| + 1e-6)] and the effective upper bound, both as the program
    rounds them. *)
Theorem ticks_within_interval (self : NumberLine) (ts : list Q) (lo hi : Q) :
  x_min self <= 0 -> 0 <= x_max self ->
  exclude_origin_tick self = false ->
  F64.double (x_max self) -> F64.double (x_step self) -> 0 < x_step self ->
  F64.fl (np.abs (x_min self) + F64.epsilon) = Some lo ->
  F64.effective_x_max self = Some hi ->
  lo <= inject_Z (2 ^ 53) * x_step self ->
  hi <= inject_Z (2 ^ 53) * x_step self ->
  F64.get_tick_range self = F64.Returns ts ->
  forall t, InQ t ts -> - lo <= t <= hi.
Proof.
  intros Hmin Hmax Hex Dmax Dstep Hs Elo Ehi Slo Shi Hr t Hin.
  pose proof (spanning_zero_anchored self hi Hmin Hmax Ehi) as G.
  destruct (get_tick_range_zero_anchored_path self ts hi Ehi G Hr)
    as [sp [lo' [neg [pos [Esp [Elo' [An [Ap ->]]]]]]]].
  rewrite Elo in Elo'. injection Elo' as <-.
  unfold F64.start_point in Esp. rewrite Hex in Esp. injection Esp as <-.
  assert (Dlo : F64.double lo) by (eapply fl_double; eassumption).
  assert (Dhi : F64.double hi).
  { unfold F64.effective_x_max in Ehi. destruct (include_tip self).
    - injection Ehi as <-. exact Dmax.
    - eapply fl_double; eassumption. }
  assert (Hlo : 0 <= lo).
  { apply (fl_nonneg _ _) in Elo; [exact Elo |].
    pose proof (Qabs_nonneg (x_min self)). pose proof epsilon_pos.
    unfold np.abs. lra. }
  pose proof (effective_x_max_nonneg self hi Hmax Ehi) as Hhi.
  assert (B : forall l stop, F64.double stop -> 0 <= stop ->
              stop <= inject_Z (2 ^ 53) * x_step self ->
              F64.arange 0 stop (x_step self) = F64.Returns l ->
              forall v, InQ v l -> 0 <= v <= stop).
  { intros l stop Dstop H0 Sp A v Hv.
    apply InQ_nth in Hv as [k [m [Hk E]]].
    destruct (arange_inv _ _ _ _ A) as [len [L Hl]].
    apply (proj1 (Hl _ _)) in Hk. destruct Hk as [Hlt Hk].
    pose proof (zero_anchored_bound _ _ len k m Dstop Dstep Hs H0 Sp L Hlt Hk).
    apply arange_term_ge in Hk; [| apply double_0 | lra]. lra. }
  apply zero_anchored_members in Hin as [[v [Hv E]] | Hp].
  - pose proof (B neg lo Dlo Hlo Slo An v Hv). lra.
  - pose proof (B pos hi Dhi Hhi Shi Ap t Hp). lra.
Qed.

Lemma ticks_within_interval_witness :
  exists ts,
    F64.get_tick_range (line_of_range (-5) 7 3 false false) = F64.Returns ts
    /\ forall t, InQ t ts -> - (6 # 1) <= t <= 8.
Proof.
  destruct (F64.get_tick_range (line_of_range (-5) 7 3 false false))
    as [ts | e |] eqn:R;
    [| vm_compute in R; discriminate | vm_compute in R; discriminate].
  exists ts. split; [reflexivity |].
  destruct (F64.fl (np.abs (x_min (line_of_range (-5) 7 3 false false))
                    + F64.epsilon)) as [lo |] eqn:Elo;
    [| vm_compute in Elo; discriminate].
  destruct (F64.effective_x_max (line_of_range (-5) 7 3 false false))
    as [hi |] eqn:Ehi; [| vm_compute in Ehi; discriminate].
  intros t Ht.
  assert (H : - lo <= t <= hi).
  { apply (ticks_within_interval (line_of_range (-5) 7 3 false false) ts lo hi);
      try assumption.
    - vm_compute. discriminate.
    - vm_compute. discriminate.
    - reflexivity.
    - eexists. split; [vm_compute; reflexivity | vm_compute; reflexivity].
    - eexists. split; [vm_compute; reflexivity | vm_compute; reflexivity].
    - vm_compute. reflexivity.
    - vm_compute in Elo. injection Elo as <-. vm_compute. discriminate.
    - vm_compute in Ehi. injection Ehi as <-. vm_compute. discriminate. }
  vm_compute in Elo. injection Elo as <-.
  vm_compute in Ehi. injection Ehi as <-.
  destruct H as [H1 H2]. split.
  - eapply Qle_trans; [| exact H1]. vm_compute. discriminate.
  - eapply Qle_trans; [exact H2 |]. vm_compute. discriminate.
Defined.

(** X2.  On an interval that spans or touches zero, with the origin tick
    kept, an integer step and bounds within [2 ^ 53], nothing rounds: every
    tick is an integer multiple of the step. *)
Theorem ticks_aligned (self : NumberLine) (ts : list Q) (s : Z) :
  x_min self <= 0 -> 0 <= x_max self ->
  exclude_origin_tick self = false ->
  x_step self == inject_Z s -> (0 < s)%Z ->
  Qabs (x_min self) + 1 <= inject_Z (2 ^ 53) ->
  x_max self + 1 <= inject_Z (2 ^ 53) ->
  F64.get_tick_range self = F64.Returns ts ->
  forall t, InQ t ts -> exists z : Z, t == inject_Z (z * s).
Proof.
  intros Hmin Hmax Hex Es Hs Bmin Bmax Hr t Hin.
  destruct (effective_x_max_defined self ts Hr) as [hi Ehi].
  pose proof (spanning_zero_anchored self hi Hmin Hmax Ehi) as G.
  destruct (get_tick_range_zero_anchored_path self ts hi Ehi G Hr)
    as [sp [lo [neg [pos [Esp [Elo [An [Ap ->]]]]]]]].
  unfold F64.start_point in Esp. rewrite Hex in Esp. injection Esp as <-.
  assert (D53 : F64.double (inject_Z (2 ^ 53))) by (apply double_Z; lia).
  assert (E1 : F64.epsilon <= 1) by (vm_compute; discriminate).
  assert (Hlo : lo <= inject_Z (2 ^ 53)).
  { apply (fl_le_double _ _ _ D53) in Elo; [exact Elo |]. unfold np.abs. lra. }
  assert (Hhi : hi <= inject_Z (2 ^ 53)).
  { unfold F64.effective_x_max in Ehi. destruct (include_tip self).
    - injection Ehi as <-. lra.
    - apply (fl_le_double _ _ _ D53) in Ehi; [exact Ehi | lra]. }
  assert (B : forall l stop, stop <= inject_Z (2 ^ 53) ->
              F64.arange 0 stop (x_step self) = F64.Returns l ->
              forall v, InQ v l -> exists k : nat, v == inject_Z (Z.of_nat k * s)).
  { intros l stop Sp A v Hv.
    apply InQ_nth in Hv as [k [m [Hk E]]].
    destruct (arange_inv _ _ _ _ A) as [len [L Hl]].
    apply (proj1 (Hl _ _)) in Hk. destruct Hk as [Hlt Hk].
    exists k. rewrite <- E.
    exact (zero_anchored_exact stop (x_step self) s len k m Es Hs Sp L Hlt Hk). }
  apply zero_anchored_members in Hin as [[v [Hv E]] | Hp].
  - destruct (B neg lo Hlo An v Hv) as [k Hk].
    exists (- Z.of_nat k)%Z. rewrite E, Hk.
    rewrite <- inject_Z_opp. apply inject_Z_injective. ring.
  - destruct (B pos hi Hhi Ap t Hp) as [k Hk].
    exists (Z.of_nat k). exact Hk.
Qed.

Lemma ticks_aligned_witness :
  exists ts,
    F64.get_tick_range (line_of_range (-5) 7 3 false false) = F64.Returns ts
    /\ forall t, InQ t ts -> exists z : Z, t == inject_Z (z * 3).
Proof.
  destruct (F64.get_tick_range (line_of_range (-5) 7 3 false false))
    as [ts | e |] eqn:R;
    [| vm_compute in R; discriminate | vm_compute in R; discriminate].
  exists ts. split; [reflexivity |].
  apply (ticks_aligned (line_of_range (-5) 7 3 false false) ts 3).
  - vm_compute. discriminate.
  - vm_compute. discriminate.
  - reflexivity.
  - reflexivity.
  - reflexivity.
  - vm_compute. discriminate.
  - vm_compute. discriminate.
  - exact R.
Defined.

(** X6.  A tick range is returned only for a non-zero step, and a negative
    step on an interval with [x_min < x_max] returns no tick. *)
Theorem tick_range_step_sign (self : NumberLine) (ts : list Q) :
  F64.get_tick_range self = F64.Returns ts ->
  ~ x_step self == 0
  /\ (x_step self < 0 -> x_min self < x_max self ->
      F64.double (x_max self) -> ts = []).
Proof.
  intros Hr.
  destruct (effective_x_max_defined self ts Hr) as [hi Ehi].
  destruct (F64.same_sign self hi) eqn:G.
  - rewrite (get_tick_range_same_sign_path self ts hi Ehi G) in Hr. split.
    + intro Z. rewrite (arange_zero_step_raises _ _ _ Z) in Hr. discriminate.
    + intros Hs Hlt Dmax.
      apply (arange_negative_step _ _ _ _ Hs) in Hr; [exact Hr |].
      unfold F64.effective_x_max in Ehi. destruct (include_tip self).
      * injection Ehi as <-. lra.
      * apply (fl_ge_double _ _ _ Dmax) in Ehi; [lra |].
        pose proof epsilon_pos. lra.
  - destruct (get_tick_range_zero_anchored_path self ts hi Ehi G Hr)
      as [sp [lo [neg [pos [Esp [Elo [An [Ap ->]]]]]]]].
    split.
    + intro Z. rewrite (arange_zero_step_raises _ _ _ Z) in An. discriminate.
    + intros Hs Hlt Dmax.
      assert (Hsp : sp <= 0).
      { unfold F64.start_point in Esp. destruct (exclude_origin_tick self).
        - apply (fl_nonpos _ _) in Esp; [exact Esp | lra].
        - injection Esp as <-. lra. }
      assert (Hlo : 0 <= lo).
      { apply (fl_nonneg _ _) in Elo; [exact Elo |].
        pose proof (Qabs_nonneg (x_min self)). pose proof epsilon_pos.
        unfold np.abs. lra. }
      assert (Hge : x_max self <= hi).
      { unfold F64.effective_x_max in Ehi. destruct (include_tip self).
        - injection Ehi as <-. lra.
        - apply (fl_ge_double _ _ _ Dmax) in Ehi; [exact Ehi |].
          pose proof epsilon_pos. lra. }
      assert (Hhi : 0 <= hi).
      { destruct (Qlt_le_dec hi 0) as [N | P]; [exfalso | exact P].
        unfold F64.same_sign in G.
        assert (A : Py.ltb (x_min self) hi = true) by (apply ltb_lt; lra).
        assert (B : Py.ltb hi 0 = true) by (apply ltb_lt; exact N).
        rewrite A, B in G. discriminate. }
      apply (arange_negative_step _ _ _ _ Hs) in An; [| lra].
      apply (arange_negative_step _ _ _ _ Hs) in Ap; [| lra].
      subst neg pos. reflexivity.
Qed.

Lemma tick_range_step_sign_witness :
  F64.get_tick_range (line_of_range (-4) 4 (-(1)) false false) = F64.Returns [].
Proof.
  destruct (F64.get_tick_range (line_of_range (-4) 4 (-(1)) false false))
    as [ts | e |] eqn:R;
    [| vm_compute in R; discriminate | vm_compute in R; discriminate].
  destruct (tick_range_step_sign (line_of_range (-4) 4 (-(1)) false false) ts R)
    as [_ H].
  rewrite H; [reflexivity | vm_compute; reflexivity | vm_compute; reflexivity |].
  eexists. split; [vm_compute; reflexivity | vm_compute; reflexivity].
Defined.

(** ** Ticks and labels *)

Lemma number_to_point_alpha_ok (self : NumberLine) (x : Q) :
  ~ x_max self == x_min self ->
  number_to_point_alpha self x
  = Ok ((x - x_min self) / (x_max self - x_min self)).
Proof.
  intro H. unfold number_to_point_alpha.
  destruct (Qeq_bool (x_max self - x_min self) 0) eqn:E; [| reflexivity].
  apply Qeq_bool_iff in E. exfalso. apply H. lra.
Qed.



Lemma add_ticks_inv (self self' : NumberLine) :
  add_ticks self = Ok self' ->
  exists ts, self' = set_ticks ts (add (SubTicks ts) self).
Proof.
  unfold add_ticks. intro H.
  destruct (get_tick_range self) as [xs | e]; simpl in H; [| discriminate].
  match type of H with Py.bind ?m _ = _ => destruct m as [ts | e] end;
    simpl in H; [| discriminate].
  injection H as <-. now exists ts.
Qed.

Section ConstructionProperties.

Variable frame_x_radius : Q.
Variable leading_glyph_width : DecimalNumber -> Q.

(** What [get_number_mobject] returns: the label is scaled, placed next to
    the point of [x] in the direction passed (or the default), and shifted by
    half the leading glyph width to the left exactly when [x < 0] and the
    line's own [label_direction] has a zero first component. *)
Lemma get_number_mobject_ok (self : NumberLine) (x : Q)
    (direction : option Vec3) (buff : option Q) :
  ~ x_max self == x_min self ->
  exists alpha,
    number_to_point_alpha self x = Ok alpha
    /\ get_number_mobject leading_glyph_width self x direction buff
       = let d := match direction with
                  | None => label_direction self | Some d => d end in
         let b := match buff with
                  | None => line_to_number_buff self | Some b => b end in
         let placed :=
           mkDecimalNumber x [OpScale (number_scale_value self);
                              OpNextTo alpha d b] in
         if Py.ltb x 0 && Qeq_bool (vx (label_direction self)) 0
         then Ok (mkDecimalNumber x
                    (ops placed
                     ++ [OpShift (vdiv (vscale (leading_glyph_width placed)
                                          LEFT) 2)]))
         else Ok placed.
Proof.
  intro Hd. eexists. split; [apply number_to_point_alpha_ok, Hd |].
  unfold get_number_mobject.
  rewrite number_to_point_alpha_ok by exact Hd. reflexivity.
Qed.







Lemma init_eq (a : Args) (lo hi st : Q) :
  normalized_x_range frame_x_radius a = [lo; hi; st] ->
  init frame_x_radius leading_glyph_width a
  = (self <- (if arg_include_ticks a then add_ticks (configured a lo hi st)
              else Ok (configured a lo hi st)) ;;
     if arg_include_numbers a
        || match arg_numbers_to_include a with Some _ => true | None => false end
     then add_numbers leading_glyph_width self (numbers_to_include self)
                      (Some (numbers_to_exclude self))
     else Ok self).
Proof.
  unfold normalized_x_range, init, configured. intros ->. cbv zeta.
  destruct (arg_include_tip a), (arg_include_ticks a);
    cbn [include_tip include_ticks add Py.bind].
  all: try reflexivity.
  all: match goal with |- Py.bind ?m _ = Py.bind ?m _ =>
         destruct m as [s | e] eqn:E; [| reflexivity] end.
  all: apply add_ticks_inv in E as [ts ->]; reflexivity.
Qed.

Lemma init_bad_x_range (a : Args) :
  (forall lo hi st, normalized_x_range frame_x_radius a <> [lo; hi; st]) ->
  init frame_x_radius leading_glyph_width a = Raise ValueError.
Proof.
  unfold normalized_x_range, init. intro H. cbv zeta.
  destruct (match arg_x_range a with
            | None => _ | Some _ => _ end) as [| q0 [| q1 [| q2 [| q3 l]]]];
    try reflexivity.
  exfalso. now apply (H q0 q1 q2).
Qed.

Lemma configured_attrs (a : Args) (lo hi st : Q) :
  x_min (configured a lo hi st) = lo
  /\ x_max (configured a lo hi st) = hi
  /\ x_step (configured a lo hi st) = st
  /\ include_tip (configured a lo hi st) = arg_include_tip a
  /\ exclude_origin_tick (configured a lo hi st) = arg_exclude_origin_tick a
  /\ numbers_to_include (configured a lo hi st) = arg_numbers_to_include a
  /\ numbers_to_exclude (configured a lo hi st)
     = match arg_numbers_to_exclude a with None => [] | Some l => l end.
Proof.
  unfold configured. destruct (arg_include_tip a); simpl; repeat split.
Qed.


(** With a negative step on a proper interval the tick range is empty. *)
Lemma get_tick_range_negative_step (self : NumberLine) :
  x_step self < 0 -> x_min self < x_max self -> get_tick_range self = Ok [].
Proof.
  intros Hs Hlt. pose proof (effective_x_max_ge self) as Hge.
  destruct (same_sign self) eqn:E.
  - rewrite get_tick_range_same_sign, arange_ok by (assumption || lra).
    rewrite arange_len_neg_step by lra. reflexivity.
  - rewrite get_tick_range_straddling by (assumption || lra).
    assert (H0 : 0 <= effective_x_max self).
    { destruct (Qlt_le_dec (effective_x_max self) 0) as [Hn | Hn];
        [| exact Hn].
      assert (same_sign self = true); [| congruence].
      apply same_sign_true. left. split; lra. }
    assert (Hsp : start_point self <= 0).
    { rewrite start_point_eq. destruct (exclude_origin_tick self); lra. }
    pose proof (Qabs_nonneg (x_min self)) as Habs.
    unfold np.abs, epsilon.
    rewrite !arange_len_neg_step by (unfold epsilon in *; lra).
    reflexivity.
Qed.

Lemma add_ticks_zero_step (self : NumberLine) :
  x_step self == 0 -> add_ticks self = Raise ValueError.
Proof.
  intro H. unfold add_ticks. now rewrite get_tick_range_zero_step.
Qed.

Lemma add_ticks_negative_step (self : NumberLine) :
  x_step self < 0 -> x_min self < x_max self ->
  add_ticks self = Ok (set_ticks [] (add (SubTicks []) self)).
Proof.
  intros Hs Hlt. unfold add_ticks.
  now rewrite get_tick_range_negative_step.
Qed.

(** C1, as it holds of the code.  [__init__] does not check [x_range].  When
    ticks are requested, a zero step makes the construction raise (inside
    [np.arange]).  A negative step is accepted: for [x_min < x_max], an
    interval less than [2 ^ 60] steps wide and the other arguments at their
    defaults, the instance is produced, with an empty group of ticks. *)
Theorem construction_checks_nothing (lo hi st : Q) :
  (forall a : Args,
      arg_x_range a = Some [lo; hi; st] ->
      arg_include_ticks a = true ->
      st == 0 ->
      exists e, init frame_x_radius leading_glyph_width a = Raise e)
  /\ (st < 0 -> lo < hi ->
      Qabs lo + Qabs hi + 1 <= inject_Z (2 ^ 60) * - st ->
      exists self,
        init frame_x_radius leading_glyph_width (default_args [lo; hi; st])
        = Ok self
        /\ x_min self = lo /\ x_max self = hi /\ x_step self = st
        /\ ticks self = Some []).
Proof.
  split.
  - intros a Hx Hticks H0.
    assert (Ex : normalized_x_range frame_x_radius a = [lo; hi; st])
      by (unfold normalized_x_range; now rewrite Hx).
    rewrite (init_eq a lo hi st Ex), Hticks.
    destruct (configured_attrs a lo hi st) as [_ [_ [Hstep _]]].
    rewrite add_ticks_zero_step by (now rewrite Hstep).
    simpl. eauto.
  - intros Hs Hlt _.
    assert (Ex : normalized_x_range frame_x_radius (default_args [lo; hi; st])
                 = [lo; hi; st]) by reflexivity.
    rewrite (init_eq _ lo hi st Ex).
    destruct (configured_attrs (default_args [lo; hi; st]) lo hi st)
      as [Hmin [Hmax [Hstep _]]].
    cbn [arg_include_ticks default_args].
    rewrite add_ticks_negative_step
      by (rewrite ?Hmin, ?Hmax, ?Hstep; assumption).
    cbn [Py.bind arg_include_numbers arg_numbers_to_include default_args orb].
    eexists. split; [reflexivity |].
    repeat split; assumption.
Qed.

(** C7.  The shift decision reads the line's own [label_direction], not the
    direction the label is placed in.  On a line whose [label_direction] is
    [DOWN], the label of -3 placed towards [LEFT] is shifted although [LEFT]
    has a non-zero horizontal component; on a line whose [label_direction] is
    [LEFT], the label of -3 placed towards [DOWN] is not shifted although
    [DOWN] has none. *)
Theorem label_shift_ignores_direction :
  (exists m,
      get_number_mobject leading_glyph_width
        (line_with_label_direction DOWN) (-3) (Some LEFT) None = Ok m
      /\ is_shifted m = true /\ ~ vx LEFT == 0)
  /\ (exists m,
         get_number_mobject leading_glyph_width
           (line_with_label_direction LEFT) (-3) (Some DOWN) None = Ok m
         /\ is_shifted m = false /\ vx DOWN == 0).
Proof.
  split; eexists; (split; [reflexivity |]); split;
    try reflexivity; vm_compute; discriminate.
Qed.

(** When the direction is left to its default the rule of the claim holds:
    the label is shifted, by half the width of its leading glyph to the left,
    exactly when [x < 0] and the direction has a zero first component. *)
Lemma label_shift_default_direction (self : NumberLine) (x : Q) (buff : option Q) :
  ~ x_max self == x_min self ->
  exists m,
    get_number_mobject leading_glyph_width self x None buff = Ok m
    /\ (is_shifted m = true <-> x < 0 /\ vx (label_direction self) == 0)
    /\ (is_shifted m = true ->
        exists placed,
          ops m = ops placed
                  ++ [OpShift (vdiv (vscale (leading_glyph_width placed) LEFT)
                                 2)]
          /\ is_shifted placed = false).
Proof.
  intro Hd.
  destruct (get_number_mobject_ok self x None buff Hd) as [alpha [_ H]].
  rewrite H. cbv zeta.
  destruct (Py.ltb x 0 && Qeq_bool (vx (label_direction self)) 0) eqn:E.
  - eexists. split; [reflexivity |].
    apply andb_true_iff in E as [E1 E2].
    apply ltb_lt in E1. apply Qeq_bool_iff in E2.
    split.
    + split; [intros _; now split | intros _; reflexivity].
    + intros _. eexists. split; reflexivity.
  - eexists. split; [reflexivity |]. simpl.
    split; [| discriminate]. split; [discriminate |].
    intros [H1 H2]. apply ltb_lt in H1. apply Qeq_bool_iff in H2.
    rewrite H1 in E. simpl in E. congruence.
Qed.

End ConstructionProperties.


Lemma construction_checks_nothing_witness :
  exists self,
    init default_frame_x_radius example_glyph_width (default_args [-4; 4; -(1)])
    = Ok self
    /\ ticks self = Some [].
Proof.
  destruct (construction_checks_nothing default_frame_x_radius
              example_glyph_width (-4) 4 (-(1))) as [_ H].
  destruct H as [self [Hi [_ [_ [_ Ht]]]]];
    [vm_compute; reflexivity | vm_compute; reflexivity
    | vm_compute; discriminate |].
  exists self. split; [exact Hi | exact Ht].
Defined.

(** [x_range = [-4, 4, -1]] has a non-positive step, and the construction
    with the default arguments produces an instance. *)
Lemma negative_step_constructs :
  exists self,
    init default_frame_x_radius example_glyph_width (default_args [-4; 4; -(1)])
    = Ok self
    /\ x_step self <= 0.
Proof.
  eexists. split; [vm_compute; reflexivity |].
  vm_compute. discriminate.
Qed.

(** ** Geometry *)

Section GeometryProperties.

Import Geometry.
Import Lra.
Local Open Scope R_scope.

Lemma dot_self_nonneg (v : Point) : 0 <= dot v v.
Proof. destruct v as [[a b] c]. unfold dot. nra. Qed.

Lemma norm_sqr (v : Point) : norm v * norm v = dot v v.
Proof. unfold norm. apply sqrt_sqrt, dot_self_nonneg. Qed.

Lemma norm_pos (v : Point) : 0 < dot v v -> 0 < norm v.
Proof. intro H. unfold norm. now apply sqrt_lt_R0. Qed.

Lemma fdiv_some (a b : R) : b <> 0 -> fdiv a b = Some (a / b).
Proof.
  intro H. unfold fdiv. destruct (Req_dec_T b 0); [contradiction | reflexivity].
Qed.

Lemma fdiv_zero (a : R) : fdiv a 0 = None.
Proof.
  unfold fdiv. destruct (Req_dec_T 0 0) as [_ | H]; [reflexivity |].
  now contradiction H.
Qed.

(** The offset of an interpolated point is [alpha] times the direction. *)
Lemma interpolate_offset (s e : Point) (alpha : R) :
  vsub (interpolate s e alpha) s = smul alpha (vsub e s).
Proof.
  destruct s as [[a b] c], e as [[d f] g].
  unfold interpolate, vsub, vadd, smul. f_equal; [f_equal |]; ring.
Qed.

Lemma dot_smul_l (k : R) (u v : Point) : dot (smul k u) v = k * dot u v.
Proof.
  destruct u as [[a b] c], v as [[d f] g]. unfold dot, smul. ring.
Qed.

Lemma dot_smul_r (k : R) (u v : Point) : dot u (smul k v) = k * dot u v.
Proof.
  destruct u as [[a b] c], v as [[d f] g]. unfold dot, smul. ring.
Qed.

(** On a segment with distinct end points, [point_to_number] recovers the
    interpolation parameter of every point of the line through them. *)
Lemma proportion_of_interpolate (s : Segment) (alpha : R) :
  0 < dot (vsub (get_end s) (get_start s)) (vsub (get_end s) (get_start s)) ->
  let u := normalize (vsub (get_end s) (get_start s)) in
  fdiv (dot (vsub (interpolate (get_start s) (get_end s) alpha) (get_start s)) u)
       (dot (vsub (get_end s) (get_start s)) u)
  = Some alpha.
Proof.
  intros Hd u. set (d := vsub (get_end s) (get_start s)) in *.
  pose proof (norm_pos d Hd) as Hn. pose proof (norm_sqr d) as Hsq.
  assert (Hu : u = smul (/ norm d) d).
  { unfold u, normalize. destruct (Rlt_dec 0 (norm d)); [reflexivity |].
    contradiction. }
  rewrite interpolate_offset. fold d.
  rewrite Hu, dot_smul_l, !dot_smul_r.
  assert (Hne : / norm d * dot d d <> 0).
  { rewrite <- Hsq.
    replace (/ norm d * (norm d * norm d)) with (norm d) by (field; lra).
    lra. }
  rewrite fdiv_some by exact Hne. f_equal. field.
  split; lra.
Qed.

Lemma Q2R_alpha (lo hi x : Q) :
  (lo < hi)%Q ->
  interpolate1 (Q2R lo) (Q2R hi) (Q2R ((x - lo) / (hi - lo))) = Q2R x.
Proof.
  intro H. unfold interpolate1.
  assert (Hne : ~ (hi - lo == 0)%Q) by Lqa.lra.
  rewrite Q2R_div by exact Hne. rewrite !Q2R_minus.
  apply Qlt_Rlt in H. field. lra.
Qed.

(** The round trip on any segment with distinct end points, however it was
    scaled, moved or rotated. *)
Lemma round_trip_on_segment (self : NumberLine) (s : Segment) (x : Q) :
  (x_min self < x_max self)%Q ->
  0 < dot (vsub (get_end s) (get_start s)) (vsub (get_end s) (get_start s)) ->
  exists p,
    number_to_point self s x = Ok p
    /\ point_to_number self s p = Some (Q2R x).
Proof.
  intros Hlt Hd. unfold number_to_point.
  rewrite number_to_point_alpha_ok by Lqa.lra.
  eexists. split; [reflexivity |].
  unfold point_to_number.
  rewrite (proportion_of_interpolate s _ Hd).
  f_equal. now apply Q2R_alpha.
Qed.

(** With coinciding end points the proportion is 0 / 0. *)
Lemma point_to_number_degenerate (self : NumberLine) (s : Segment) (p : Point) :
  get_end s = get_start s -> point_to_number self s p = None.
Proof.
  intro H. unfold point_to_number. rewrite H.
  assert (E : dot (vsub (get_start s) (get_start s))
                  (normalize (vsub (get_start s) (get_start s))) = 0).
  { destruct (get_start s) as [[a b] c].
    destruct (normalize (vsub (a, b, c) (a, b, c))) as [[d f] g].
    unfold dot, vsub. ring. }
  rewrite E, fdiv_zero. reflexivity.
Qed.

(** The segment built from [Line(a * RIGHT, b * RIGHT)] by scaling with a
    non-zero factor, centring and rotating has distinct end points. *)
Lemma built_segment_direction (a b f angle : R) :
  let s := rotate angle
             (center (scale f (mkSegment (smul a RIGHT) (smul b RIGHT)))) in
  dot (vsub (get_end s) (get_start s)) (vsub (get_end s) (get_start s))
  = (f * (b - a)) * (f * (b - a)).
Proof.
  pose proof (sin2_cos2 angle) as Hsc. unfold Rsqr in Hsc.
  cbv [rotate rotate_about center scale get_center get_start get_end
       vsub vadd smul dot rot_z RIGHT].
  set (c := cos angle) in *. set (sn := sin angle) in *.
  transitivity ((f * (b - a)) * (f * (b - a)) * (sn * sn + c * c));
    [ring | rewrite Hsc; ring].
Qed.

Lemma line_length (a b : R) :
  a < b -> get_length (mkSegment (smul a RIGHT) (smul b RIGHT)) = b - a.
Proof.
  intro H. unfold get_length, norm. cbv [get_start get_end vsub smul dot RIGHT].
  replace ((b * 1 - a * 1) * (b * 1 - a * 1)
           + (b * 0 - a * 0) * (b * 0 - a * 0)
           + (b * 0 - a * 0) * (b * 0 - a * 0))
    with ((b - a) * (b - a)) by ring.
  apply sqrt_square. lra.
Qed.

Lemma Q2R_nonzero (q : Q) : ~ (q == 0)%Q -> Q2R q <> 0.
Proof.
  intros H E. apply H. apply eqR_Qeq. rewrite E. unfold Q2R. simpl. lra.
Qed.

(** The scale factor that [__init__] applies to the unit-step segment. *)
Lemma segment_built (self : NumberLine) :
  (x_min self < x_max self)%Q ->
  (truthy (length self) = false -> ~ (unit_size self == 0)%Q) ->
  exists f,
    f <> 0
    /\ segment self
       = Some (rotate (Q2R (rotation self))
                 (center (scale f (mkSegment (smul (Q2R (x_min self)) RIGHT)
                                             (smul (Q2R (x_max self)) RIGHT))))).
Proof.
  intros Hlt Hu. apply Qlt_Rlt in Hlt. unfold segment.
  destruct (length self) as [l |] eqn:El.
  - destruct (truthy (Some l)) eqn:Et.
    + unfold set_length. rewrite line_length by exact Hlt.
      rewrite fdiv_some by lra.
      exists (Q2R l / (Q2R (x_max self) - Q2R (x_min self))).
      split; [| reflexivity].
      simpl in Et. apply negb_true_iff, Qeq_bool_neq, Q2R_nonzero in Et.
      intro E. apply Et.
      apply (Rmult_eq_compat_r (Q2R (x_max self) - Q2R (x_min self))) in E.
      field_simplify in E; lra.
    + exists (Q2R (unit_size self)). split; [| reflexivity].
      apply Q2R_nonzero, Hu. reflexivity.
  - exists (Q2R (unit_size self)). split; [| reflexivity].
    apply Q2R_nonzero, Hu. reflexivity.
Qed.

(** C2, as it holds of the code.  For a line with [x_min < x_max], whatever the rotation and
    the configured length, and for any non-zero [unit_size] when no length is
    configured, [point_to_number (number_to_point x)] is [x], for every number
    [x]. *)
Theorem point_to_number_inverts (self : NumberLine) (x : Q) :
  (x_min self < x_max self)%Q ->
  (truthy (length self) = false -> ~ (unit_size self == 0)%Q) ->
  exists s p,
    segment self = Some s
    /\ number_to_point self s x = Ok p
    /\ point_to_number self s p = Some (Q2R x).
Proof.
  intros Hlt Hu.
  destruct (segment_built self Hlt Hu) as [f [Hf Hs]].
  eexists.
  destruct (round_trip_on_segment self
              (rotate (Q2R (rotation self))
                 (center (scale f (mkSegment (smul (Q2R (x_min self)) RIGHT)
                                             (smul (Q2R (x_max self)) RIGHT)))))
              x Hlt) as [p [Hp1 Hp2]].
  - rewrite built_segment_direction. apply Qlt_Rlt in Hlt.
    apply Rsqr_pos_lt, Rmult_integral_contrapositive_currified; lra.
  - exists p. split; [exact Hs |]. split; [exact Hp1 | exact Hp2].
Qed.

Lemma point_to_number_inverts_witness :
  exists s p,
    segment rotated_line = Some s
    /\ number_to_point rotated_line s (-3) = Ok p
    /\ point_to_number rotated_line s p = Some (Q2R (-3)).
Proof.
  apply (point_to_number_inverts rotated_line (-3)).
  - vm_compute. reflexivity.
  - vm_compute. discriminate.
Defined.

(** Scaling by zero collapses the segment onto its centre. *)
Lemma scale_zero_collapses (angle : R) (s : Segment) :
  get_end (rotate angle (center (scale 0 s)))
  = get_start (rotate angle (center (scale 0 s))).
Proof.
  destruct s as [[[a b] c] [[d e] f]].
  cbv [rotate rotate_about center scale get_center get_start get_end
       vsub vadd smul rot_z].
  f_equal; [f_equal |]; ring.
Qed.

(** With [unit_size = 0] and no length the segment collapses; the point of
    the number 1 is mapped back to no number at all (0 / 0). *)
Lemma zero_unit_size_breaks_round_trip :
  (x_min collapsed_line < x_max collapsed_line)%Q
  /\ exists s p,
       segment collapsed_line = Some s
       /\ number_to_point collapsed_line s 1 = Ok p
       /\ point_to_number collapsed_line s p = None
       /\ point_to_number collapsed_line s p <> Some (Q2R 1).
Proof.
  split; [vm_compute; reflexivity |].
  assert (Hs : exists s, segment collapsed_line = Some s
                         /\ get_end s = get_start s).
  { eexists. split; [reflexivity |].
    assert (E : Q2R (unit_size collapsed_line) = 0)
      by (unfold Q2R; simpl; lra).
    rewrite E. apply scale_zero_collapses. }
  destruct Hs as [s [Hs Hc]].
  exists s. eexists. split; [exact Hs |].
  split; [reflexivity |].
  rewrite point_to_number_degenerate by exact Hc.
  split; [reflexivity | discriminate].
Qed.

End GeometryProperties.

(* ===================================================================== *)
(** * Further properties                                                   *)
(* ===================================================================== *)

(** ** Tick ranges: symmetry *)



(** ** Ticks *)





(** ** Number labels *)

(** A loop whose bodies agree on the elements it visits gives the same
    result. *)
Lemma for_each_ext {A S : Type} (f g : S -> A -> result S) (xs : list A) :
  (forall acc x, In x xs -> f acc x = g acc x) ->
  forall acc, Py.for_each f xs acc = Py.for_each g xs acc.
Proof.
  induction xs as [| x xs IH]; intros H acc; simpl; [reflexivity |].
  rewrite (H acc x) by now left.
  destruct (g acc x) as [acc' | e]; simpl; [| reflexivity].
  apply IH. intros a y Hy. apply H. now right.
Qed.

Section LabelProperties.

Variable frame_x_radius : Q.
Variable leading_glyph_width : DecimalNumber -> Q.

Lemma add_numbers_labels (self : NumberLine) (x_values excluding : option (list Q)) :
  add_numbers leading_glyph_width self x_values excluding
  = (labels <- number_labels leading_glyph_width self x_values excluding ;;
     Ok (set_numbers labels (add (SubNumbers labels) self))).
Proof.
  unfold add_numbers, number_labels.
  destruct (match x_values with
            | None => get_tick_range self
            | Some xs => Ok xs
            end); reflexivity.
Qed.

(** The labels depend on the configuration only, not on what is attached. *)
Lemma number_labels_attached (self : NumberLine) (m : Submobject)
    (ns : list DecimalNumber) (x_values excluding : option (list Q)) :
  number_labels leading_glyph_width (set_numbers ns (add m self))
                x_values excluding
  = number_labels leading_glyph_width self x_values excluding.
Proof. reflexivity. Qed.



(** X10.  An excluded value that is not a tick has no effect: adding it to
    the exclusion list leaves the result of [add_numbers] unchanged. *)
Theorem excluding_a_non_tick_changes_nothing (self : NumberLine)
    (v : Q) (excluding : list Q) :
  (forall xs, get_tick_range self = Ok xs -> ~ InQ v xs) ->
  add_numbers leading_glyph_width self None (Some (v :: excluding))
  = add_numbers leading_glyph_width self None (Some excluding).
Proof.
  intro Hv. unfold add_numbers.
  destruct (get_tick_range self) as [xs | e] eqn:Hr; [| reflexivity].
  cbn [Py.bind]. specialize (Hv xs eq_refl).
  rewrite (for_each_ext
             (fun numbers x =>
                if Py.contains x (v :: excluding) then Ok numbers
                else m <- get_number_mobject leading_glyph_width self x
                            None None ;;
                     Ok (numbers ++ [m]))
             (fun numbers x =>
                if Py.contains x excluding then Ok numbers
                else m <- get_number_mobject leading_glyph_width self x
                            None None ;;
                     Ok (numbers ++ [m]))); [reflexivity |].
  intros acc x Hx. unfold Py.contains at 1. simpl.
  destruct (Qeq_bool v x) eqn:E; [| reflexivity].
  exfalso. apply Hv. exists x. split; [exact Hx |].
  apply Qeq_bool_iff in E. now symmetry.
Qed.

(** X11.  [add_numbers] does not replace what an earlier call attached:
    calling it twice with the same arguments builds the same labels twice,
    appends a second group to the submobjects and leaves the ticks alone. *)
Theorem add_numbers_twice_accumulates (self s1 : NumberLine)
    (x_values excluding : option (list Q)) :
  add_numbers leading_glyph_width self x_values excluding = Ok s1 ->
  exists labels s2,
    numbers s1 = Some labels
    /\ submobjects s1 = submobjects self ++ [SubNumbers labels]
    /\ add_numbers leading_glyph_width s1 x_values excluding = Ok s2
    /\ numbers s2 = Some labels
    /\ submobjects s2
       = submobjects self ++ [SubNumbers labels; SubNumbers labels]
    /\ ticks s2 = ticks self.
Proof.
  intro H. rewrite add_numbers_labels in H.
  destruct (number_labels leading_glyph_width self x_values excluding)
    as [labels | e] eqn:El; simpl in H; [| discriminate].
  injection H as <-. exists labels. eexists.
  split; [reflexivity |]. split; [reflexivity |].
  split.
  { rewrite add_numbers_labels, number_labels_attached, El. reflexivity. }
  split; [reflexivity |]. split; [| reflexivity].
  simpl. now rewrite <- app_assoc.
Qed.

End LabelProperties.


Lemma excluding_a_non_tick_changes_nothing_witness :
  add_numbers example_glyph_width (line_of_range (-4) 4 2 false false) None
    (Some [3; 2])
  = add_numbers example_glyph_width (line_of_range (-4) 4 2 false false) None
      (Some [2]).
Proof.
  apply (excluding_a_non_tick_changes_nothing example_glyph_width
           (line_of_range (-4) 4 2 false false) 3 [2]).
  intros xs Hr.
  assert (Hc : get_tick_range (line_of_range (-4) 4 2 false false)
               = Ok [-4; -2; 0; 2; 4]) by (vm_compute; reflexivity).
  assert (E : xs = [-4; -2; 0; 2; 4]) by congruence.
  rewrite E. intros [y [Hy He]]. simpl in Hy.
  repeat (destruct Hy as [<- | Hy]; [vm_compute in He; discriminate |]).
  exact Hy.
Defined.

Lemma add_numbers_twice_accumulates_witness :
  exists s1 labels s2,
    add_numbers example_glyph_width (line_of_range (-4) 4 2 false false)
      None None = Ok s1
    /\ add_numbers example_glyph_width s1 None None = Ok s2
    /\ submobjects s2 = [SubNumbers labels; SubNumbers labels].
Proof.
  destruct (add_numbers example_glyph_width
              (line_of_range (-4) 4 2 false false) None None)
    as [s1 | e] eqn:E; [| vm_compute in E; discriminate].
  destruct (add_numbers_twice_accumulates example_glyph_width
              (line_of_range (-4) 4 2 false false) s1 None None E)
    as [labels [s2 [_ [_ [H2 [_ [Hs _]]]]]]].
  exists s1, labels, s2. split; [reflexivity |]. split; [exact H2 | exact Hs].
Defined.

(** ** Construction *)

Lemma Qfloor_unique (y : Q) (z : Z) :
  inject_Z z <= y -> y < inject_Z (z + 1) -> Qfloor y = z.
Proof.
  intros H1 H2.
  assert (Ha : (z <= Qfloor y)%Z).
  { rewrite <- (Qfloor_Z z). now apply Qfloor_resp_le. }
  assert (Hb : (Qfloor y < z + 1)%Z).
  { rewrite Zlt_Qlt. apply Qle_lt_trans with y; [apply Qfloor_le | exact H2]. }
  lia.
Qed.

(** Python's [round] is odd: ties go to the even integer on both sides. *)
Lemma round_opp (x : Q) : Py.round (- x) = (- Py.round x)%Z.
Proof.
  unfold Py.round. cbv zeta.
  pose proof (Qfloor_le x) as Hlo. pose proof (Qlt_floor x) as Hhi.
  remember (Qfloor x) as f eqn:Hf. clear Hf.
  rewrite inject_Z_plus in Hhi. change (inject_Z 1) with 1 in Hhi.
  destruct (Qeq_dec x (inject_Z f)) as [Hint | Hfrac].
  - assert (Ef : Qfloor (- x) = (- f)%Z).
    { apply Qfloor_unique; rewrite ?inject_Z_plus, inject_Z_opp;
        change (inject_Z 1) with 1; lra. }
    rewrite Ef, inject_Z_opp.
    assert (E1 : Qcompare (- x - - inject_Z f) (1 # 2) = Lt)
      by (apply (proj1 (Qlt_alt _ _)); lra).
    assert (E2 : Qcompare (x - inject_Z f) (1 # 2) = Lt)
      by (apply (proj1 (Qlt_alt _ _)); lra).
    now rewrite E1, E2.
  - assert (Hgt : inject_Z f < x).
    { destruct (Qlt_le_dec (inject_Z f) x) as [H | H]; [exact H |].
      exfalso. apply Hfrac. lra. }
    assert (Ef : Qfloor (- x) = (- (f + 1))%Z).
    { apply Qfloor_unique;
        rewrite ?inject_Z_plus, ?inject_Z_opp, ?inject_Z_plus;
        change (inject_Z 1) with 1; lra. }
    rewrite Ef, inject_Z_opp, inject_Z_plus. change (inject_Z 1) with 1.
    assert (Hev : Z.even (- (f + 1)) = negb (Z.even f)).
    { replace (f + 1)%Z with (Z.succ f) by lia.
      now rewrite Z.even_opp, Z.even_succ, Z.negb_even. }
    destruct (Qcompare_spec (x - inject_Z f) (1 # 2)) as [E | L | G].
    + assert (E1 : Qcompare (- x - - (inject_Z f + 1)) (1 # 2) = Eq)
        by (apply (proj1 (Qeq_alt _ _)); lra).
      rewrite E1, Hev. destruct (Z.even f); simpl; lia.
    + assert (E1 : Qcompare (- x - - (inject_Z f + 1)) (1 # 2) = Gt)
        by (apply (proj1 (Qgt_alt _ _)); lra).
      rewrite E1. lia.
    + assert (E1 : Qcompare (- x - - (inject_Z f + 1)) (1 # 2) = Lt)
        by (apply (proj1 (Qlt_alt _ _)); lra).
      rewrite E1. lia.
Qed.

Section InitProperties.

Variable frame_x_radius : Q.
Variable leading_glyph_width : DecimalNumber -> Q.

Lemma init_same_range (a b : Args) (lo hi st : Q) :
  normalized_x_range frame_x_radius a = [lo; hi; st] ->
  normalized_x_range frame_x_radius b = [lo; hi; st] ->
  with_x_range None a = with_x_range None b ->
  init frame_x_radius leading_glyph_width a
  = init frame_x_radius leading_glyph_width b.
Proof.
  intros Ha Hb E.
  rewrite (init_eq frame_x_radius leading_glyph_width a lo hi st Ha).
  rewrite (init_eq frame_x_radius leading_glyph_width b lo hi st Hb).
  unfold with_x_range in E. injection E as E1 E2 E3 E4 E5 E6 E7 E8 E9 E10
    E11 E12 E13 E14 E15.
  unfold configured.
  rewrite E1, E2, E3, E4, E5, E6, E7, E8, E9, E10, E11, E12, E13, E14, E15.
  reflexivity.
Qed.

(** X12.  How [__init__] reads [x_range]: two numbers are completed with the
    step 1; a list of any length other than 2 or 3 raises; and without
    [x_range] the range is [[-r, r, 1]] for [r = round(frame_x_radius)],
    symmetric about zero. *)
Theorem x_range_forms (a : Args) :
  (forall lo hi, arg_x_range a = Some [lo; hi] ->
     init frame_x_radius leading_glyph_width a
     = init frame_x_radius leading_glyph_width
         (with_x_range (Some [lo; hi; 1]) a))
  /\ (forall l, arg_x_range a = Some l ->
        List.length l <> 2%nat -> List.length l <> 3%nat ->
        init frame_x_radius leading_glyph_width a = Raise ValueError)
  /\ (arg_x_range a = None ->
      init frame_x_radius leading_glyph_width a
      = init frame_x_radius leading_glyph_width
          (with_x_range
             (Some [- inject_Z (Py.round frame_x_radius);
                    inject_Z (Py.round frame_x_radius); 1]) a)).
Proof.
  split; [| split].
  - intros lo hi H.
    apply (init_same_range _ _ lo hi 1); try reflexivity.
    unfold normalized_x_range. now rewrite H.
  - intros l H H2 H3. apply init_bad_x_range.
    intros lo hi st. unfold normalized_x_range. rewrite H.
    destruct l as [| q0 [| q1 [| q2 [| q3 l]]]]; simpl in *;
      try discriminate; congruence.
  - intro H.
    apply (init_same_range _ _ (- inject_Z (Py.round frame_x_radius))
             (inject_Z (Py.round frame_x_radius)) 1); try reflexivity.
    unfold normalized_x_range. rewrite H, round_opp. reflexivity.
Qed.

(** A completed construction returns the configured instance with some
    submobjects, ticks and numbers. *)
Lemma init_shape (a : Args) (self : NumberLine) :
  init frame_x_radius leading_glyph_width a = Ok self ->
  exists lo hi st,
    normalized_x_range frame_x_radius a = [lo; hi; st]
    /\ exists s,
         (if arg_include_ticks a
          then exists ts,
              s = set_ticks ts (add (SubTicks ts) (configured a lo hi st))
          else s = configured a lo hi st)
         /\ (if arg_include_numbers a
                || match arg_numbers_to_include a with
                   | Some _ => true | None => false end
             then exists ns, self = set_numbers ns (add (SubNumbers ns) s)
             else self = s).
Proof.
  intro Hinit.
  destruct (normalized_x_range frame_x_radius a)
    as [| lo [| hi [| st [| q l]]]] eqn:Ex;
    try (rewrite init_bad_x_range in Hinit;
         [discriminate | intros; rewrite Ex; discriminate]).
  exists lo, hi, st. split; [reflexivity |].
  rewrite (init_eq frame_x_radius leading_glyph_width a lo hi st Ex) in Hinit.
  assert (Hs : exists s,
             (if arg_include_ticks a then add_ticks (configured a lo hi st)
              else Ok (configured a lo hi st)) = Ok s
             /\ (if arg_include_ticks a
                 then exists ts,
                     s = set_ticks ts (add (SubTicks ts) (configured a lo hi st))
                 else s = configured a lo hi st)).
  { destruct (arg_include_ticks a).
    - destruct (add_ticks (configured a lo hi st)) as [s | e] eqn:E;
        [| discriminate].
      exists s. split; [reflexivity |]. now apply add_ticks_inv.
    - eexists. split; reflexivity. }
  destruct Hs as [s [Es Hshape]]. rewrite Es in Hinit. cbn [Py.bind] in Hinit.
  exists s. split; [exact Hshape |].
  destruct (arg_include_numbers a
            || match arg_numbers_to_include a with
               | Some _ => true | None => false end).
  - rewrite add_numbers_labels in Hinit.
    destruct (number_labels leading_glyph_width s (numbers_to_include s)
                (Some (numbers_to_exclude s))) as [ns | e];
      simpl in Hinit; [| discriminate].
    injection Hinit as <-. now exists ns.
  - now injection Hinit as <-.
Qed.

(** X14.  What a completed construction holds: the range and the arguments
    as given, and as submobjects the tip (if requested), then the group of
    ticks (if requested), then the group of number labels (if
    [include_numbers] is set or [numbers_to_include] is given), in this
    order and nothing else. *)
Theorem construction_result (a : Args) (self : NumberLine) :
  init frame_x_radius leading_glyph_width a = Ok self ->
  normalized_x_range frame_x_radius a = [x_min self; x_max self; x_step self]
  /\ include_tip self = arg_include_tip a
  /\ exclude_origin_tick self = arg_exclude_origin_tick a
  /\ label_direction self = arg_label_direction a
  /\ numbers_to_include self = arg_numbers_to_include a
  /\ length self = arg_length a
  /\ submobjects self
     = (if arg_include_tip a then [SubTip] else [])
       ++ match ticks self with Some ts => [SubTicks ts] | None => [] end
       ++ match numbers self with Some ns => [SubNumbers ns] | None => [] end
  /\ (ticks self = None <-> arg_include_ticks a = false)
  /\ (numbers self = None
      <-> arg_include_numbers a = false /\ arg_numbers_to_include a = None).
Proof.
  intro Hinit.
  destruct (init_shape a self Hinit) as [lo [hi [st [Ex [s [Hshape Hfin]]]]]].
  rewrite Ex. clear Hinit Ex.
  unfold configured in Hshape.
  destruct (arg_include_ticks a), (arg_include_tip a),
    (arg_include_numbers a), (arg_numbers_to_include a);
    simpl in Hfin, Hshape;
    repeat match goal with
           | H : exists _, _ |- _ => destruct H as [? H]
           end;
    subst; simpl; repeat split; intros; try discriminate; try reflexivity;
    try tauto;
    match goal with
    | H : _ /\ _ |- _ => destruct H; discriminate
    end.
Qed.

(** The configuration stored by a completed construction. *)
Lemma init_unit_size (a : Args) (self : NumberLine) :
  init frame_x_radius leading_glyph_width a = Ok self ->
  length self = arg_length a
  /\ unit_size self
     = if truthy (arg_length a)
       then match arg_length a with
            | Some l => Qabs l / (x_max self - x_min self)
            | None => arg_unit_size a
            end
       else arg_unit_size a.
Proof.
  intro Hinit.
  destruct (init_shape a self Hinit) as [lo [hi [st [_ [s [Hshape Hfin]]]]]].
  unfold configured in Hshape.
  destruct (arg_include_ticks a), (arg_include_tip a),
    (arg_include_numbers a
     || match arg_numbers_to_include a with
        | Some _ => true | None => false end);
    repeat match goal with
           | H : exists _, _ |- _ => destruct H as [? H]
           end;
    subst; simpl; split; reflexivity.
Qed.

End InitProperties.

Lemma x_range_forms_witness :
  init default_frame_x_radius example_glyph_width
    (with_x_range (Some [-3; 3]) (default_args []))
  = init default_frame_x_radius example_glyph_width
      (with_x_range (Some [-3; 3; 1]) (with_x_range (Some [-3; 3])
                                         (default_args []))).
Proof.
  apply (x_range_forms default_frame_x_radius example_glyph_width
           (with_x_range (Some [-3; 3]) (default_args []))).
  reflexivity.
Defined.

Lemma construction_result_witness :
  exists self,
    init default_frame_x_radius example_glyph_width (default_args [-4; 4; 2])
    = Ok self
    /\ submobjects self
       = match ticks self with Some ts => [SubTicks ts] | None => [] end.
Proof.
  destruct (init default_frame_x_radius example_glyph_width
              (default_args [-4; 4; 2])) as [self | e] eqn:E;
    [| vm_compute in E; discriminate].
  exists self. split; [reflexivity |].
  destruct (construction_result default_frame_x_radius example_glyph_width
              (default_args [-4; 4; 2]) self E)
    as [_ [_ [_ [_ [_ [_ [Hsub [_ Hnum]]]]]]]].
  rewrite Hsub. simpl.
  replace (numbers self) with (@None (list DecimalNumber));
    [now rewrite app_nil_r |].
  symmetry. apply Hnum. split; reflexivity.
Defined.

(** ** Coordinate maps *)

Section CoordinateProperties.

Import Geometry.
Import Lra.
Local Open Scope R_scope.

Lemma Q2R_zero : Q2R 0 = 0.
Proof. unfold Q2R. simpl. lra. Qed.

Lemma Q2R_one : Q2R 1 = 1.
Proof. unfold Q2R. simpl. lra. Qed.

Lemma interpolate_0 (a b : Point) : interpolate a b 0 = a.
Proof.
  destruct a as [[a1 a2] a3], b as [[b1 b2] b3].
  unfold interpolate, vadd, smul. f_equal; [f_equal |]; ring.
Qed.

Lemma interpolate_1 (a b : Point) : interpolate a b 1 = b.
Proof.
  destruct a as [[a1 a2] a3], b as [[b1 b2] b3].
  unfold interpolate, vadd, smul. f_equal; [f_equal |]; ring.
Qed.

Lemma Q2R_alpha_value (self : NumberLine) (x : Q) :
  (x_min self < x_max self)%Q ->
  Q2R ((x - x_min self) / (x_max self - x_min self))
  = (Q2R x - Q2R (x_min self)) / (Q2R (x_max self) - Q2R (x_min self)).
Proof.
  intro H. rewrite Q2R_div by Lqa.lra. now rewrite !Q2R_minus.
Qed.

(** Distinct end points span a direction of positive length. *)
Lemma distinct_end_points (s : Segment) :
  get_end s <> get_start s ->
  0 < dot (vsub (get_end s) (get_start s)) (vsub (get_end s) (get_start s)).
Proof.
  intro Hne.
  destruct (get_end s) as [[e1 e2] e3], (get_start s) as [[a1 a2] a3].
  unfold dot, vsub.
  pose proof (Rle_0_sqr (e1 - a1)) as S1.
  pose proof (Rle_0_sqr (e2 - a2)) as S2.
  pose proof (Rle_0_sqr (e3 - a3)) as S3. unfold Rsqr in S1, S2, S3.
  destruct (Req_dec e1 a1) as [E1 | E1];
    [destruct (Req_dec e2 a2) as [E2 | E2];
     [destruct (Req_dec e3 a3) as [E3 | E3];
      [exfalso; apply Hne; congruence |] |] |].
  - assert (0 < (e3 - a3) * (e3 - a3)) by (apply Rsqr_pos_lt; lra). lra.
  - assert (0 < (e2 - a2) * (e2 - a2)) by (apply Rsqr_pos_lt; lra). lra.
  - assert (0 < (e1 - a1) * (e1 - a1)) by (apply Rsqr_pos_lt; lra). lra.
Qed.

(** X15.  [number_to_point] sends [x_min] to the start and [x_max] to the end
    of the segment, wherever the segment lies; and when its end points are
    distinct [point_to_number] sends them back to [x_min] and [x_max]. *)
Theorem end_points_correspond (self : NumberLine) (s : Segment) :
  (x_min self < x_max self)%Q ->
  number_to_point self s (x_min self) = Ok (get_start s)
  /\ number_to_point self s (x_max self) = Ok (get_end s)
  /\ (get_end s <> get_start s ->
      point_to_number self s (get_start s) = Some (Q2R (x_min self))
      /\ point_to_number self s (get_end s) = Some (Q2R (x_max self))).
Proof.
  intro Hlt. pose proof (Qlt_Rlt _ _ Hlt) as HltR.
  assert (H0 : number_to_point self s (x_min self) = Ok (get_start s)).
  { unfold number_to_point. rewrite number_to_point_alpha_ok by Lqa.lra.
    rewrite Q2R_alpha_value by exact Hlt.
    replace ((Q2R (x_min self) - Q2R (x_min self))
             / (Q2R (x_max self) - Q2R (x_min self))) with 0 by (field; lra).
    now rewrite interpolate_0. }
  assert (H1 : number_to_point self s (x_max self) = Ok (get_end s)).
  { unfold number_to_point. rewrite number_to_point_alpha_ok by Lqa.lra.
    rewrite Q2R_alpha_value by exact Hlt.
    replace ((Q2R (x_max self) - Q2R (x_min self))
             / (Q2R (x_max self) - Q2R (x_min self))) with 1 by (field; lra).
    now rewrite interpolate_1. }
  split; [exact H0 |]. split; [exact H1 |].
  intro Hne.
  pose proof (distinct_end_points s Hne) as Hd.
  split.
  - destruct (round_trip_on_segment self s (x_min self) Hlt Hd)
      as [p [Hp1 Hp2]]. congruence.
  - destruct (round_trip_on_segment self s (x_max self) Hlt Hd)
      as [p [Hp1 Hp2]]. congruence.
Qed.

Lemma dot_vadd_l (u v w : Point) : dot (vadd u v) w = dot u w + dot v w.
Proof.
  destruct u as [[u1 u2] u3], v as [[v1 v2] v3], w as [[w1 w2] w3].
  unfold dot, vadd. ring.
Qed.

Lemma vsub_vadd (p v a : Point) : vsub (vadd p v) a = vadd (vsub p a) v.
Proof.
  destruct p as [[p1 p2] p3], v as [[v1 v2] v3], a as [[a1 a2] a3].
  unfold vsub, vadd. f_equal; [f_equal |]; ring.
Qed.

(** X16.  [point_to_number] ignores the part of a point that is
    perpendicular to the segment: moving a point by a vector orthogonal to
    the segment does not change its number. *)
Theorem point_to_number_projects (self : NumberLine) (s : Segment)
    (p v : Point) :
  dot v (vsub (get_end s) (get_start s)) = 0 ->
  point_to_number self s (vadd p v) = point_to_number self s p.
Proof.
  intro Hv. unfold point_to_number.
  rewrite vsub_vadd, dot_vadd_l.
  assert (E : dot v (normalize (vsub (get_end s) (get_start s))) = 0).
  { unfold normalize.
    destruct (Rlt_dec 0 (norm (vsub (get_end s) (get_start s)))).
    - rewrite dot_smul_r, Hv. ring.
    - destruct v as [[v1 v2] v3]. unfold dot, zeros. ring. }
  rewrite E, Rplus_0_r. reflexivity.
Qed.

Lemma norm_smul (k : R) (v : Point) : norm (smul k v) = Rabs k * norm v.
Proof.
  unfold norm. rewrite dot_smul_l, dot_smul_r.
  replace (k * (k * dot v v)) with (Rsqr k * dot v v) by (unfold Rsqr; ring).
  rewrite sqrt_mult; [| apply Rle_0_sqr | apply dot_self_nonneg].
  now rewrite sqrt_Rsqr_abs.
Qed.

Lemma interpolate_diff (a b : Point) (t u : R) :
  vsub (interpolate a b t) (interpolate a b u) = smul (t - u) (vsub b a).
Proof.
  destruct a as [[a1 a2] a3], b as [[b1 b2] b3].
  unfold interpolate, vsub, vadd, smul. f_equal; [f_equal |]; ring.
Qed.

(** X17.  Distances along the line are numbers times the unit size: the
    points of [x] and [y] are [|x - y| * get_unit_size()] apart. *)
Theorem distance_is_unit_size_times_difference (self : NumberLine)
    (s : Segment) (x y : Q) :
  (x_min self < x_max self)%Q ->
  exists p q,
    number_to_point self s x = Ok p
    /\ number_to_point self s y = Ok q
    /\ norm (vsub p q) = Rabs (Q2R x - Q2R y) * get_unit_size self s.
Proof.
  intro Hlt. pose proof (Qlt_Rlt _ _ Hlt) as HltR.
  unfold number_to_point. rewrite !number_to_point_alpha_ok by Lqa.lra.
  eexists. eexists. split; [reflexivity |]. split; [reflexivity |].
  rewrite interpolate_diff, norm_smul, !Q2R_alpha_value by exact Hlt.
  unfold get_unit_size, get_length.
  replace ((Q2R x - Q2R (x_min self)) / (Q2R (x_max self) - Q2R (x_min self))
           - (Q2R y - Q2R (x_min self))
             / (Q2R (x_max self) - Q2R (x_min self)))
    with ((Q2R x - Q2R y) * / (Q2R (x_max self) - Q2R (x_min self)))
    by (field; lra).
  rewrite Rabs_mult, (Rabs_pos_eq (/ _)).
  - unfold Rdiv. ring.
  - left. apply Rinv_0_lt_compat. lra.
Qed.

Lemma Q2R_abs (q : Q) : Q2R (Qabs q) = Rabs (Q2R q).
Proof.
  destruct (Qlt_le_dec q 0) as [H | H].
  - assert (E : (Qabs q == - q)%Q) by (apply Qabs_neg; Lqa.lra).
    rewrite (Qeq_eqR _ _ E), Q2R_opp.
    apply Qlt_Rlt in H. rewrite Q2R_zero in H.
    now rewrite Rabs_left.
  - assert (E : (Qabs q == q)%Q) by (apply Qabs_pos; exact H).
    rewrite (Qeq_eqR _ _ E).
    apply Qle_Rle in H. rewrite Q2R_zero in H.
    now rewrite Rabs_pos_eq.
Qed.

(** The length of the segment built with the scale factor [f]. *)
Lemma built_segment_length (a b f angle : R) :
  a < b ->
  get_length
    (rotate angle (center (scale f (mkSegment (smul a RIGHT) (smul b RIGHT)))))
  = Rabs f * (b - a).
Proof.
  intro H. unfold get_length, norm. rewrite built_segment_direction.
  replace (f * (b - a) * (f * (b - a))) with (Rsqr (f * (b - a)))
    by (unfold Rsqr; ring).
  rewrite sqrt_Rsqr_abs, Rabs_mult, (Rabs_pos_eq (b - a)) by lra.
  reflexivity.
Qed.

Lemma built_unit_size (self : NumberLine) :
  (x_min self < x_max self)%Q ->
  exists s,
    segment self = Some s
    /\ get_unit_size self s
       = Q2R match length self with
             | Some l => if truthy (length self)
                         then (Qabs l / (x_max self - x_min self))%Q
                         else Qabs (unit_size self)
             | None => Qabs (unit_size self)
             end.
Proof.
  intro Hlt. pose proof (Qlt_Rlt _ _ Hlt) as HltR.
  assert (Hu : forall f,
             get_unit_size self
               (rotate (Q2R (rotation self))
                  (center (scale f (mkSegment (smul (Q2R (x_min self)) RIGHT)
                                              (smul (Q2R (x_max self)) RIGHT)))))
             = Rabs f).
  { intro f. unfold get_unit_size. rewrite built_segment_length by exact HltR.
    field. lra. }
  unfold segment. destruct (length self) as [l |].
  - destruct (truthy (Some l)).
    + unfold set_length. rewrite line_length by exact HltR.
      rewrite fdiv_some by lra.
      eexists. split; [reflexivity |]. rewrite Hu.
      rewrite Q2R_div by Lqa.lra. rewrite Q2R_abs, Q2R_minus.
      unfold Rdiv. rewrite Rabs_mult, (Rabs_pos_eq (/ _)); [reflexivity |].
      left. apply Rinv_0_lt_compat. lra.
    + eexists. split; [reflexivity |]. now rewrite Hu, Q2R_abs.
  - eexists. split; [reflexivity |]. now rewrite Hu, Q2R_abs.
Qed.

(** X18.  The unit size of the segment that [__init__] builds on a proper
    interval: when a length is configured it is
    [|length| / (x_max - x_min)], the value stored in [unit_size]; otherwise
    it is the absolute value of the configured [unit_size]. *)
Theorem unit_size_of_built_segment (frame_x_radius : Q)
    (leading_glyph_width : DecimalNumber -> Q) (a : Args) (self : NumberLine) :
  init frame_x_radius leading_glyph_width a = Ok self ->
  (x_min self < x_max self)%Q ->
  exists s,
    segment self = Some s
    /\ (truthy (arg_length a) = true ->
        get_unit_size self s = Q2R (unit_size self)
        /\ exists l, arg_length a = Some l
                     /\ get_unit_size self s
                        = Rabs (Q2R l)
                          / (Q2R (x_max self) - Q2R (x_min self)))
    /\ (truthy (arg_length a) = false ->
        get_unit_size self s = Rabs (Q2R (arg_unit_size a))).
Proof.
  intros Hinit Hlt.
  destruct (init_unit_size frame_x_radius leading_glyph_width a self Hinit)
    as [Hlen Hunit].
  destruct (built_unit_size self Hlt) as [s [Hs Hu]].
  exists s. split; [exact Hs |].
  rewrite Hlen in Hu. rewrite Hunit. rewrite Hunit in Hu.
  destruct (arg_length a) as [l |]; [| split; [discriminate |]].
  - destruct (truthy (Some l)); split; try discriminate; intros _.
    + split; [exact Hu |]. exists l. split; [reflexivity |].
      rewrite Hu, Q2R_div by Lqa.lra. now rewrite Q2R_abs, Q2R_minus.
    + now rewrite Hu, Q2R_abs.
  - intros _. simpl in Hu. now rewrite Hu, Q2R_abs.
Qed.

End CoordinateProperties.

Lemma unit_size_of_built_segment_witness :
  exists self s,
    init default_frame_x_radius example_glyph_width
      (mkArgs (Some [-5; 5; 1]) (Some 6) 1 true (1 # 10) None 2 (1 # 6) false
              false DOWN MED_SMALL_BUFF None None (3 # 4) false) = Ok self
    /\ Geometry.segment self = Some s
    /\ Geometry.get_unit_size self s = Q2R (unit_size self).
Proof.
  destruct (init default_frame_x_radius example_glyph_width
              (mkArgs (Some [-5; 5; 1]) (Some 6) 1 true (1 # 10) None 2
                      (1 # 6) false false DOWN MED_SMALL_BUFF None None
                      (3 # 4) false)) as [self | e] eqn:E;
    [| vm_compute in E; discriminate].
  assert (Hlt : (x_min self < x_max self)%Q).
  { vm_compute in E. injection E as <-. reflexivity. }
  destruct (unit_size_of_built_segment _ _ _ self E Hlt) as [s [Hs [Ht _]]].
  exists self, s. split; [reflexivity |]. split; [exact Hs |].
  apply Ht. reflexivity.
Defined.


Section RotationProperties.

Import Geometry.
Import Lra.
Local Open Scope R_scope.

Variable rotation_matrix : R -> Point -> Matrix.

Lemma mat_vec_zero (m : Matrix) : mat_vec m zeros = zeros.
Proof.
  destruct m as [[[[a b] c] [[d e] f]] [[g h] i]].
  unfold mat_vec, dot, zeros. f_equal; [f_equal |]; ring.
Qed.

(** A rotation about the point of parameter [alpha] keeps that point. *)
Lemma rotate_with_pivot (m : Matrix) (s : Segment) (alpha : R) :
  let about := interpolate (get_start s) (get_end s) alpha in
  interpolate (get_start (rotate_with m about s))
              (get_end (rotate_with m about s)) alpha
  = about.
Proof.
  destruct s as [[[a1 a2] a3] [[b1 b2] b3]].
  destruct m as [[[[m11 m12] m13] [[m21 m22] m23]] [[m31 m32] m33]].
  cbv [rotate_with get_start get_end interpolate vadd vsub smul mat_vec dot].
  f_equal; [f_equal |]; ring.
Qed.

(** X19.  [rotate_about_number] turns the line about the point of the given
    number: after the rotation, by any angle about any axis, that number is
    still at the same point.  [rotate_about_zero] is the case of the
    number 0. *)
Theorem rotation_keeps_the_pivot (self : NumberLine) (s : Segment)
    (number : Q) (angle : R) (axis : Point) :
  (~ (x_max self == x_min self)%Q ->
   exists s',
     rotate_about_number rotation_matrix self s number angle axis = Ok s'
     /\ number_to_point self s' number = number_to_point self s number)
  /\ rotate_about_zero rotation_matrix self s angle axis
     = rotate_about_number rotation_matrix self s 0%Q angle axis.
Proof.
  split; [| reflexivity].
  intro H. unfold rotate_about_number, number_to_point.
  rewrite number_to_point_alpha_ok by exact H.
  eexists. split; [reflexivity |].
  f_equal. apply rotate_with_pivot.
Qed.

Lemma rotate_with_direction (m : Matrix) (about : Point) (s : Segment) :
  vsub (get_end (rotate_with m about s)) (get_start (rotate_with m about s))
  = mat_vec m (vsub (get_end s) (get_start s)).
Proof.
  destruct s as [[[a1 a2] a3] [[b1 b2] b3]], about as [[c1 c2] c3].
  destruct m as [[[[m11 m12] m13] [[m21 m22] m23]] [[m31 m32] m33]].
  cbv [rotate_with get_start get_end vadd vsub mat_vec dot].
  f_equal; [f_equal |]; ring.
Qed.

(** X20.  A rotation about a number, by a matrix that preserves lengths,
    keeps the length of the segment and the two coordinate maps consistent:
    on the rotated segment [point_to_number] still inverts
    [number_to_point]. *)
Theorem rotation_keeps_the_maps (self : NumberLine) (s : Segment)
    (number : Q) (angle : R) (axis : Point) :
  (x_min self < x_max self)%Q ->
  get_end s <> get_start s ->
  (forall v, dot (mat_vec (rotation_matrix angle axis) v)
                 (mat_vec (rotation_matrix angle axis) v) = dot v v) ->
  exists s',
    rotate_about_number rotation_matrix self s number angle axis = Ok s'
    /\ get_length s' = get_length s
    /\ forall x, exists p,
         number_to_point self s' x = Ok p
         /\ point_to_number self s' p = Some (Q2R x).
Proof.
  intros Hlt Hne Hiso.
  unfold rotate_about_number, number_to_point.
  rewrite number_to_point_alpha_ok by Lqa.lra.
  eexists. split; [reflexivity |].
  pose proof (distinct_end_points s Hne) as Hd.
  split.
  - unfold get_length, norm. now rewrite rotate_with_direction, Hiso.
  - intro x. apply round_trip_on_segment; [exact Hlt |].
    now rewrite rotate_with_direction, Hiso.
Qed.

End RotationProperties.

Section UnitVector.

Import Geometry.
Import Lra.
Local Open Scope R_scope.

(** X21.  When the stored [unit_size] is the unit size of the segment,
    [get_unit_vector] is the step of one unit along the line: the point of
    [x + 1] is the point of [x] moved by it. *)
Theorem unit_vector_is_one_step (self : NumberLine) (s : Segment) (x : Q) :
  (x_min self < x_max self)%Q ->
  get_end s <> get_start s ->
  get_unit_size self s = Q2R (unit_size self) ->
  exists p q,
    number_to_point self s x = Ok p
    /\ number_to_point self s (x + 1)%Q = Ok q
    /\ q = vadd p (get_unit_vector self s).
Proof.
  intros Hlt Hne Hu. pose proof (Qlt_Rlt _ _ Hlt) as HltR.
  unfold number_to_point. rewrite !number_to_point_alpha_ok by Lqa.lra.
  eexists. eexists. split; [reflexivity |]. split; [reflexivity |].
  unfold get_unit_vector. rewrite <- Hu.
  unfold get_unit_size, get_length, normalize.
  rewrite !Q2R_alpha_value by exact Hlt. rewrite Q2R_plus, Q2R_one.
  pose proof (norm_pos _ (distinct_end_points s Hne)) as Hn.
  destruct (Rlt_dec 0 (norm (vsub (get_end s) (get_start s))))
    as [_ | Hc]; [| contradiction].
  revert Hn. generalize (norm (vsub (get_end s) (get_start s))).
  intros n Hpos.
  destruct (get_end s) as [[e1 e2] e3], (get_start s) as [[a1 a2] a3].
  unfold interpolate, vadd, vsub, smul.
  f_equal; [f_equal |]; field; split; lra.
Qed.

End UnitVector.

Section CoordinateExamples.

Import Geometry.
Import Lra.
Local Open Scope R_scope.

Lemma end_points_correspond_witness :
  number_to_point rotated_line (mkSegment (0, 0, 0) (6, 0, 0)) (-5)%Q
  = Ok (0, 0, 0).
Proof.
  destruct (end_points_correspond rotated_line
              (mkSegment (0, 0, 0) (6, 0, 0))) as [H _].
  - vm_compute. reflexivity.
  - exact H.
Defined.

Lemma point_to_number_projects_witness :
  point_to_number rotated_line (mkSegment (0, 0, 0) (6, 0, 0))
    (vadd (3, 0, 0) (0, 2, 0))
  = point_to_number rotated_line (mkSegment (0, 0, 0) (6, 0, 0)) (3, 0, 0).
Proof.
  apply (point_to_number_projects rotated_line
           (mkSegment (0, 0, 0) (6, 0, 0)) (3, 0, 0) (0, 2, 0)).
  unfold dot, vsub. simpl. ring.
Defined.

Lemma distance_is_unit_size_times_difference_witness :
  exists p q,
    number_to_point rotated_line (mkSegment (0, 0, 0) (6, 0, 0)) 1%Q = Ok p
    /\ number_to_point rotated_line (mkSegment (0, 0, 0) (6, 0, 0)) 3%Q = Ok q
    /\ norm (vsub p q)
       = Rabs (Q2R 1 - Q2R 3)
         * get_unit_size rotated_line (mkSegment (0, 0, 0) (6, 0, 0)).
Proof.
  apply (distance_is_unit_size_times_difference rotated_line
           (mkSegment (0, 0, 0) (6, 0, 0)) 1%Q 3%Q).
  vm_compute. reflexivity.
Defined.

Lemma rotation_matrix_z_isometry (angle : R) (v : Point) :
  dot (mat_vec (rotation_matrix_z angle) v)
      (mat_vec (rotation_matrix_z angle) v) = dot v v.
Proof.
  destruct v as [[a b] c].
  pose proof (sin2_cos2 angle) as H. unfold Rsqr in H.
  unfold rotation_matrix_z, mat_vec, dot.
  set (cs := cos angle) in *. set (sn := sin angle) in *.
  transitivity ((a * a + b * b) * (sn * sn + cs * cs) + c * c);
    [ring | rewrite H; ring].
Qed.

Lemma rotation_keeps_the_pivot_witness :
  exists s',
    rotate_about_number (fun angle _ => rotation_matrix_z angle) rotated_line
      (mkSegment (0, 0, 0) (6, 0, 0)) 2%Q 1 (0, 0, 1) = Ok s'
    /\ number_to_point rotated_line s' 2%Q
       = number_to_point rotated_line (mkSegment (0, 0, 0) (6, 0, 0)) 2%Q.
Proof.
  apply (rotation_keeps_the_pivot (fun angle _ => rotation_matrix_z angle)
           rotated_line (mkSegment (0, 0, 0) (6, 0, 0)) 2%Q 1 (0, 0, 1)).
  vm_compute. discriminate.
Defined.

Lemma rotation_keeps_the_maps_witness :
  exists s',
    rotate_about_number (fun angle _ => rotation_matrix_z angle) rotated_line
      (mkSegment (0, 0, 0) (6, 0, 0)) 2%Q 1 (0, 0, 1) = Ok s'
    /\ get_length s' = get_length (mkSegment (0, 0, 0) (6, 0, 0)).
Proof.
  destruct (rotation_keeps_the_maps (fun angle _ => rotation_matrix_z angle)
              rotated_line (mkSegment (0, 0, 0) (6, 0, 0)) 2%Q 1 (0, 0, 1))
    as [s' [H1 [H2 _]]].
  - vm_compute. reflexivity.
  - simpl. intro H. injection H as H. lra.
  - apply rotation_matrix_z_isometry.
  - exists s'. split; [exact H1 | exact H2].
Defined.

Lemma unit_vector_is_one_step_witness :
  exists p q,
    number_to_point rotated_line (mkSegment (0, 0, 0) (6, 0, 0)) 2%Q = Ok p
    /\ number_to_point rotated_line (mkSegment (0, 0, 0) (6, 0, 0)) (2 + 1)%Q
       = Ok q
    /\ q = vadd p (get_unit_vector rotated_line
                     (mkSegment (0, 0, 0) (6, 0, 0))).
Proof.
  apply (unit_vector_is_one_step rotated_line
           (mkSegment (0, 0, 0) (6, 0, 0)) 2%Q).
  - vm_compute. reflexivity.
  - simpl. intro H. injection H as H. lra.
  - unfold get_unit_size, get_length, norm. cbn [get_end get_start].
    replace (dot (vsub (6, 0, 0) (0, 0, 0)) (vsub (6, 0, 0) (0, 0, 0)))
      with (6 * 6) by (unfold dot, vsub; ring).
    rewrite sqrt_square by lra. unfold Q2R. simpl. field.
Defined.

End CoordinateExamples.

(** ** Explicit labels, decimal places *)

Lemma add_labels_loop (self : NumberLine) (direction : Vec3) (buff : Q)
    (dict_values : list (Q * LabelContent)) :
  ~ x_max self == x_min self ->
  forall acc,
    Py.for_each
      (fun labels (item : Q * LabelContent) =>
         let '(x, label) := item in
         let label := create_label_tex label in
         let label :=
           mkLabelMobject (label_kind label)
             (label_ops label ++ [OpScale (number_scale_value self)]) in
         alpha <- number_to_point_alpha self x ;;
         let label :=
           mkLabelMobject (label_kind label)
             (label_ops label ++ [OpNextTo alpha direction buff]) in
         Ok (labels ++ [label]))
      dict_values acc
    = Ok (acc
          ++ map (fun item : Q * LabelContent =>
                    mkLabelMobject
                      (label_kind (create_label_tex (snd item)))
                      (label_ops (create_label_tex (snd item))
                       ++ [OpScale (number_scale_value self);
                           OpNextTo ((fst item - x_min self)
                                     / (x_max self - x_min self))
                                    direction buff]))
                 dict_values).
Proof.
  intro H. induction dict_values as [| [x c] l IH]; intro acc; simpl.
  - now rewrite app_nil_r.
  - rewrite number_to_point_alpha_ok by exact H. simpl.
    rewrite IH, <- !app_assoc. reflexivity.
Qed.

(** X22.  [add_labels] builds one label per entry of the dictionary, in
    order: the entry's content turned into a label by [create_label_tex]
    (a mobject given by the caller is used as it is), scaled by
    [number_scale_value] and then placed next to the point of its number;
    no label is shifted for a minus sign.  An empty dictionary gives an empty
    group. *)
Theorem add_labels_one_per_entry (self : NumberLine)
    (dict_values : list (Q * LabelContent))
    (direction : option Vec3) (buff : option Q) :
  (~ x_max self == x_min self ->
   add_labels self dict_values direction buff
   = Ok (map (fun item : Q * LabelContent =>
                mkLabelMobject
                  (label_kind (create_label_tex (snd item)))
                  (label_ops (create_label_tex (snd item))
                   ++ [OpScale (number_scale_value self);
                       OpNextTo ((fst item - x_min self)
                                 / (x_max self - x_min self))
                                match direction with
                                | None => label_direction self
                                | Some d => d
                                end
                                match buff with
                                | None => line_to_number_buff self
                                | Some b => b
                                end]))
             dict_values))
  /\ add_labels self [] direction buff = Ok [].
Proof.
  split; [| reflexivity].
  intro H. unfold add_labels. cbv zeta.
  now rewrite add_labels_loop by exact H.
Qed.

Lemma add_labels_one_per_entry_witness :
  add_labels (line_of_range (-4) 4 2 false false)
    [(-2, LabelStr "a"); (2, LabelFloat (5 # 2))] None None
  = Ok [mkLabelMobject (Tex "a")
          [OpScale (3 # 4);
           OpNextTo ((-2 - -4) / (4 - -4)) DOWN MED_SMALL_BUFF];
        mkLabelMobject (MathTex (5 # 2))
          [OpScale (3 # 4);
           OpNextTo ((2 - -4) / (4 - -4)) DOWN MED_SMALL_BUFF]].
Proof.
  apply (add_labels_one_per_entry (line_of_range (-4) 4 2 false false)
           [(-2, LabelStr "a"); (2, LabelFloat (5 # 2))] None None).
  vm_compute. discriminate.
Defined.

Lemma split_last (sep : ascii) (a b : string) :
  has_char sep b = false ->
  exists h t, split sep (a ++ String sep b) = (h :: t) ++ [b].
Proof.
  intro Hb.
  assert (Eb : split sep b = [b]).
  { clear a. induction b as [| c b IH]; simpl in *; [reflexivity |].
    apply orb_false_iff in Hb as [Hc Hb].
    rewrite Hc, (IH Hb). reflexivity. }
  induction a as [| c a [h [t IH]]]; simpl.
  - rewrite Ascii.eqb_refl, Eb. exists EmptyString, []. reflexivity.
  - destruct (Ascii.eqb c sep).
    + rewrite IH. exists EmptyString, (h :: t). reflexivity.
    + rewrite IH. simpl. exists (String c h), t. reflexivity.
Qed.

Lemma has_char_app (sep : ascii) (a b : string) :
  has_char sep (a ++ String sep b) = true.
Proof.
  induction a as [| c a IH]; simpl.
  - now rewrite Ascii.eqb_refl.
  - rewrite IH. apply orb_true_r.
Qed.

(** X23.  [decimal_places_from_step] counts the characters after the last
    dot of the text of the step, and gives 0 when the text has no dot (an
    integer step, or a float printed in exponent form). *)
Theorem decimal_places_count (s : string) :
  (has_char "." s = false -> decimal_places_from_step s = 0%nat)
  /\ (forall a b, s = (a ++ String "." b)%string ->
        has_char "." b = false ->
        decimal_places_from_step s = String.length b).
Proof.
  split.
  - intro H. unfold decimal_places_from_step. now rewrite H.
  - intros a b -> Hb. unfold decimal_places_from_step.
    rewrite has_char_app. simpl.
    destruct (split_last "." a b Hb) as [h [t ->]].
    now rewrite last_last.
Qed.

Lemma decimal_places_count_witness :
  decimal_places_from_step "0.25" = 2%nat
  /\ decimal_places_from_step "1e-06" = 0%nat.
Proof.
  split.
  - apply (proj2 (decimal_places_count "0.25") "0"%string "25"%string);
      reflexivity.
  - apply (proj1 (decimal_places_count "1e-06")). reflexivity.
Defined.
